(** * grind_review_bot: the spaced-review engine

    A shallow embedding of the persistence layer and of the daily reminder
    scheduler of the bot, and the properties its specification states
    about them; then of the code around them (the list query, the schema
    migrations, the in-memory cache, the conversions between entry and
    model, a helper of the handlers) and what that code shows by itself.

    The repository carries two generations of the persistence layer:
    - [DB] (internal/database/models.go): hand-written SQL over
      database/sql, with the [user_stats] aggregate table;
    - [Repository] (the GORM based repository.go and its models), which the
      scheduler in internal/bot/scheduler.go calls through [s.bot.repo].

    Modelling conventions:
    - a [time.Time] is an instant, an integer number of nanoseconds; a
      [time.Duration] is an integer number of nanoseconds;
    - Go's [int] and [uint] identifiers and counters are integers of [Z];
      counters stay far from the 64 bit bounds;
    - a table is the list of its rows in rowid order; the store enforces the
      constraints the schema declares (PRIMARY KEY, UNIQUE, FOREIGN KEY with
      ON DELETE CASCADE);
    - inside a store a statement fails only when a constraint of the
      schema fails; a driver fault (lost connection, timeout) is an event of
      the scheduler's environment, which decides the outcome of every call
      that leaves the process. *)

From Stdlib Require Import ZArith NArith String Ascii List Lia.
From stdpp Require Import base decidable option list sorting strings gmap.

Local Open Scope string_scope.
Local Open Scope list_scope.
Local Open Scope Z_scope.

Abbreviation Time := Z (only parsing).
Abbreviation Duration := Z (only parsing).

(** ** Go's [strings.TrimSpace]

    A Go string is a sequence of bytes holding UTF-8 text.  [TrimSpace]
    removes the leading and the trailing runs of code points that
    [unicode.IsSpace] accepts: the ASCII ones, U+0085, U+00A0 and the
    code points above Latin-1 with the White_Space property. *)
Module strings.

(** [asciiSpace]: '\t', '\n', '\v', '\f', '\r', ' '. *)
Definition asciiSpace (b : N) : bool :=
  ((9 <=? b) && (b <=? 13) || (b =? 32))%N.

(** Number of bytes of the white-space rune that starts the byte sequence
    (0 when it starts with none).  The multi-byte cases are the UTF-8
    encodings of U+0085, U+00A0, U+1680, U+2000..U+200A, U+2028, U+2029,
    U+202F, U+205F and U+3000. *)
Definition spaceWidth (l : list N) : nat :=
  match l with
  | b1 :: rest =>
      if asciiSpace b1 then 1%nat
      else match rest with
           | b2 :: rest2 =>
               if ((b1 =? 194) && ((b2 =? 133) || (b2 =? 160)))%N then 2%nat
               else match rest2 with
                    | b3 :: _ =>
                        if ((b1 =? 225) && (b2 =? 154) && (b3 =? 128))%N then 3%nat
                        else if ((b1 =? 226) && (b2 =? 128) &&
                                 ((128 <=? b3) && (b3 <=? 138) || (b3 =? 168)
                                  || (b3 =? 169) || (b3 =? 175)))%N then 3%nat
                        else if ((b1 =? 226) && (b2 =? 129) && (b3 =? 159))%N then 3%nat
                        else if ((b1 =? 227) && (b2 =? 128) && (b3 =? 128))%N then 3%nat
                        else 0%nat
                    | [] => 0%nat
                    end
           | [] => 0%nat
           end
  | [] => 0%nat
  end.

(** The same, reading the bytes from the end of the string backwards
    ([utf8.DecodeLastRuneInString]): the argument is the reversed string. *)
Definition spaceWidthRev (l : list N) : nat :=
  match l with
  | b1 :: rest =>
      if asciiSpace b1 then 1%nat
      else match rest with
           | b2 :: rest2 =>
               if spaceWidth [b2; b1] is 2%nat then 2%nat
               else match rest2 with
                    | b3 :: _ => if spaceWidth [b3; b2; b1] is 3%nat then 3%nat else 0%nat
                    | [] => 0%nat
                    end
           | [] => 0%nat
           end
  | [] => 0%nat
  end.

(** Drop white-space runes from the front while there is one; every step
    removes at least one byte, so [length l] steps are enough. *)
Fixpoint dropSpaces (width : list N -> nat) (steps : nat) (l : list N) : list N :=
  match steps with
  | O => l
  | S steps' =>
      match width l with
      | O => l
      | w => dropSpaces width steps' (drop w l)
      end
  end.

Definition TrimLeft (l : list N) : list N := dropSpaces spaceWidth (length l) l.
Definition TrimRight (l : list N) : list N :=
  rev (dropSpaces spaceWidthRev (length l) (rev l)).

Definition bytes (s : string) : list N := map N_of_ascii (list_ascii_of_string s).
Definition ofBytes (l : list N) : string := string_of_list_ascii (map ascii_of_N l).

Definition TrimSpace (s : string) : string := ofBytes (TrimRight (TrimLeft (bytes s))).

End strings.

(** ** Errors

    Go errors are values built by [errors.New] and [fmt.Errorf]; one
    constructor stands for each message the persistence layer produces. *)
Inductive error : Type :=
| ErrUserIDRequired                 (* errors.New("user ID is required") *)
| ErrProblemNameRequired            (* errors.New("problem name is required") *)
| ErrInvalidDifficulty (got : string) (* fmt.Errorf("invalid difficulty: %s", got) *)
| ErrInvalidStatus (got : string)   (* fmt.Errorf("invalid status: %s", got) *)
| ErrCategoryRequired               (* errors.New("category is required") *)
| ErrProblemNotFound (id : Z)       (* fmt.Errorf("problem not found: %d", id) *)
| ErrRecordNotFound                 (* gorm.ErrRecordNotFound *)
| ErrConstraint (table : string)    (* the driver's error: a constraint of [table] failed *)
| ErrWrap (context : string) (cause : error). (* fmt.Errorf(context + ": %w", cause) *)

#[global] Instance error_eq_dec : EqDecision error.
Proof. solve_decision. Defined.

(** The specification's error kinds. *)
Definition ValidationError (e : error) : Prop :=
  match e with
  | ErrUserIDRequired | ErrProblemNameRequired | ErrInvalidDifficulty _
  | ErrInvalidStatus _ | ErrCategoryRequired => True
  | _ => False
  end.

Definition NotFoundError (e : error) : Prop :=
  match e with
  | ErrProblemNotFound _ => True
  | _ => False
  end.

(** ** The entry exchanged with callers (both generations declare it alike) *)

Definition StatusSolved := "Solved".
Definition StatusNeededHint := "Needed Hint".
Definition StatusStuck := "Stuck".

Definition DifficultyEasy := "Easy".
Definition DifficultyMedium := "Medium".
Definition DifficultyHard := "Hard".

Record ProblemEntry : Type := mkProblemEntry {
  ID : Z;
  UserID : string;
  ProblemName : string;
  Link : string;
  Difficulty : string;
  Category : string;
  Status : string;
  SolvedAt : Time;
  LastReviewedAt : option Time;
  ReviewCount : Z;
  Notes : string;
  Tags : list string
}.

#[global] Instance ProblemEntry_eq_dec : EqDecision ProblemEntry.
Proof. solve_decision. Defined.

(** [ValidateProblemEntry]: [None] is Go's [nil]. *)
Definition ValidateProblemEntry (p : ProblemEntry) : option error :=
  if decide (UserID p = "") then Some ErrUserIDRequired
  else if decide (ProblemName p = "") then Some ErrProblemNameRequired
  else if decide (Difficulty p ≠ DifficultyEasy ∧ Difficulty p ≠ DifficultyMedium
                  ∧ Difficulty p ≠ DifficultyHard)
       then Some (ErrInvalidDifficulty (Difficulty p))
  else if decide (Status p ≠ StatusSolved ∧ Status p ≠ StatusNeededHint
                  ∧ Status p ≠ StatusStuck)
       then Some (ErrInvalidStatus (Status p))
  else if decide (Category p = "") then Some ErrCategoryRequired
  else None.


(** ** SQL's ORDER BY

    [ORDER BY key ASC] over the rows a scan produces.  SQL leaves the order
    of rows with equal keys to the engine; the model keeps them in scan
    (rowid) order, that is, the sort is a stable insertion sort. *)
Module Sql.

Section OrderBy.
Context {A : Type} (key : A → Z).

Fixpoint insertBy (x : A) (l : list A) : list A :=
  match l with
  | [] => [x]
  | y :: l' => if decide (key x ≤ key y) then x :: y :: l' else y :: insertBy x l'
  end.

Definition orderBy (l : list A) : list A := foldr insertBy [] l.

End OrderBy.

End Sql.

(** ** The hand-written SQL store (internal/database/models.go)

    The schema is the one of [migrateV1] in internal/database/migrations.go. *)
Module DB.

(** A row of [problems]; [problems_id] is the column [id]. *)
Record problems_row : Type := mk_problems_row {
  problems_id : Z;
  user_id : string;
  problem_name : string;
  link : string;
  difficulty : string;
  category : string;
  status : string;
  solved_at : Time;
  last_reviewed_at : option Time;
  review_count : Z;
  notes : string
}.

(** A row of [tags]: columns [id] and [name] (UNIQUE). *)
Record tags_row : Type := mk_tags_row {
  tags_id : Z;
  tags_name : string
}.

(** A row of [problem_tags]; PRIMARY KEY (problem_id, tag_id), both columns
    foreign keys with ON DELETE CASCADE. *)
Record problem_tags_row : Type := mk_problem_tags_row {
  problem_id : Z;
  tag_id : Z
}.

(** Go's [UserStats], which is also a row of [user_stats]; the column
    [user_id] (PRIMARY KEY) is the key of the table. *)
Record UserStats : Type := mkUserStats {
  TotalSolved : Z;
  TotalNeededHint : Z;
  TotalStuck : Z;
  EasyCount : Z;
  MediumCount : Z;
  HardCount : Z;
  LastActiveAt : option Time
}.

#[global] Instance problems_row_eq_dec : EqDecision problems_row.
Proof. solve_decision. Defined.
#[global] Instance tags_row_eq_dec : EqDecision tags_row.
Proof. solve_decision. Defined.
#[global] Instance problem_tags_row_eq_dec : EqDecision problem_tags_row.
Proof. solve_decision. Defined.
#[global] Instance UserStats_eq_dec : EqDecision UserStats.
Proof. solve_decision. Defined.

(** The database: the four tables and the AUTOINCREMENT counters of
    [problems] and [tags] (the last id handed out). *)
Record Store : Type := mkStore {
  problems : list problems_row;
  problems_seq : Z;
  tags : list tags_row;
  tags_seq : Z;
  problem_tags : list problem_tags_row;
  user_stats : gmap string UserStats
}.

Definition empty : Store := mkStore [] 0 [] 0 [] ∅.

Definition set_problems (f : list problems_row → list problems_row) (s : Store) : Store :=
  mkStore (f (problems s)) (problems_seq s) (tags s) (tags_seq s) (problem_tags s) (user_stats s).
Definition set_problem_tags (f : list problem_tags_row → list problem_tags_row) (s : Store) : Store :=
  mkStore (problems s) (problems_seq s) (tags s) (tags_seq s) (f (problem_tags s)) (user_stats s).
Definition set_user_stats (f : gmap string UserStats → gmap string UserStats) (s : Store) : Store :=
  mkStore (problems s) (problems_seq s) (tags s) (tags_seq s) (problem_tags s) (f (user_stats s)).

(** *** Statements inside a transaction

    A statement reads and writes the store and may fail; [transaction]
    is [db.Begin] ... [tx.Commit] with the deferred [tx.Rollback]: a
    failure leaves the store as it was. *)
Definition Tx (A : Type) : Type := Store → error + (A * Store).

#[global] Instance Tx_ret : MRet Tx := λ A a s, inr (a, s).
#[global] Instance Tx_bind : MBind Tx := λ A B f m s,
  match m s with
  | inl e => inl e
  | inr (a, s') => f a s'
  end.

Definition wrap {A} (context : string) (m : Tx A) : Tx A := λ s,
  match m s with
  | inl e => inl (ErrWrap context e)
  | inr r => inr r
  end.

Definition transaction {A} (m : Tx A) (s : Store) : (error + A) * Store :=
  match m s with
  | inl e => (inl e, s)
  | inr (a, s') => (inr a, s')
  end.

(** INSERT INTO problems (user_id, problem_name, link, difficulty, category,
    status, solved_at, notes) VALUES (...), returning the new id;
    [last_reviewed_at] is NULL and [review_count] is its default 0. *)
Definition insert_problem (p : ProblemEntry) : Tx Z := λ s,
  let problemID := problems_seq s + 1 in
  let row := mk_problems_row problemID (UserID p) (ProblemName p) (Link p) (Difficulty p)
               (Category p) (Status p) (SolvedAt p) None 0 (Notes p) in
  inr (problemID,
       mkStore (problems s ++ [row]) problemID (tags s) (tags_seq s)
               (problem_tags s) (user_stats s)).

(** SELECT id FROM tags WHERE name = ? *)
Definition select_tag (tag : string) (s : Store) : option Z :=
  tags_id <$> head (filter (λ t, tags_name t = tag) (tags s)).

(** INSERT INTO tags (name) VALUES (?) ON CONFLICT (name) DO UPDATE SET
    name=name RETURNING id.  The fallback the code keeps for a driver
    without this statement (SELECT, then INSERT when there is no row)
    yields the same id and the same table. *)
Definition upsert_tag (tag : string) : Tx Z := λ s,
  match select_tag tag s with
  | Some tagID => inr (tagID, s)
  | None =>
      let tagID := tags_seq s + 1 in
      inr (tagID,
           mkStore (problems s) (problems_seq s) (tags s ++ [mk_tags_row tagID tag]) tagID
                   (problem_tags s) (user_stats s))
  end.

(** INSERT INTO problem_tags (problem_id, tag_id) VALUES (?, ?): fails on a
    pair that is already linked (PRIMARY KEY) and on a problem or a tag
    that does not exist (FOREIGN KEY). *)
Definition insert_problem_tag (problemID tagID : Z) : Tx unit := λ s,
  if decide (mk_problem_tags_row problemID tagID ∈ problem_tags s) then inl (ErrConstraint "problem_tags")
  else if decide (problemID ∈ map problems_id (problems s) ∧ tagID ∈ map tags_id (tags s))
  then inr (tt, set_problem_tags (λ l, l ++ [mk_problem_tags_row problemID tagID]) s)
  else inl (ErrConstraint "problem_tags").

(** The loop over the tags shared by [InsertProblem] and
    [updateProblemTags]: trim, skip the empty ones, upsert the tag, link it. *)
Fixpoint link_tags (problemID : Z) (tags : list string) : Tx unit :=
  match tags with
  | [] => mret tt
  | tag :: rest =>
      let tag := strings.TrimSpace tag in
      if decide (tag = "") then link_tags problemID rest
      else
        tagID ← upsert_tag tag;
        _ ← wrap "failed to link problem to tag" (insert_problem_tag problemID tagID);
        link_tags problemID rest
  end.

(** The UPDATE of [updateUserStats]: the counter the status selects, the
    counter the difficulty selects (a Go [switch] without default), and
    [last_active_at = now]. *)
Definition bump_status (st : string) (u : UserStats) : UserStats :=
  if decide (st = StatusSolved) then
    mkUserStats (TotalSolved u + 1) (TotalNeededHint u) (TotalStuck u)
                (EasyCount u) (MediumCount u) (HardCount u) (LastActiveAt u)
  else if decide (st = StatusNeededHint) then
    mkUserStats (TotalSolved u) (TotalNeededHint u + 1) (TotalStuck u)
                (EasyCount u) (MediumCount u) (HardCount u) (LastActiveAt u)
  else if decide (st = StatusStuck) then
    mkUserStats (TotalSolved u) (TotalNeededHint u) (TotalStuck u + 1)
                (EasyCount u) (MediumCount u) (HardCount u) (LastActiveAt u)
  else u.

Definition bump_difficulty (d : string) (u : UserStats) : UserStats :=
  if decide (d = DifficultyEasy) then
    mkUserStats (TotalSolved u) (TotalNeededHint u) (TotalStuck u)
                (EasyCount u + 1) (MediumCount u) (HardCount u) (LastActiveAt u)
  else if decide (d = DifficultyMedium) then
    mkUserStats (TotalSolved u) (TotalNeededHint u) (TotalStuck u)
                (EasyCount u) (MediumCount u + 1) (HardCount u) (LastActiveAt u)
  else if decide (d = DifficultyHard) then
    mkUserStats (TotalSolved u) (TotalNeededHint u) (TotalStuck u)
                (EasyCount u) (MediumCount u) (HardCount u + 1) (LastActiveAt u)
  else u.

Definition set_last_active (now : Time) (u : UserStats) : UserStats :=
  mkUserStats (TotalSolved u) (TotalNeededHint u) (TotalStuck u)
              (EasyCount u) (MediumCount u) (HardCount u) (Some now).

(** The row INSERT INTO user_stats (user_id, last_active_at) creates: the
    counters take their default 0. *)
Definition new_user_stats (now : Time) : UserStats := mkUserStats 0 0 0 0 0 0 (Some now).

(** [updateUserStats]; [now] is the [time.Now()] it reads. *)
Definition updateUserStats (now : Time) (p : ProblemEntry) : Tx unit := λ s,
  let exists_ := bool_decide (is_Some (user_stats s !! UserID p)) in
  let created := if exists_ then user_stats s
                 else <[UserID p := new_user_stats now]> (user_stats s) in
  let updated :=
    alter (λ u, set_last_active now (bump_difficulty (Difficulty p) (bump_status (Status p) u)))
          (UserID p) created in
  inr (tt, set_user_stats (λ _, updated) s).

Definition with_ID (problemID : Z) (p : ProblemEntry) : ProblemEntry :=
  mkProblemEntry problemID (UserID p) (ProblemName p) (Link p) (Difficulty p) (Category p)
                 (Status p) (SolvedAt p) (LastReviewedAt p) (ReviewCount p) (Notes p) (Tags p).

(** [InsertProblem]: the error ([None] is [nil]), the entry as the call
    leaves it ([p.ID] is set on success only) and the store. *)
Definition InsertProblem (now : Time) (p : ProblemEntry) (s : Store)
  : option error * ProblemEntry * Store :=
  match ValidateProblemEntry p with
  | Some err => (Some err, p, s)
  | None =>
      match transaction
              (problemID ← insert_problem p;
               _ ← link_tags problemID (Tags p);
               _ ← wrap "failed to update user stats" (updateUserStats now p);
               mret problemID) s
      with
      | (inl err, s') => (Some err, p, s')
      | (inr problemID, s') => (None, with_ID problemID p, s')
      end
  end.

(** SELECT t.name FROM problem_tags pt JOIN tags t ON pt.tag_id = t.id
    WHERE pt.problem_id = ? *)
Definition GetProblemTags (problemID : Z) (s : Store) : list string :=
  pt ← filter (λ pt, problem_id pt = problemID) (problem_tags s);
  tags_name <$> filter (λ t, tags_id t = tag_id pt) (tags s).

(** [rows.Scan] into a [ProblemEntry], then the tags of the problem. *)
Definition scan (s : Store) (r : problems_row) : ProblemEntry :=
  mkProblemEntry (problems_id r) (user_id r) (problem_name r) (link r) (difficulty r)
                 (category r) (status r) (solved_at r) (last_reviewed_at r)
                 (review_count r) (notes r) (GetProblemTags (problems_id r) s).

Definition GetProblem (id : Z) (s : Store) : error + ProblemEntry :=
  match head (filter (λ r, problems_id r = id) (problems s)) with
  | Some r => inr (scan s r)
  | None => inl (ErrProblemNotFound id)
  end.

(** UPDATE problems SET user_id = ?, ..., notes = ? WHERE id = ? *)
Definition update_problem (p : ProblemEntry) : Tx unit := λ s,
  inr (tt, set_problems
             (map (λ r, if decide (problems_id r = ID p)
                        then mk_problems_row (problems_id r) (UserID p) (ProblemName p) (Link p)
                               (Difficulty p) (Category p) (Status p) (SolvedAt p)
                               (LastReviewedAt p) (ReviewCount p) (Notes p)
                        else r)) s).

(** [updateProblemTags]: DELETE FROM problem_tags WHERE problem_id = ?,
    then the loop over the new tags. *)
Definition updateProblemTags (problemID : Z) (tags : list string) : Tx unit :=
  _ ← (λ s, inr (tt, set_problem_tags (filter (λ pt, problem_id pt ≠ problemID)) s)) : Tx unit;
  link_tags problemID tags.

Definition UpdateProblem (p : ProblemEntry) (s : Store) : option error * Store :=
  match ValidateProblemEntry p with
  | Some err => (Some err, s)
  | None =>
      match transaction
              (_ ← update_problem p;
               wrap "failed to update problem tags" (updateProblemTags (ID p) (Tags p))) s
      with
      | (inl err, s') => (Some err, s')
      | (inr _, s') => (None, s')
      end
  end.

(** [DeleteProblem]: DELETE FROM problems WHERE id = ?; the links of the
    problem go with it (ON DELETE CASCADE).  No other table is written. *)
Definition DeleteProblem (id : Z) (s : Store) : option error * Store :=
  (None,
   set_problem_tags (filter (λ pt, problem_id pt ≠ id))
     (set_problems (filter (λ r, problems_id r ≠ id)) s)).

Definition GetUserStats (userID : string) (s : Store) : option UserStats :=
  user_stats s !! userID.

(** [last_reviewed_at IS NULL OR last_reviewed_at <= ?] *)
Definition null_or_le (t : option Time) (cutoff : Time) : Prop :=
  match t with
  | None => True
  | Some t => t ≤ cutoff
  end.

#[global] Instance null_or_le_dec t cutoff : Decision (null_or_le t cutoff).
Proof. destruct t; simpl; apply _. Defined.

(** The WHERE clause of [ListProblemsForReview]. *)
Definition for_review (userID : string) (cutoff : Time) (r : problems_row) : Prop :=
  user_id r = userID ∧ solved_at r ≤ cutoff ∧ null_or_le (last_reviewed_at r) cutoff.

#[global] Instance for_review_dec userID cutoff r : Decision (for_review userID cutoff r).
Proof. unfold for_review; apply _. Defined.

(** [ListProblemsForReview]; [now] is the [time.Now()] it reads. *)
Definition ListProblemsForReview (now : Time) (userID : string) (lookbackPeriod : Duration)
    (s : Store) : list ProblemEntry :=
  let cutoff := now + - lookbackPeriod in
  scan s <$> Sql.orderBy solved_at (filter (for_review userID cutoff) (problems s)).

(** [IncrementReviewCount]: UPDATE problems SET review_count = review_count
    + 1, last_reviewed_at = ? WHERE id = ?; the number of rows the
    statement touches is not read. *)
Definition IncrementReviewCount (now : Time) (problemID : Z) (s : Store) : option error * Store :=
  (None,
   set_problems
     (map (λ r, if decide (problems_id r = problemID)
                then mk_problems_row (problems_id r) (user_id r) (problem_name r) (link r)
                       (difficulty r) (category r) (status r) (solved_at r)
                       (Some now) (review_count r + 1) (notes r)
                else r)) s).

(** What the schema promises of any database the statements above have
    run on: ids are primary keys handed out by AUTOINCREMENT, and a link
    points to a problem id that was handed out. *)
Record well_formed (s : Store) : Prop := mk_well_formed {
  problems_pk : NoDup (problems_id <$> problems s);
  problems_below_seq : ∀ r, r ∈ problems s → problems_id r ≤ problems_seq s;
  tags_pk : NoDup (tags_id <$> tags s);
  tags_below_seq : ∀ t, t ∈ tags s → tags_id t ≤ tags_seq s;
  links_below_seq : ∀ pt, pt ∈ problem_tags s → problem_id pt ≤ problems_seq s
}.

(** [UpdateUserLastActive]: UPDATE user_stats SET last_active_at = ? WHERE
    user_id = ?; [now] is the [time.Now()] it reads. *)
Definition UpdateUserLastActive (now : Time) (userID : string) (s : Store) : option error * Store :=
  (None, set_user_stats (alter (set_last_active now) userID) s).

(** *** [ListProblems]

    The statement is put together from pieces and its [?] placeholders are
    bound to [args] by position.  The columns a filter can name, in the
    order the code looks at the filters: *)
Definition filter_columns : list (problems_row → string) :=
  [user_id; status; difficulty; category].

(** FROM problems p JOIN problem_tags pt ON p.id = pt.problem_id JOIN tags t
    ON pt.tag_id = t.id, as nested scans. *)
Definition joined (s : Store) : list (problems_row * tags_row) :=
  p ← problems s;
  pt ← filter (λ pt, problem_id pt = problems_id p) (problem_tags s);
  t ← filter (λ t, tags_id t = tag_id pt) (tags s);
  [(p, t)].

Section ListProblems.

(** With an offset and no limit the statement ends in [OFFSET ?] without
    [LIMIT]; what becomes of it is the engine's business (the grammar of
    SQLite has no such clause, PostgreSQL skips the rows), so the outcome
    is a parameter. *)
Variable offset_without_limit : Z → list problems_row → error + list problems_row.

(** [conditions] and [args] grow together, one entry for each filter that
    is not empty; the tags are appended to [args] after them, while their
    placeholders, [t.name IN (?, ...)], come first in the statement.
    ORDER BY solved_at DESC is the stable sort on the negated key. *)
Definition ListProblems (userID status difficulty category : string) (tags : list string)
    (limit offset : Z) (s : Store) : error + list ProblemEntry :=
  let given :=
    filter (λ cv, cv.2 ≠ "") (zip filter_columns [userID; status; difficulty; category]) in
  let conditions := given.*1 in
  let args := given.*2 ++ tags in
  let names := take (length tags) args in
  let values := drop (length tags) args in
  let where_ (p : problems_row) : Prop :=
    Forall2 (λ column value, column p = value) conditions values in
  let rows :=
    if decide (0 < length tags)%nat
    then (filter (λ pt, tags_name pt.2 ∈ names ∧ where_ pt.1) (joined s)).*1
    else filter where_ (problems s) in
  let ordered := Sql.orderBy (λ p, - solved_at p) rows in
  let page :=
    if decide (0 < limit) then
      inr (take (Z.to_nat limit)
             (if decide (0 < offset) then drop (Z.to_nat offset) ordered else ordered))
    else if decide (0 < offset) then offset_without_limit offset ordered
    else inr ordered in
  match page with
  | inl err => inl (ErrWrap "failed to list problems" err)
  | inr rows => inr (scan s <$> rows)
  end.

End ListProblems.

(** The number of rows of [problems] an owner has with [column = value]. *)
Definition count_rows (userID : string) (column : problems_row → string) (value : string)
    (s : Store) : Z :=
  Z.of_nat (length (filter (λ r, user_id r = userID ∧ column r = value) (problems s))).

(** The counters of [user_stats] say what [problems] holds; an owner
    without a row of [user_stats] stands for six zeros. *)
Definition counters_match (s : Store) : Prop :=
  ∀ userID,
    let u := default (mkUserStats 0 0 0 0 0 0 None) (user_stats s !! userID) in
    TotalSolved u = count_rows userID status StatusSolved s
    ∧ TotalNeededHint u = count_rows userID status StatusNeededHint s
    ∧ TotalStuck u = count_rows userID status StatusStuck s
    ∧ EasyCount u = count_rows userID difficulty DifficultyEasy s
    ∧ MediumCount u = count_rows userID difficulty DifficultyMedium s
    ∧ HardCount u = count_rows userID difficulty DifficultyHard s.

End DB.

(** ** The GORM models (the [Problem] and [Tag] structs)

    Both carry a [gorm.DeletedAt] field: GORM soft-deletes their rows and
    every query it builds for them reads the rows with [deleted_at IS NULL]
    only.  The zero [time.Time] is the instant 0. *)
Module Tag.
Record t : Type := mk {
  ID : Z;
  Name : string;
  CreatedAt : Time;
  UpdatedAt : Time;
  DeletedAt : option Time
}.
End Tag.

#[global] Instance Tag_eq_dec : EqDecision Tag.t.
Proof. solve_decision. Defined.

Module Problem.
Record t : Type := mk {
  ID : Z;
  UserID : string;
  ProblemName : string;
  Link : string;
  Difficulty : string;
  Category : string;
  Status : string;
  SolvedAt : Time;
  LastReviewedAt : option Time;
  ReviewCount : Z;
  Notes : string;
  Tags : list Tag.t;
  CreatedAt : Time;
  UpdatedAt : Time;
  DeletedAt : option Time
}.
End Problem.

#[global] Instance Problem_eq_dec : EqDecision Problem.t.
Proof. solve_decision. Defined.

(** [ProblemEntry.ToProblem]: the tags are trimmed and the empty ones
    dropped; nothing else is done to them. *)
Definition ToProblem (p : ProblemEntry) : Problem.t :=
  let tags :=
    foldl (λ tags tagName,
             let tagName := strings.TrimSpace tagName in
             if decide (tagName ≠ "") then tags ++ [Tag.mk 0 tagName 0 0 None] else tags)
          [] (Tags p) in
  Problem.mk (ID p) (UserID p) (ProblemName p) (Link p) (Difficulty p) (Category p)
             (Status p) (SolvedAt p) (LastReviewedAt p) (ReviewCount p) (Notes p) tags
             0 0 None.

Definition FromProblem (p : Problem.t) : ProblemEntry :=
  let tags := foldl (λ tags tag, tags ++ [Tag.Name tag]) [] (Problem.Tags p) in
  mkProblemEntry (Problem.ID p) (Problem.UserID p) (Problem.ProblemName p) (Problem.Link p)
                 (Problem.Difficulty p) (Problem.Category p) (Problem.Status p)
                 (Problem.SolvedAt p) (Problem.LastReviewedAt p) (Problem.ReviewCount p)
                 (Problem.Notes p) tags.

(** ** The GORM repository (repository.go) *)
Module Repository.

(** The database behind [r.db]: a row of [problems] is a [Problem.t] whose
    [Tags] are not a column (the field is empty in a row and filled by
    [Preload]); [problem_tags] holds (problem_id, tag_id). *)
Record Store : Type := mkStore {
  problems : list Problem.t;
  problems_seq : Z;
  tags : list Tag.t;
  tags_seq : Z;
  problem_tags : list (Z * Z)
}.

Definition empty : Store := mkStore [] 0 [] 0 [].

Definition set_problems (f : list Problem.t → list Problem.t) (s : Store) : Store :=
  mkStore (f (problems s)) (problems_seq s) (tags s) (tags_seq s) (problem_tags s).
Definition set_problem_tags (f : list (Z * Z) → list (Z * Z)) (s : Store) : Store :=
  mkStore (problems s) (problems_seq s) (tags s) (tags_seq s) (f (problem_tags s)).

(** Statements inside [Transaction(func(tx *gorm.DB) error {...})]: an
    error returned by the function rolls the transaction back. *)
Definition Tx (A : Type) : Type := Store → error + (A * Store).

#[global] Instance Tx_ret : MRet Tx := λ A a s, inr (a, s).
#[global] Instance Tx_bind : MBind Tx := λ A B f m s,
  match m s with
  | inl e => inl e
  | inr (a, s') => f a s'
  end.

Definition wrap {A} (context : string) (m : Tx A) : Tx A := λ s,
  match m s with
  | inl e => inl (ErrWrap context e)
  | inr r => inr r
  end.

Definition Transaction {A} (m : Tx A) (s : Store) : (error + A) * Store :=
  match m s with
  | inl e => (inl e, s)
  | inr (a, s') => (inr a, s')
  end.

(** The rows a query on [Model(&Problem{})] reads: the soft-delete scope. *)
Definition live (p : Problem.t) : Prop := Problem.DeletedAt p = None.

(** [Preload("Tags")]: the live tags linked to the problem. *)
Definition preload_tags (s : Store) (p : Problem.t) : Problem.t :=
  let tags :=
    pt ← filter (λ pt, pt.1 = Problem.ID p) (problem_tags s);
    filter (λ t, Tag.ID t = pt.2 ∧ Tag.DeletedAt t = None) (tags s) in
  Problem.mk (Problem.ID p) (Problem.UserID p) (Problem.ProblemName p) (Problem.Link p)
             (Problem.Difficulty p) (Problem.Category p) (Problem.Status p)
             (Problem.SolvedAt p) (Problem.LastReviewedAt p) (Problem.ReviewCount p)
             (Problem.Notes p) tags
             (Problem.CreatedAt p) (Problem.UpdatedAt p) (Problem.DeletedAt p).

(** [tx.First(&existingProblem, id)]: the live row with this primary key,
    or [gorm.ErrRecordNotFound]. *)
Definition first_problem (id : Z) : Tx Problem.t := λ s,
  match head (filter (λ p, Problem.ID p = id ∧ live p) (problems s)) with
  | Some p => inr (p, s)
  | None => inl ErrRecordNotFound
  end.

(** [GetProblem] *)
Definition GetProblem (id : Z) (s : Store) : error + ProblemEntry :=
  match head (filter (λ p, Problem.ID p = id ∧ live p) (problems s)) with
  | Some p => inr (FromProblem (preload_tags s p))
  | None => inl (ErrProblemNotFound id)
  end.

(** [tx.Model(&existingProblem).Omit("Tags").Updates(map...)]: the ten
    columns of the map and [updated_at], on the live row of the model. *)
Definition updates_problem (now : Time) (existingProblem problem : Problem.t) : Tx unit := λ s,
  inr (tt, set_problems
             (map (λ p, if decide (Problem.ID p = Problem.ID existingProblem ∧ live p)
                        then Problem.mk (Problem.ID p) (Problem.UserID problem)
                               (Problem.ProblemName problem) (Problem.Link problem)
                               (Problem.Difficulty problem) (Problem.Category problem)
                               (Problem.Status problem) (Problem.SolvedAt problem)
                               (Problem.LastReviewedAt problem) (Problem.ReviewCount problem)
                               (Problem.Notes problem) (Problem.Tags p)
                               (Problem.CreatedAt p) now (Problem.DeletedAt p)
                        else p)) s).

(** [tx.Model(&existingProblem).Association("Tags").Clear()] *)
Definition clear_tags (existingProblem : Problem.t) : Tx unit := λ s,
  inr (tt, set_problem_tags (filter (λ pt, pt.1 ≠ Problem.ID existingProblem)) s).

(** [tx.Where("name = ?", name).First(&existingTag)] *)
Definition first_tag (name : string) (s : Store) : option Tag.t :=
  head (filter (λ t, Tag.Name t = name ∧ Tag.DeletedAt t = None) (tags s)).

(** [tx.Create(&tag)]: a new row of [tags]; [name] is UNIQUE over all the
    rows of the table. *)
Definition create_tag (now : Time) (tag : Tag.t) : Tx Tag.t := λ s,
  if decide (Tag.Name tag ∈ map Tag.Name (tags s)) then inl (ErrConstraint "tags")
  else
    let created := Tag.mk (tags_seq s + 1) (Tag.Name tag) now now None in
    inr (created,
         mkStore (problems s) (problems_seq s) (tags s ++ [created]) (tags_seq s + 1)
                 (problem_tags s)).

(** [tx.Model(&existingProblem).Association("Tags").Append(&existingTag)]:
    the link is inserted ON CONFLICT DO NOTHING. *)
Definition append_tag (existingProblem : Problem.t) (existingTag : Tag.t) : Tx unit := λ s,
  let pt := (Problem.ID existingProblem, Tag.ID existingTag) in
  if decide (pt ∈ problem_tags s) then inr (tt, s)
  else inr (tt, set_problem_tags (λ l, l ++ [pt]) s).

(** The loop "Add new tags" of [UpdateProblem]. *)
Fixpoint add_tags (now : Time) (existingProblem : Problem.t) (tags : list Tag.t) : Tx unit :=
  match tags with
  | [] => mret tt
  | tag :: rest =>
      existingTag ← (λ s, match first_tag (Tag.Name tag) s with
                          | Some existingTag => inr (existingTag, s)
                          | None => wrap "failed to create tag" (create_tag now tag) s
                          end) : Tx Tag.t;
      _ ← wrap "failed to associate tag" (append_tag existingProblem existingTag);
      add_tags now existingProblem rest
  end.

(** [UpdateProblem]; [now] is the time GORM stamps [updated_at] with. *)
Definition UpdateProblem (now : Time) (entry : ProblemEntry) (s : Store) : option error * Store :=
  match ValidateProblemEntry entry with
  | Some err => (Some err, s)
  | None =>
      let problem := ToProblem entry in
      match Transaction
              (existingProblem ← (λ s, match first_problem (Problem.ID problem) s with
                                       | inl ErrRecordNotFound =>
                                           inl (ErrProblemNotFound (Problem.ID problem))
                                       | inl err => inl (ErrWrap "failed to find problem" err)
                                       | inr r => inr r
                                       end) : Tx Problem.t;
               _ ← wrap "failed to update problem" (updates_problem now existingProblem problem);
               _ ← wrap "failed to clear tags" (clear_tags existingProblem);
               add_tags now existingProblem (Problem.Tags problem)) s
      with
      | (inl err, s') => (Some err, s')
      | (inr _, s') => (None, s')
      end
  end.

Section CreateProblem.

(** [tx.Create(problem)] saves the problem together with its [Tags]
    association; how GORM resolves new tags against the rows of [tags] is
    the library's business, so the call is a parameter: it yields the
    primary key of the new row or fails. *)
Variable gorm_Create : Problem.t → Tx Z.

Definition CreateProblem (entry : ProblemEntry) (s : Store)
  : option error * ProblemEntry * Store :=
  match ValidateProblemEntry entry with
  | Some err => (Some err, entry, s)
  | None =>
      let problem := ToProblem entry in
      match Transaction (wrap "failed to create problem" (gorm_Create problem)) s with
      | (inl err, s') => (Some err, entry, s')
      | (inr id, s') => (None, DB.with_ID id entry, s')
      end
  end.

End CreateProblem.

(** The three [Where] clauses of [ListProblemsForReview] on a live row. *)
Definition for_review (userID : string) (cutoff : Time) (p : Problem.t) : Prop :=
  live p ∧ Problem.UserID p = userID ∧ Problem.SolvedAt p ≤ cutoff
  ∧ DB.null_or_le (Problem.LastReviewedAt p) cutoff.

#[global] Instance for_review_dec userID cutoff p : Decision (for_review userID cutoff p).
Proof. unfold for_review, live; apply _. Defined.

(** [ListProblemsForReview]; [now] is the [time.Now()] it reads. *)
Definition ListProblemsForReview (now : Time) (userID : string) (lookbackPeriod : Duration)
    (s : Store) : list ProblemEntry :=
  let cutoff := now + - lookbackPeriod in
  let problems :=
    preload_tags s <$> Sql.orderBy Problem.SolvedAt (filter (for_review userID cutoff) (problems s)) in
  FromProblem <$> problems.

(** [IncrementReviewCount]: [Model(&Problem{}).Where("id = ?", problemID)
    .Updates(...)]; only [.Error] is read, not [.RowsAffected]. *)
Definition IncrementReviewCount (now : Time) (problemID : Z) (s : Store) : option error * Store :=
  (None,
   set_problems
     (map (λ p, if decide (Problem.ID p = problemID ∧ live p)
                then Problem.mk (Problem.ID p) (Problem.UserID p) (Problem.ProblemName p)
                       (Problem.Link p) (Problem.Difficulty p) (Problem.Category p)
                       (Problem.Status p) (Problem.SolvedAt p) (Some now)
                       (Problem.ReviewCount p + 1) (Problem.Notes p) (Problem.Tags p)
                       (Problem.CreatedAt p) now (Problem.DeletedAt p)
                else p)) s).

(** [ListAllUsers]: SELECT DISTINCT user_id FROM problems (live rows). *)
Definition ListAllUsers (s : Store) : list string :=
  remove_dups (Problem.UserID <$> filter live (problems s)).

End Repository.

(** ** The daily reminder (internal/bot/scheduler.go) *)
Module Scheduler.

Record SchedulerConfig : Type := mkSchedulerConfig {
  ReviewTime : string;
  ReviewChannel : string;
  RetryAttempts : Z;
  RetryDelay : Duration;
  LookbackPeriod : Duration
}.

(** What the scheduler does not control.  The calls that leave the process
    (to the repository's database and to Discord) are numbered in the
    order they are made; the environment fixes the outcome of the call
    number [k]. *)
Record Env : Type := mkEnv {
  (** the repository call number [k] fails in the driver *)
  repoFails : nat → bool;
  (** [session.User(userID)] as call [k]: the user's mention, or an error *)
  discordUser : nat → string → option string;
  (** [session.ChannelMessageSend(channel, content)] as call [k]: [true]
      when it returns no error *)
  discordSend : nat → string → string → bool;
  (** [Time.Format("2006-01-02")] *)
  formatDate : Time → string
}.

(** What an observer of a cycle sees. *)
Inductive Event : Type :=
| Sent (channel content : string) (delivered : bool)
| IncrementReviewCount (problemID : Z) (done : bool).

#[global] Instance Event_eq_dec : EqDecision Event.
Proof. solve_decision. Defined.

Record World : Type := mkWorld {
  repo : Repository.Store;
  clock : Time;
  calls : nat;
  journal : list Event
}.

Definition is_increment (ev : Event) : Prop :=
  match ev with
  | IncrementReviewCount _ _ => True
  | Sent _ _ _ => False
  end.

#[global] Instance is_increment_dec ev : Decision (is_increment ev).
Proof. destruct ev; simpl; apply _. Defined.

(** The ids [IncrementReviewCount] was called with, in order. *)
Definition increments (j : list Event) : list Z :=
  omap (λ ev, match ev with
              | IncrementReviewCount problemID _ => Some problemID
              | Sent _ _ _ => None
              end) j.

Definition newline : string := String "010"%char EmptyString.

Section Cycle.

Variable env : Env.
Variable config : SchedulerConfig.

(** [time.Sleep]: a negative or zero duration returns at once. *)
Definition Sleep (d : Duration) (w : World) : World :=
  mkWorld (repo w) (clock w + Z.max 0 d) (calls w) (journal w).

Definition ChannelMessageSend (content : string) (w : World) : bool * World :=
  let delivered := discordSend env (calls w) (ReviewChannel config) content in
  (delivered,
   mkWorld (repo w) (clock w) (S (calls w))
           (journal w ++ [Sent (ReviewChannel config) content delivered])).

(** [s.bot.repo.IncrementReviewCount(ctx, p.ID)]; an error is logged and
    the loop goes on. *)
Definition incrementReviewCount (problemID : Z) (w : World) : World :=
  if repoFails env (calls w) then
    mkWorld (repo w) (clock w) (S (calls w)) (journal w ++ [IncrementReviewCount problemID false])
  else
    let '(err, repo') := Repository.IncrementReviewCount (clock w) problemID (repo w) in
    mkWorld repo' (clock w) (S (calls w))
            (journal w ++ [IncrementReviewCount problemID (bool_decide (err = None))]).

(** The text built in the [strings.Builder]. *)
Definition line (p : ProblemEntry) : string :=
  "- " +:+ ProblemName p +:+ " (Solved: " +:+ formatDate env (SolvedAt p) +:+ ")"
  +:+ (if decide (Link p ≠ "") then " - <" +:+ Link p +:+ ">" else "")
  +:+ newline.

Definition reminder (mention : string) (problems : list ProblemEntry) : string :=
  "Hey " +:+ mention +:+ "! Here are some problems you might want to review today:" +:+ newline
  +:+ foldr (λ p text, line p +:+ text) "" problems
  +:+ newline +:+ "Remember, consistent review helps reinforce your understanding!".

(** The retry loop [for i := 0; i < s.config.RetryAttempts; i++]: sleep,
    send again, [break] on the first success.  Nothing follows the loop. *)
Fixpoint retry (attempts : nat) (content : string) (w : World) : World :=
  match attempts with
  | O => w
  | S attempts' =>
      let '(delivered, w') := ChannelMessageSend content (Sleep (RetryDelay config) w) in
      if delivered then w' else retry attempts' content w'
  end.

(** The body of the loop over the users. *)
Definition remindUser (w : World) (userID : string) : World :=
  let listed := mkWorld (repo w) (clock w) (S (calls w)) (journal w) in
  if repoFails env (calls w) then listed
  else
    let problems :=
      Repository.ListProblemsForReview (clock w) userID (LookbackPeriod config) (repo w) in
    if bool_decide (0 < length problems)%nat then
      let looked_up := mkWorld (repo w) (clock w) (S (S (calls w))) (journal w) in
      match discordUser env (S (calls w)) userID with
      | None => looked_up
      | Some mention =>
          let content := reminder mention problems in
          let '(delivered, w') := ChannelMessageSend content looked_up in
          if negb delivered then
            retry (Z.to_nat (RetryAttempts config)) content w'
          else
            foldl (λ w p, incrementReviewCount (ID p) w) w' problems
      end
    else listed.

(** [sendDailyReviewReminder] *)
Definition sendDailyReviewReminder (w : World) : World :=
  if decide (ReviewChannel config = "") then w
  else
    let listed := mkWorld (repo w) (clock w) (S (calls w)) (journal w) in
    if repoFails env (calls w) then listed
    else foldl remindUser listed (Repository.ListAllUsers (repo w)).

End Cycle.

End Scheduler.

(** ** The in-memory cache (pkg/cache/cache.go)

    [items] is a [sync.Map]; the keys in use are strings and a value is any
    Go value.  An [expiration] is a [UnixNano] instant, 0 for an item that
    never expires.  The calls on one cache do not overlap: each one is a
    step on the map, and a call that reads [time.Now()] takes the instant
    it reads as an argument. *)
Module cache.

Section Cache.
Context {V : Type}.

Record Item : Type := mkItem {
  value : V;
  expiration : Z
}.

Record Cache : Type := mkCache {
  items : gmap string Item;
  defaultExpiration : Duration;
  cleanupInterval : Duration
}.

(** [New]; the ticks of the goroutine it starts are [cleanupExpired]. *)
Definition New (defaultExpiration cleanupInterval : Duration) : Cache :=
  mkCache ∅ defaultExpiration cleanupInterval.

Definition set_items (f : gmap string Item → gmap string Item) (c : Cache) : Cache :=
  mkCache (f (items c)) (defaultExpiration c) (cleanupInterval c).

Definition SetWithExpiration (now : Time) (key : string) (value : V) (expiration : Duration)
    (c : Cache) : Cache :=
  let expiry := if decide (0 < expiration) then now + expiration else 0 in
  set_items (<[key := mkItem value expiry]>) c.

(** [Set] (the name is a keyword here). *)
Definition Set_ (now : Time) (key : string) (value : V) (c : Cache) : Cache :=
  SetWithExpiration now key value (defaultExpiration c) c.

(** [item.expiration > 0 && time.Now().UnixNano() > item.expiration] *)
Definition expired (now : Time) (item : Item) : Prop :=
  0 < expiration item ∧ expiration item < now.

#[global] Instance expired_dec now item : Decision (expired now item).
Proof. unfold expired; apply _. Defined.

(** [Get]: the value ([None] is Go's [nil, false]) and the cache it leaves. *)
Definition Get (now : Time) (key : string) (c : Cache) : option V * Cache :=
  match items c !! key with
  | None => (None, c)
  | Some cachedItem =>
      if decide (expired now cachedItem) then (None, set_items (delete key) c)
      else (Some (value cachedItem), c)
  end.

Definition Delete (key : string) (c : Cache) : Cache := set_items (delete key) c.

(** One tick of [cleanupExpired]: [Range] visits every item and reads the
    clock for each of them; [now key] is the instant read for [key]. *)
Definition cleanupExpired (now : string → Time) (c : Cache) : Cache :=
  set_items (filter (λ kv, ¬ expired (now kv.1) kv.2)) c.

End Cache.

Arguments Item : clear implicits.
Arguments Cache : clear implicits.

End cache.

(** ** The schema migrations (internal/database/migrations.go)

    What [Migrate] reads and writes of a database: the names of its tables
    and indices and the rows of [schema_migrations]. *)
Module migrations.

Inductive error : Type :=
| ErrUnknownVersion (v : Z)      (* fmt.Errorf("unknown migration version: %d", v) *)
| ErrCreateIndex (index : string) (* "failed to create index": the table is missing *)
| ErrSchemaVersion (v : Z).      (* "failed to update schema version": PRIMARY KEY *)

Record Database : Type := mkDatabase {
  tables : gset string;
  indices : gset string;
  (** the column [version] of the rows of [schema_migrations] *)
  schema_migrations : list Z
}.

Definition Tx (A : Type) : Type := Database → error + (A * Database).

#[global] Instance Tx_ret : MRet Tx := λ A a db, inr (a, db).
#[global] Instance Tx_bind : MBind Tx := λ A B f m db,
  match m db with
  | inl e => inl e
  | inr (a, db') => f a db'
  end.

(** CREATE TABLE IF NOT EXISTS name (...) *)
Definition create_table (name : string) (db : Database) : Database :=
  mkDatabase ({[name]} ∪ tables db) (indices db) (schema_migrations db).

(** CREATE INDEX IF NOT EXISTS index ON table (...) *)
Definition create_index (index table : string) : Tx unit := λ db,
  if decide (table ∈ tables db)
  then inr (tt, mkDatabase (tables db) ({[index]} ∪ indices db) (schema_migrations db))
  else inl (ErrCreateIndex index).

(** INSERT INTO schema_migrations (version) VALUES (?) *)
Definition insert_version (v : Z) : Tx unit := λ db,
  if decide (v ∈ schema_migrations db) then inl (ErrSchemaVersion v)
  else inr (tt, mkDatabase (tables db) (indices db) (schema_migrations db ++ [v])).

(** The schema version. *)
Definition currentVersion : Z := 1.

Definition migrateV1 : Tx unit :=
  _ ← (λ db, inr (tt, create_table "problems" db)) : Tx unit;
  _ ← (λ db, inr (tt, create_table "tags" db)) : Tx unit;
  _ ← (λ db, inr (tt, create_table "problem_tags" db)) : Tx unit;
  _ ← (λ db, inr (tt, create_table "user_stats" db)) : Tx unit;
  foldr (λ '(index, table) rest, _ ← create_index index table; rest) (mret tt)
        [("idx_problems_user_id", "problems");
         ("idx_problems_status", "problems");
         ("idx_problems_solved_at", "problems");
         ("idx_problems_difficulty", "problems");
         ("idx_problems_category", "problems");
         ("idx_problems_status_solved_at", "problems");
         ("idx_problem_tags_problem_id", "problem_tags");
         ("idx_problem_tags_tag_id", "problem_tags")].

(** The body of [for v := first; v <= last; v++] in [runMigrations], run
    while the condition holds; [steps] bounds the number of rounds. *)
Fixpoint apply_versions (steps : nat) (v last : Z) : Tx unit :=
  match steps with
  | O => mret tt
  | S steps' =>
      if decide (v ≤ last) then
        _ ← (if decide (v = 1) then migrateV1 else λ _, inl (ErrUnknownVersion v)) : Tx unit;
        _ ← insert_version v;
        apply_versions steps' (v + 1) last
      else mret tt
  end.

(** The loop makes at most [last + 1 - first] rounds. *)
Definition for_versions (first last : Z) : Tx unit :=
  apply_versions (Z.to_nat (last + 1 - first)) first last.

(** [runMigrations]: its parameter has the name of the constant
    [currentVersion] and hides it in the body; the deferred [Rollback]
    undoes a failed run. *)
Definition runMigrations (currentVersion : Z) (db : Database) : option error * Database :=
  match for_versions (currentVersion + 1) currentVersion db with
  | inl err => (Some err, db)
  | inr (_, db') => (None, db')
  end.

(** SELECT COALESCE(MAX(version), 0) FROM schema_migrations *)
Definition max_version (db : Database) : Z :=
  match schema_migrations db with
  | [] => 0
  | v :: rest => foldr Z.max v rest
  end.

Definition Migrate (db : Database) : option error * Database :=
  let db := create_table "schema_migrations" db in
  let version := max_version db in
  if decide (version < currentVersion) then runMigrations version db
  else (None, db).

End migrations.

(** ** The table of [handleListCommand] (the handlers of the GORM
    generation)

    [truncateString]; [len] counts bytes and [s[:n]] is the first [n]
    bytes.  [None] is the run-time panic of a slice expression with a
    negative bound. *)
Definition truncateString (s : string) (maxLen : Z) : option string :=
  if decide (Z.of_nat (String.length s) ≤ maxLen) then Some s
  else if decide (0 ≤ maxLen - 3)
       then Some (substring 0 (Z.to_nat (maxLen - 3)) s +:+ "...")
       else None.

(** ** Vocabulary of the properties *)

(** The entry [e] after [n] more reviews, the last of them at [t] ([None]
    when [n] is 0). *)
Definition reviewed (t : option Time) (n : Z) (e : ProblemEntry) : ProblemEntry :=
  mkProblemEntry (ID e) (UserID e) (ProblemName e) (Link e) (Difficulty e) (Category e)
                 (Status e) (SolvedAt e) (from_option Some (LastReviewedAt e) t)
                 (ReviewCount e + n) (Notes e) (Tags e).

(** 1 when [P] holds, 0 when it does not. *)
Definition indicator (P : Prop) `{!Decision P} : Z := if decide P then 1 else 0.

(** The outcomes of the sends of a journal, in order. *)
Definition deliveries (j : list Scheduler.Event) : list bool :=
  omap (λ ev, match ev with
              | Scheduler.Sent _ _ delivered => Some delivered
              | Scheduler.IncrementReviewCount _ _ => None
              end) j.

(** A row of [problems] and what reviews make of it: the review fields and
    [UpdatedAt] may differ, the review count does not go down. *)
Definition same_but_review (p p' : Problem.t) : Prop :=
  Problem.ID p' = Problem.ID p ∧ Problem.UserID p' = Problem.UserID p
  ∧ Problem.ProblemName p' = Problem.ProblemName p ∧ Problem.Link p' = Problem.Link p
  ∧ Problem.Difficulty p' = Problem.Difficulty p ∧ Problem.Category p' = Problem.Category p
  ∧ Problem.Status p' = Problem.Status p ∧ Problem.SolvedAt p' = Problem.SolvedAt p
  ∧ Problem.Notes p' = Problem.Notes p ∧ Problem.Tags p' = Problem.Tags p
  ∧ Problem.CreatedAt p' = Problem.CreatedAt p ∧ Problem.DeletedAt p' = Problem.DeletedAt p
  ∧ Problem.ReviewCount p ≤ Problem.ReviewCount p'.

(** A repository and a later state of it in which only reviews were
    recorded. *)
Definition writes_review_only (r r' : Repository.Store) : Prop :=
  Forall2 same_but_review (Repository.problems r) (Repository.problems r')
  ∧ Repository.problems_seq r' = Repository.problems_seq r
  ∧ Repository.tags r' = Repository.tags r
  ∧ Repository.tags_seq r' = Repository.tags_seq r
  ∧ Repository.problem_tags r' = Repository.problem_tags r.

(** What every step of a cycle keeps. *)
Definition cycle_step (w w' : Scheduler.World) : Prop :=
  writes_review_only (Scheduler.repo w) (Scheduler.repo w')
  ∧ Scheduler.clock w ≤ Scheduler.clock w'
  ∧ (Scheduler.calls w ≤ Scheduler.calls w')%nat.

(** [TrimSpace] on the bytes of the string. *)
Definition trimmed (l : list N) : list N := strings.TrimRight (strings.TrimLeft l).

(** * Sample data

    Concrete entries, stores and schedules on which the properties below are
    instantiated. *)
Module Sample.

Definition hour : Duration := 3600 * 10 ^ 9.
Definition day : Duration := 24 * hour.
Definition now : Time := 20000 * day.

(** Solved 30 days ago, "Stuck" on a "Hard" problem. *)
Definition entry (tags : list string) : ProblemEntry :=
  mkProblemEntry 0 "u1" "Two Sum" "https://leetcode.com/problems/two-sum" DifficultyHard
                 "arrays" StatusStuck (now - 30 * day) None 0 "" tags.

(** The same entry without an owner. *)
Definition anonymous : ProblemEntry :=
  mkProblemEntry 42 "" "Two Sum" "" DifficultyHard "arrays" StatusStuck (now - 30 * day)
                 None 0 "" [].

(** Never reviewed. *)
Definition row1 : DB.problems_row :=
  DB.mk_problems_row 1 "u1" "Two Sum" "" DifficultyHard "arrays" StatusStuck
                     (now - 30 * day) None 0 "".
(** Reviewed one hour ago. *)
Definition row2 : DB.problems_row :=
  DB.mk_problems_row 2 "u1" "LRU Cache" "" DifficultyMedium "design" StatusSolved
                     (now - 30 * day) (Some (now - hour)) 1 "".

Definition db : DB.Store :=
  DB.mkStore [row1; row2] 2 [DB.mk_tags_row 1 "dp"] 1 [DB.mk_problem_tags_row 1 1]
             {["u1" := DB.mkUserStats 1 0 1 0 1 1 (Some (now - 30 * day))]}.

Definition problem1 : Problem.t :=
  Problem.mk 1 "u1" "Two Sum" "" DifficultyHard "arrays" StatusStuck (now - 30 * day)
             None 0 "" [] (now - 30 * day) (now - 30 * day) None.
Definition problem2 : Problem.t :=
  Problem.mk 2 "u1" "LRU Cache" "" DifficultyMedium "design" StatusSolved (now - 30 * day)
             (Some (now - hour)) 1 "" [] (now - 30 * day) (now - hour) None.

Definition repo : Repository.Store :=
  Repository.mkStore [problem1; problem2] 2 [Tag.mk 1 "dp" 0 0 None] 1 [(1, 1)].

(** The scheduler's configuration (config/config.yaml). *)
Definition config : Scheduler.SchedulerConfig :=
  Scheduler.mkSchedulerConfig "08:00" "review-log" 3 (2 * 10 ^ 9) day.

Definition mention (userID : string) : string := "<@" +:+ userID +:+ ">".

(** Discord refuses every message. *)
Definition offline : Scheduler.Env :=
  Scheduler.mkEnv (λ _, false) (λ _ userID, Some (mention userID)) (λ _ _ _, false)
                  (λ _, "2024-01-01").

(** Discord refuses the first message of the cycle and accepts the first
    retry: the calls of the cycle are 0 [ListAllUsers], 1
    [ListProblemsForReview], 2 [User], 3 the first send, 4 the first retry. *)
Definition flaky : Scheduler.Env :=
  Scheduler.mkEnv (λ _, false) (λ _ userID, Some (mention userID))
                  (λ k _ _, bool_decide (4 ≤ k)%nat) (λ _, "2024-01-01").

(** Discord accepts every message. *)
Definition online : Scheduler.Env :=
  Scheduler.mkEnv (λ _, false) (λ _ userID, Some (mention userID)) (λ _ _ _, true)
                  (λ _, "2024-01-01").

(** The world when the cycle starts, and when the loop over the users
    starts (after [ListAllUsers]). *)
Definition world : Scheduler.World := Scheduler.mkWorld repo now 0 [].
Definition listed : Scheduler.World := Scheduler.mkWorld repo now 1 [].

(** A second owner, with one item that was never reviewed. *)
Definition problem3 : Problem.t :=
  Problem.mk 3 "u2" "Word Ladder" "" DifficultyHard "graphs" StatusNeededHint
             (now - 10 * day) None 0 "" [] (now - 10 * day) (now - 10 * day) None.

Definition repo2 : Repository.Store :=
  Repository.mkStore [problem1; problem2; problem3] 3 [Tag.mk 1 "dp" 0 0 None] 1 [(1, 1)].

(** Discord refuses the first messages of the cycle, the original attempt
    and the three retries for "u1" (calls 3 to 6), and accepts what comes
    after them: call 7 is [ListProblemsForReview] for "u2", 8 is [User],
    9 the message for "u2" and 10 [IncrementReviewCount]. *)
Definition refusing_u1 : Scheduler.Env :=
  Scheduler.mkEnv (λ _, false) (λ _ userID, Some (mention userID))
                  (λ k _ _, bool_decide (7 ≤ k)%nat) (λ _, "2024-01-01").

Definition world2 : Scheduler.World := Scheduler.mkWorld repo2 now 0 [].

(** A cache holding one entry, stored at instant 100 for 50 ns. *)
Definition cached : cache.Cache string :=
  cache.SetWithExpiration 100 "k" "v" 50 (cache.New 300 60).

(** A database engine that takes OFFSET without LIMIT. *)
Definition skipping (offset : Z) (rows : list DB.problems_row)
  : error + list DB.problems_row := inr (drop (Z.to_nat offset) rows).

(** The world of a cycle that runs on the day the items were solved. *)
Definition early : Scheduler.World := Scheduler.mkWorld repo (now - 30 * day) 0 [].

End Sample.

(** Closed decidable facts are settled by evaluation. *)
Ltac by_compute := refine (bool_decide_unpack _ _); vm_compute; exact I.

(** * Properties *)

(** ** ORDER BY sorts, keeps the rows, and keeps equal keys in scan order *)
Section OrderByFacts.
Context {A : Type} (key : A → Z).

Lemma insertBy_Permutation x l : Sql.insertBy key x l ≡ₚ x :: l.
Proof.
  induction l as [|y l IH]; simpl; [done|].
  case_decide; [done|]. rewrite IH. apply Permutation_swap.
Qed.

Lemma orderBy_Permutation l : Sql.orderBy key l ≡ₚ l.
Proof.
  induction l as [|x l IH]; simpl; [done|].
  rewrite insertBy_Permutation. by f_equiv.
Qed.

Lemma elem_of_orderBy x l : x ∈ Sql.orderBy key l ↔ x ∈ l.
Proof. by rewrite orderBy_Permutation. Qed.

Lemma insertBy_StronglySorted x l :
  StronglySorted (λ a b, key a ≤ key b) l →
  StronglySorted (λ a b, key a ≤ key b) (Sql.insertBy key x l).
Proof.
  induction 1 as [|y l Hl IH Hy]; simpl.
  - repeat constructor.
  - case_decide as Hxy.
    + constructor; [by constructor|].
      constructor; [done|]. eapply Forall_impl; [exact Hy|]. simpl; intros; lia.
    + constructor; [done|].
      rewrite insertBy_Permutation. constructor; [lia|done].
Qed.

Lemma orderBy_StronglySorted l :
  StronglySorted (λ a b, key a ≤ key b) (Sql.orderBy key l).
Proof.
  induction l as [|x l IH]; simpl; [constructor|]. by apply insertBy_StronglySorted.
Qed.

Lemma insertBy_stable k x l :
  filter (λ y, key y = k) (Sql.insertBy key x l) = filter (λ y, key y = k) (x :: l).
Proof.
  induction l as [|y l IH]; simpl; [done|].
  case_decide as Hxy; [done|].
  rewrite filter_cons, IH, !filter_cons.
  repeat case_decide; try done; lia.
Qed.

Lemma orderBy_stable k l :
  filter (λ y, key y = k) (Sql.orderBy key l) = filter (λ y, key y = k) l.
Proof.
  induction l as [|x l IH]; simpl; [done|].
  by rewrite insertBy_stable, !filter_cons, IH.
Qed.

End OrderByFacts.

(** ** The review-due selector *)

Lemma null_or_le_spec t cutoff :
  DB.null_or_le t cutoff ↔ t = None ∨ ∃ t', t = Some t' ∧ t' ≤ cutoff.
Proof.
  destruct t as [t'|]; simpl; [|naive_solver].
  split; [eauto|]. intros [?|(? & ? & ?)]; simplify_eq; done.
Qed.

Lemma null_or_le_mono t cutoff cutoff' :
  cutoff ≤ cutoff' → DB.null_or_le t cutoff → DB.null_or_le t cutoff'.
Proof. destruct t; simpl; [lia|done]. Qed.

Lemma FromProblem_preload_SolvedAt s p :
  SolvedAt (FromProblem (Repository.preload_tags s p)) = Problem.SolvedAt p.
Proof. done. Qed.

(** C3, on both stores.  For every owner, lookback window [L] and stored
    item of that owner, the item appears in the result of
    [ListProblemsForReview] if and only if [solvedAt <= now - L] and
    [lastReviewedAt] is unset or [<= now - L].  In the GORM repository the
    stored items are the rows that are not soft-deleted. *)
Theorem due_iff (now : Time) (L : Duration) (owner : string) :
  (∀ (s : DB.Store) (i : DB.problems_row),
     i ∈ DB.problems s → DB.user_id i = owner →
     (DB.scan s i ∈ DB.ListProblemsForReview now owner L s
      ↔ DB.solved_at i ≤ now - L
        ∧ (DB.last_reviewed_at i = None
           ∨ ∃ t, DB.last_reviewed_at i = Some t ∧ t ≤ now - L)))
  ∧
  (∀ (s : Repository.Store) (i : Problem.t),
     i ∈ Repository.problems s → Repository.live i → Problem.UserID i = owner →
     (FromProblem (Repository.preload_tags s i)
        ∈ Repository.ListProblemsForReview now owner L s
      ↔ Problem.SolvedAt i ≤ now - L
        ∧ (Problem.LastReviewedAt i = None
           ∨ ∃ t, Problem.LastReviewedAt i = Some t ∧ t ≤ now - L))).
Proof.
  split.
  - intros s i Hi Hu. unfold DB.ListProblemsForReview.
    replace (now + - L) with (now - L) by lia.
    rewrite list_elem_of_fmap, <-null_or_le_spec. split.
    + intros (r & Heq & Hr).
      rewrite elem_of_orderBy, list_elem_of_filter in Hr.
      destruct Hr as [(_ & Hs & Hl) _].
      assert (DB.solved_at i = DB.solved_at r) as -> by exact (f_equal SolvedAt Heq).
      assert (DB.last_reviewed_at i = DB.last_reviewed_at r) as ->
        by exact (f_equal LastReviewedAt Heq).
      done.
    + intros [Hs Hl]. exists i. split; [done|].
      rewrite elem_of_orderBy, list_elem_of_filter. by repeat split.
  - intros s i Hi Hlive Hu. unfold Repository.ListProblemsForReview.
    replace (now + - L) with (now - L) by lia.
    rewrite <-list_fmap_compose, list_elem_of_fmap, <-null_or_le_spec. split.
    + intros (r & Heq & Hr).
      rewrite elem_of_orderBy, list_elem_of_filter in Hr.
      destruct Hr as [(_ & _ & Hs & Hl) _].
      assert (Problem.SolvedAt i = Problem.SolvedAt r) as -> by exact (f_equal SolvedAt Heq).
      assert (Problem.LastReviewedAt i = Problem.LastReviewedAt r) as ->
        by exact (f_equal LastReviewedAt Heq).
      done.
    + intros [Hs Hl]. exists i. split; [done|].
      rewrite elem_of_orderBy, list_elem_of_filter. by repeat split.
Qed.

Lemma filter_key_fmap {A B : Type} (f : A → B) (keyA : A → Z) (keyB : B → Z) (t : Z) (l : list A) :
  (∀ a, keyB (f a) = keyA a) →
  filter (λ b, keyB b = t) (f <$> l) = f <$> filter (λ a, keyA a = t) l.
Proof.
  intros Hkey. induction l as [|a l IH]; [done|].
  rewrite fmap_cons, !filter_cons, IH, Hkey.
  by case_decide.
Qed.

(** C6, on both stores.  The result of [ListProblemsForReview] is sorted in
    ascending order of [solvedAt]; the items that share a [solvedAt] come
    in the order of their rows in the table (insertion order), so the
    tie-break is fixed by the store alone. *)
Theorem due_sorted (now : Time) (L : Duration) (owner : string) :
  (∀ s : DB.Store,
     StronglySorted (λ a b, SolvedAt a ≤ SolvedAt b) (DB.ListProblemsForReview now owner L s)
     ∧ ∀ t, filter (λ e, SolvedAt e = t) (DB.ListProblemsForReview now owner L s)
            = DB.scan s <$> filter (λ r, DB.solved_at r = t)
                              (filter (DB.for_review owner (now - L)) (DB.problems s)))
  ∧
  (∀ s : Repository.Store,
     StronglySorted (λ a b, SolvedAt a ≤ SolvedAt b)
                    (Repository.ListProblemsForReview now owner L s)
     ∧ ∀ t, filter (λ e, SolvedAt e = t) (Repository.ListProblemsForReview now owner L s)
            = (FromProblem ∘ Repository.preload_tags s)
                <$> filter (λ p, Problem.SolvedAt p = t)
                      (filter (Repository.for_review owner (now - L)) (Repository.problems s))).
Proof.
  split; intros s.
  - unfold DB.ListProblemsForReview. replace (now + - L) with (now - L) by lia. split.
    + apply (StronglySorted_fmap _ (λ a b, DB.solved_at a ≤ DB.solved_at b)); [by intros ??|].
      apply orderBy_StronglySorted.
    + intros t.
      rewrite (filter_key_fmap (DB.scan s) DB.solved_at SolvedAt) by done.
      by rewrite orderBy_stable.
  - unfold Repository.ListProblemsForReview. replace (now + - L) with (now - L) by lia.
    rewrite <-list_fmap_compose. split.
    + apply (StronglySorted_fmap _ (λ a b, Problem.SolvedAt a ≤ Problem.SolvedAt b));
        [by intros ??|].
      apply orderBy_StronglySorted.
    + intros t.
      rewrite (filter_key_fmap (FromProblem ∘ Repository.preload_tags s)
                 Problem.SolvedAt SolvedAt) by done.
      by rewrite orderBy_stable.
Qed.


Lemma due_iff_witness :
  (DB.scan Sample.db Sample.row1
     ∈ DB.ListProblemsForReview Sample.now "u1" Sample.day Sample.db)
  ∧ (DB.scan Sample.db Sample.row2
     ∉ DB.ListProblemsForReview Sample.now "u1" Sample.day Sample.db)
  ∧ (FromProblem (Repository.preload_tags Sample.repo Sample.problem1)
     ∈ Repository.ListProblemsForReview Sample.now "u1" Sample.day Sample.repo)
  ∧ (FromProblem (Repository.preload_tags Sample.repo Sample.problem2)
     ∉ Repository.ListProblemsForReview Sample.now "u1" Sample.day Sample.repo).
Proof.
  destruct (due_iff Sample.now Sample.day "u1") as [Hdb Hrepo].
  split; [|split; [|split]].
  - apply Hdb; [by_compute|done|]. split; [by_compute|by left].
  - intros Hin. apply Hdb in Hin; [|by_compute|done].
    destruct Hin as [_ [Hnone|(t & Ht & Hle)]]; [done|].
    injection Ht as <-. vm_compute in Hle. by destruct Hle.
  - apply Hrepo; [by_compute|done|done|]. split; [by_compute|by left].
  - intros Hin. apply Hrepo in Hin; [|by_compute|done|done].
    destruct Hin as [_ [Hnone|(t & Ht & Hle)]]; [done|].
    injection Ht as <-. vm_compute in Hle. by destruct Hle.
Defined.

(** Two items solved at the same instant come in the order of their rows. *)
Example due_ties :
  ID <$> DB.ListProblemsForReview (Sample.now + 2 * Sample.day) "u1" Sample.day Sample.db
  = [1; 2]
  ∧ ID <$> Repository.ListProblemsForReview (Sample.now + 2 * Sample.day) "u1" Sample.day
             Sample.repo
    = [1; 2].
Proof. by vm_compute. Qed.

(** ** Validation comes before any write *)

Lemma ValidateProblemEntry_Some p e :
  ValidateProblemEntry p = Some e → ValidationError e.
Proof.
  unfold ValidateProblemEntry. repeat case_decide; intros; simplify_eq; done.
Qed.

Lemma ValidateProblemEntry_None p :
  ValidateProblemEntry p = None ↔
  UserID p ≠ "" ∧ ProblemName p ≠ "" ∧ Category p ≠ ""
  ∧ (Difficulty p = DifficultyEasy ∨ Difficulty p = DifficultyMedium
     ∨ Difficulty p = DifficultyHard)
  ∧ (Status p = StatusSolved ∨ Status p = StatusNeededHint ∨ Status p = StatusStuck).
Proof.
  unfold ValidateProblemEntry. split.
  - repeat case_decide; intros; simplify_eq.
    repeat split; try done.
    + destruct (decide (Difficulty p = DifficultyEasy)); [by left|].
      destruct (decide (Difficulty p = DifficultyMedium)); [by right; left|].
      destruct (decide (Difficulty p = DifficultyHard)); [by right; right|]. tauto.
    + destruct (decide (Status p = StatusSolved)); [by left|].
      destruct (decide (Status p = StatusNeededHint)); [by right; left|].
      destruct (decide (Status p = StatusStuck)); [by right; right|]. tauto.
  - intros (? & ? & ? & ? & ?). repeat case_decide; try done; tauto.
Qed.

(** C8, on both stores.  An item whose owner, name or category is empty,
    or whose difficulty or status is outside the enumerated values, is
    rejected by [createItem] with a [ValidationError], and the store (and
    the entry) are exactly as before: the error is returned before the
    transaction is opened, whatever [tx.Create] would have done. *)
Theorem create_rejects_invalid (p : ProblemEntry) :
  UserID p = "" ∨ ProblemName p = "" ∨ Category p = ""
  ∨ Difficulty p ∉ [DifficultyEasy; DifficultyMedium; DifficultyHard]
  ∨ Status p ∉ [StatusSolved; StatusNeededHint; StatusStuck] →
  ∃ e, ValidationError e
       ∧ (∀ now (s : DB.Store), DB.InsertProblem now p s = (Some e, p, s))
       ∧ (∀ gorm_Create (s : Repository.Store),
            Repository.CreateProblem gorm_Create p s = (Some e, p, s)).
Proof.
  intros Hbad.
  destruct (ValidateProblemEntry p) as [e|] eqn:Hv.
  - exists e. split; [by eapply ValidateProblemEntry_Some|].
    unfold DB.InsertProblem, Repository.CreateProblem. rewrite Hv. done.
  - exfalso. apply ValidateProblemEntry_None in Hv as (? & ? & ? & Hd & Hs).
    destruct Hbad as [?|[?|[?|[Hbad|Hbad]]]]; try done; apply Hbad.
    + destruct Hd as [-> | [-> | ->]]; repeat constructor.
    + destruct Hs as [-> | [-> | ->]]; repeat constructor.
Qed.

Lemma create_rejects_invalid_witness :
  ∃ e, ValidationError e
       ∧ (∀ now (s : DB.Store),
            DB.InsertProblem now Sample.anonymous s = (Some e, Sample.anonymous, s))
       ∧ (∀ gorm_Create (s : Repository.Store),
            Repository.CreateProblem gorm_Create Sample.anonymous s
            = (Some e, Sample.anonymous, s)).
Proof. apply (create_rejects_invalid Sample.anonymous). by left. Defined.

(** ** [IncrementReviewCount] and a missing id *)

Lemma map_id_on {A : Type} (f : A → A) (l : list A) :
  (∀ x, x ∈ l → f x = x) → map f l = l.
Proof.
  induction l as [|x l IH]; intros Hf; simpl; [done|].
  rewrite Hf, IH; [done| |left]. intros y Hy. apply Hf. by right.
Qed.

Lemma filter_id_on {A : Type} (P : A → Prop) `{!∀ x, Decision (P x)} (l : list A) :
  (∀ x, x ∈ l → P x) → filter P l = l.
Proof.
  induction l as [|x l IH]; intros HP; [done|].
  rewrite filter_cons_True by (apply HP; left).
  rewrite IH; [done|]. intros y Hy. apply HP. by right.
Qed.

Lemma head_filter_None {A : Type} (P : A → Prop) `{!∀ x, Decision (P x)} (l : list A) :
  (∀ x, x ∈ l → ¬ P x) → head (filter P l) = None.
Proof.
  intros Hno. destruct (filter P l) as [|x l'] eqn:Hf; [done|].
  assert (x ∈ filter P l) as Hx by (rewrite Hf; left).
  apply list_elem_of_filter in Hx as [HP Hx]. by destruct (Hno x Hx).
Qed.

(** C10, on both stores.  [IncrementReviewCount] with an id that no stored
    item has returns no error and leaves the store as it is, while
    [GetProblem] with the same id fails with a [NotFoundError]. *)
Theorem increment_missing_id (now : Time) (id : Z) :
  (∀ s : DB.Store,
     id ∉ DB.problems_id <$> DB.problems s →
     DB.IncrementReviewCount now id s = (None, s)
     ∧ DB.GetProblem id s = inl (ErrProblemNotFound id))
  ∧
  (∀ s : Repository.Store,
     (∀ p, p ∈ Repository.problems s → Repository.live p → Problem.ID p ≠ id) →
     Repository.IncrementReviewCount now id s = (None, s)
     ∧ Repository.GetProblem id s = inl (ErrProblemNotFound id)).
Proof.
  split.
  - intros s Hid. split.
    + unfold DB.IncrementReviewCount, DB.set_problems. rewrite map_id_on; [by destruct s|].
      intros r Hr. case_decide as Heq; [|done].
      destruct Hid. rewrite <-Heq. by apply list_elem_of_fmap_2.
    + unfold DB.GetProblem. rewrite head_filter_None; [done|].
      intros r Hr Heq. destruct Hid. rewrite <-Heq. by apply list_elem_of_fmap_2.
  - intros s Hid. split.
    + unfold Repository.IncrementReviewCount, Repository.set_problems.
      rewrite map_id_on; [by destruct s|].
      intros p Hp. case_decide as Heq; [|done]. destruct Heq as [Heq Hlive].
      by destruct (Hid p Hp Hlive).
    + unfold Repository.GetProblem. rewrite head_filter_None; [done|].
      intros p Hp [Heq Hlive]. by destruct (Hid p Hp Hlive).
Qed.

Lemma increment_missing_id_witness :
  DB.IncrementReviewCount Sample.now 7 Sample.db = (None, Sample.db)
  ∧ Repository.IncrementReviewCount Sample.now 7 Sample.repo = (None, Sample.repo).
Proof.
  destruct (increment_missing_id Sample.now 7) as [Hdb Hrepo]. split.
  - apply Hdb. by_compute.
  - apply Hrepo. intros p Hp _.
    apply list_elem_of_In in Hp. simpl in Hp.
    destruct Hp as [<-|[<-|[]]]; done.
Defined.

(** ** Deleting an item *)



(** ** The stats aggregator inside [InsertProblem] *)

Lemma upsert_tag_frame tag s tagID s' :
  DB.upsert_tag tag s = inr (tagID, s') →
  DB.problems s' = DB.problems s ∧ DB.problems_seq s' = DB.problems_seq s
  ∧ DB.user_stats s' = DB.user_stats s.
Proof.
  unfold DB.upsert_tag. destruct (DB.select_tag tag s); intros; simplify_eq; simpl; auto.
Qed.

Lemma insert_problem_tag_frame problemID tagID s u s' :
  DB.insert_problem_tag problemID tagID s = inr (u, s') →
  DB.problems s' = DB.problems s ∧ DB.problems_seq s' = DB.problems_seq s
  ∧ DB.user_stats s' = DB.user_stats s.
Proof.
  unfold DB.insert_problem_tag. repeat case_decide; intros; simplify_eq; simpl; auto.
Qed.

Lemma link_tags_frame problemID tags s u s' :
  DB.link_tags problemID tags s = inr (u, s') →
  DB.problems s' = DB.problems s ∧ DB.problems_seq s' = DB.problems_seq s
  ∧ DB.user_stats s' = DB.user_stats s.
Proof.
  revert s. induction tags as [|tag tags IH]; intros s; simpl.
  - unfold mret, DB.Tx_ret. intros; simplify_eq; auto.
  - case_decide; [apply IH|].
    unfold mbind, DB.Tx_bind, DB.wrap.
    destruct (DB.upsert_tag _ s) as [|[tagID s1]] eqn:Hup; [done|].
    destruct (DB.insert_problem_tag _ _ s1) as [|[[] s2]] eqn:Hlink; [done|].
    intros Hrest. apply IH in Hrest as (-> & -> & ->).
    apply insert_problem_tag_frame in Hlink as (-> & -> & ->).
    by apply upsert_tag_frame in Hup as (-> & -> & ->).
Qed.

(** What [updateUserStats] leaves in the owner's row. *)
Lemma updateUserStats_lookup now p s :
  ∃ s', DB.updateUserStats now p s = inr (tt, s')
    ∧ DB.problems s' = DB.problems s
    ∧ DB.user_stats s' !! UserID p
      = Some (DB.set_last_active now
                (DB.bump_difficulty (Difficulty p)
                   (DB.bump_status (Status p)
                      (default (DB.new_user_stats now) (DB.user_stats s !! UserID p)))))
    ∧ ∀ other, other ≠ UserID p → DB.user_stats s' !! other = DB.user_stats s !! other.
Proof.
  eexists. split; [reflexivity|]. simpl. split; [done|]. split.
  - rewrite lookup_alter_eq. case_bool_decide as Hex.
    + destruct Hex as [u ->]. done.
    + rewrite lookup_insert_eq.
      destruct (DB.user_stats s !! UserID p) eqn:Hl; [|done].
      destruct Hex. by eexists.
  - intros other Hne. rewrite lookup_alter_ne by done.
    case_bool_decide; [done|]. by rewrite lookup_insert_ne.
Qed.

(** A valid item: either everything is written (row, links, stats), or
    the transaction is rolled back. *)
Lemma InsertProblem_cases now p s :
  ValidateProblemEntry p = None →
  (∃ e, DB.InsertProblem now p s = (Some e, p, s))
  ∨ (∃ s1 s2 s',
       DB.insert_problem p s = inr (DB.problems_seq s + 1, s1)
       ∧ DB.link_tags (DB.problems_seq s + 1) (Tags p) s1 = inr (tt, s2)
       ∧ DB.updateUserStats now p s2 = inr (tt, s')
       ∧ DB.InsertProblem now p s = (None, DB.with_ID (DB.problems_seq s + 1) p, s')).
Proof.
  intros Hv. unfold DB.InsertProblem, DB.transaction. rewrite Hv.
  unfold mbind, mret, DB.Tx_bind, DB.Tx_ret, DB.wrap.
  destruct (DB.insert_problem p s) as [|[problemID s1]] eqn:Hins; [done|].
  unfold DB.insert_problem in Hins. simplify_eq.
  match goal with |- context [DB.link_tags _ _ ?s1] => set (st := s1) end.
  destruct (DB.link_tags _ _ st) as [e|[[] s2]] eqn:Hlink; [left; by eexists|].
  destruct (updateUserStats_lookup now p s2) as (s' & Hup & _).
  rewrite Hup. right. by exists st, s2, s'.
Qed.

Lemma InsertProblem_success now p s p' s' :
  ValidateProblemEntry p = None →
  DB.InsertProblem now p s = (None, p', s') →
  p' = DB.with_ID (DB.problems_seq s + 1) p
  ∧ DB.problems s'
    = DB.problems s
      ++ [DB.mk_problems_row (DB.problems_seq s + 1) (UserID p) (ProblemName p) (Link p)
            (Difficulty p) (Category p) (Status p) (SolvedAt p) None 0 (Notes p)]
  ∧ DB.GetUserStats (UserID p) s'
    = Some (DB.set_last_active now
              (DB.bump_difficulty (Difficulty p)
                 (DB.bump_status (Status p)
                    (default (DB.new_user_stats now) (DB.GetUserStats (UserID p) s)))))
  ∧ ∀ other, other ≠ UserID p → DB.GetUserStats other s' = DB.GetUserStats other s.
Proof.
  intros Hv Hok.
  destruct (InsertProblem_cases now p s Hv) as [[e He]|(s1 & s2 & s'' & Hins & Hlink & Hup & Hres)];
    [congruence|].
  rewrite Hres in Hok. simplify_eq.
  apply link_tags_frame in Hlink as (Hp2 & _ & Hs2).
  destruct (updateUserStats_lookup now p s2) as (s3 & Hup' & Hp3 & Hown & Hother).
  rewrite Hup in Hup'. simplify_eq.
  unfold DB.insert_problem in Hins. simplify_eq. simpl in *.
  unfold DB.GetUserStats. rewrite Hp3, Hp2, Hown, Hs2. split; [done|]. split; [done|].
  split; [done|]. intros other Hne. by rewrite Hother, Hs2.
Qed.


(** ** The daily cycle: what the retry loop does and does not do *)
Section SchedulerFacts.

Variable env : Scheduler.Env.
Variable config : Scheduler.SchedulerConfig.

Let channel := Scheduler.ReviewChannel config.

(** The retry loop writes nothing to the repository. *)
Lemma retry_repo n content w :
  Scheduler.repo (Scheduler.retry env config n content w) = Scheduler.repo w.
Proof.
  revert w. induction n as [|n IH]; intros w; simpl; [done|].
  destruct (Scheduler.discordSend env _ _ _); [done|]. by rewrite IH.
Qed.

(** The retry loop never calls [IncrementReviewCount]. *)
Lemma retry_increments n content w :
  Scheduler.increments (Scheduler.journal (Scheduler.retry env config n content w))
  = Scheduler.increments (Scheduler.journal w).
Proof.
  revert w. induction n as [|n IH]; intros w; simpl; [done|].
  destruct (Scheduler.discordSend env _ _ _) eqn:Hsend.
  - simpl. unfold Scheduler.increments. rewrite omap_app. simpl. by rewrite app_nil_r.
  - rewrite IH. simpl. unfold Scheduler.increments. rewrite omap_app. simpl.
    by rewrite app_nil_r.
Qed.

(** When every retry fails the loop sends [n] times and gives up. *)
Lemma retry_all_fail n content w :
  (∀ i, (i < n)%nat →
        Scheduler.discordSend env (Scheduler.calls w + i)%nat channel content = false) →
  Scheduler.journal (Scheduler.retry env config n content w)
  = Scheduler.journal w ++ replicate n (Scheduler.Sent channel content false).
Proof.
  revert w. induction n as [|n IH]; intros w Hfail; simpl; [by rewrite app_nil_r|].
  pose proof (Hfail 0%nat ltac:(lia)) as H0. rewrite Nat.add_0_r in H0.
  fold channel. rewrite H0. rewrite IH.
  - simpl. by rewrite <-app_assoc.
  - intros i Hi. simpl. specialize (Hfail (S i) ltac:(lia)).
    by replace (S (Scheduler.calls w + i)) with (Scheduler.calls w + S i)%nat by lia.
Qed.

(** When some retry succeeds the message is delivered. *)
Lemma retry_delivered n content w i :
  (i < n)%nat →
  Scheduler.discordSend env (Scheduler.calls w + i)%nat channel content = true →
  Scheduler.Sent channel content true
    ∈ Scheduler.journal (Scheduler.retry env config n content w).
Proof.
  revert w i. induction n as [|n IH]; intros w i Hi Hok; [lia|]. simpl. fold channel.
  destruct (Scheduler.discordSend env (Scheduler.calls w) channel content) eqn:Hsend.
  - simpl. apply elem_of_app. right. left.
  - destruct i as [|i]; [rewrite Nat.add_0_r in Hok; congruence|].
    apply (IH _ i); [lia|]. simpl.
    by replace (S (Scheduler.calls w + i)) with (Scheduler.calls w + S i)%nat by lia.
Qed.

(** The body of the loop when the first attempt to send fails: all that
    is left to run is the retry loop. *)
Lemma remindUser_first_attempt_fails w userID mention :
  let problems :=
    Repository.ListProblemsForReview (Scheduler.clock w) userID
      (Scheduler.LookbackPeriod config) (Scheduler.repo w) in
  let content := Scheduler.reminder env mention problems in
  Scheduler.repoFails env (Scheduler.calls w) = false →
  problems ≠ [] →
  Scheduler.discordUser env (S (Scheduler.calls w)) userID = Some mention →
  Scheduler.discordSend env (S (S (Scheduler.calls w))) channel content = false →
  Scheduler.remindUser env config w userID
  = Scheduler.retry env config (Z.to_nat (Scheduler.RetryAttempts config)) content
      (Scheduler.mkWorld (Scheduler.repo w) (Scheduler.clock w) (S (S (S (Scheduler.calls w))))
         (Scheduler.journal w ++ [Scheduler.Sent channel content false])).
Proof.
  intros problems content Hlist Hdue Huser Hsend.
  unfold Scheduler.remindUser. rewrite Hlist. fold problems.
  rewrite bool_decide_eq_true_2 by (destruct problems; [done|simpl; lia]).
  rewrite Huser. fold content. unfold Scheduler.ChannelMessageSend. simpl.
  fold channel. by rewrite Hsend.
Qed.

(** Every call of [IncrementReviewCount] is journalled, whether the
    repository fails or not. *)
Lemma incrementReviewCount_increments problemID w :
  Scheduler.increments (Scheduler.journal (Scheduler.incrementReviewCount env problemID w))
  = Scheduler.increments (Scheduler.journal w) ++ [problemID].
Proof.
  unfold Scheduler.incrementReviewCount.
  destruct (Scheduler.repoFails env _); simpl;
    unfold Scheduler.increments; by rewrite omap_app.
Qed.

Lemma foldl_incrementReviewCount_increments (problems : list ProblemEntry) w :
  Scheduler.increments
    (Scheduler.journal (foldl (λ w p, Scheduler.incrementReviewCount env (ID p) w) w problems))
  = Scheduler.increments (Scheduler.journal w) ++ (ID <$> problems).
Proof.
  revert w. induction problems as [|p problems IH]; intros w; simpl.
  - by rewrite app_nil_r.
  - rewrite IH, incrementReviewCount_increments. by rewrite <-app_assoc.
Qed.

(** X22.  The sibling path: when the first attempt to send succeeds,
    [IncrementReviewCount] is called exactly once for every due item, in
    the order of the list, whether or not the repository fails on some of
    the calls. *)
Lemma remindUser_first_attempt_succeeds w userID mention :
  let problems :=
    Repository.ListProblemsForReview (Scheduler.clock w) userID
      (Scheduler.LookbackPeriod config) (Scheduler.repo w) in
  let content := Scheduler.reminder env mention problems in
  Scheduler.repoFails env (Scheduler.calls w) = false →
  problems ≠ [] →
  Scheduler.discordUser env (S (Scheduler.calls w)) userID = Some mention →
  Scheduler.discordSend env (S (S (Scheduler.calls w))) channel content = true →
  Scheduler.increments (Scheduler.journal (Scheduler.remindUser env config w userID))
  = Scheduler.increments (Scheduler.journal w) ++ (ID <$> problems).
Proof.
  intros problems content Hlist Hdue Huser Hsend.
  unfold Scheduler.remindUser. rewrite Hlist. fold problems.
  rewrite bool_decide_eq_true_2 by (destruct problems; [done|simpl; lia]).
  rewrite Huser. fold content. unfold Scheduler.ChannelMessageSend. simpl.
  fold channel. rewrite Hsend. simpl.
  rewrite foldl_incrementReviewCount_increments. simpl.
  unfold Scheduler.increments at 1. rewrite omap_app. simpl. by rewrite app_nil_r.
Qed.

End SchedulerFacts.

Lemma Repository_due_elem_of now userID L s e :
  e ∈ Repository.ListProblemsForReview now userID L s
  ↔ ∃ p, p ∈ Repository.problems s ∧ Repository.for_review userID (now - L) p
         ∧ e = FromProblem (Repository.preload_tags s p).
Proof.
  unfold Repository.ListProblemsForReview. replace (now + - L) with (now - L) by lia.
  rewrite <-list_fmap_compose, list_elem_of_fmap. split.
  - intros (p & -> & Hp). rewrite elem_of_orderBy, list_elem_of_filter in Hp.
    exists p. tauto.
  - intros (p & Hp & Hdue & ->). exists p. split; [done|].
    rewrite elem_of_orderBy, list_elem_of_filter. tauto.
Qed.

(** An item that is due stays due as time passes, as long as nobody
    writes to it. *)
Lemma Repository_due_later now now' userID L s e :
  now ≤ now' →
  e ∈ Repository.ListProblemsForReview now userID L s →
  e ∈ Repository.ListProblemsForReview now' userID L s.
Proof.
  intros Hle. rewrite !Repository_due_elem_of.
  intros (p & Hp & (Hlive & Hu & Hs & Hr) & ->). exists p. split; [done|]. split; [|done].
  repeat split; [done|done|lia|]. eapply null_or_le_mono; [|done]. lia.
Qed.

(** The journal of a cycle only grows. *)
Section JournalGrows.

Variable env : Scheduler.Env.
Variable config : Scheduler.SchedulerConfig.

Lemma retry_journal_prefix n content w :
  Scheduler.journal w `prefix_of` Scheduler.journal (Scheduler.retry env config n content w).
Proof.
  revert w. induction n as [|n IH]; intros w; simpl; [done|].
  destruct (Scheduler.discordSend env _ _ _).
  - simpl. by apply prefix_app_r.
  - etrans; [|apply IH]. simpl. by apply prefix_app_r.
Qed.

Lemma incrementReviewCount_journal_prefix problemID w :
  Scheduler.journal w
    `prefix_of` Scheduler.journal (Scheduler.incrementReviewCount env problemID w).
Proof.
  unfold Scheduler.incrementReviewCount.
  destruct (Scheduler.repoFails env _); simpl; by apply prefix_app_r.
Qed.

Lemma foldl_journal_prefix {A : Type} (f : Scheduler.World → A → Scheduler.World)
    (l : list A) w :
  (∀ w x, Scheduler.journal w `prefix_of` Scheduler.journal (f w x)) →
  Scheduler.journal w `prefix_of` Scheduler.journal (foldl f w l).
Proof.
  intros Hf. revert w. induction l as [|x l IH]; intros w; simpl; [done|].
  etrans; [apply Hf|apply IH].
Qed.

Lemma remindUser_journal_prefix w userID :
  Scheduler.journal w `prefix_of` Scheduler.journal (Scheduler.remindUser env config w userID).
Proof.
  unfold Scheduler.remindUser.
  destruct (Scheduler.repoFails env (Scheduler.calls w)); [done|].
  case_bool_decide; [|done].
  destruct (Scheduler.discordUser env _ userID) as [mention|]; [|done].
  unfold Scheduler.ChannelMessageSend.
  cbn [Scheduler.calls Scheduler.repo Scheduler.clock Scheduler.journal].
  destruct (Scheduler.discordSend env _ _ _); cbn [negb].
  - etrans; [|apply foldl_journal_prefix].
    + simpl. by apply prefix_app_r.
    + intros w0 p. apply incrementReviewCount_journal_prefix.
  - etrans; [|apply retry_journal_prefix]. simpl. by apply prefix_app_r.
Qed.

End JournalGrows.

(** C7.  A cycle [sendDailyReviewReminder] started in [w0] with a review
    channel, whose [ListAllUsers] answers [before ++ userID :: after]; [w]
    is the world when the turn of [userID] starts, after the turns of
    [before].  The owner has a non-empty due list and the message is
    refused on the original attempt and on all [RetryAttempts] retries.
    Then the journal of the owner's turn holds the [1 + RetryAttempts]
    failed sends and nothing else, so [IncrementReviewCount] is called
    for none of the items; the repository is not written, hence the items
    are due again at any later time; and the cycle goes on: it is the
    turns of the owners of [after], in order, run from the world this turn
    leaves, so its journal starts with the journal of this turn and
    holds the whole turn of the next owner. *)
Theorem all_attempts_fail (env : Scheduler.Env) (config : Scheduler.SchedulerConfig)
    (w0 : Scheduler.World) (before after : list string) (userID mention : string) :
  let listed :=
    Scheduler.mkWorld (Scheduler.repo w0) (Scheduler.clock w0) (S (Scheduler.calls w0))
                      (Scheduler.journal w0) in
  let w := foldl (Scheduler.remindUser env config) listed before in
  let problems :=
    Repository.ListProblemsForReview (Scheduler.clock w) userID
      (Scheduler.LookbackPeriod config) (Scheduler.repo w) in
  let content := Scheduler.reminder env mention problems in
  let w' := Scheduler.remindUser env config w userID in
  let cycle := Scheduler.sendDailyReviewReminder env config w0 in
  Scheduler.ReviewChannel config ≠ "" →
  Scheduler.repoFails env (Scheduler.calls w0) = false →
  Repository.ListAllUsers (Scheduler.repo w0) = before ++ userID :: after →
  Scheduler.repoFails env (Scheduler.calls w) = false →
  problems ≠ [] →
  Scheduler.discordUser env (S (Scheduler.calls w)) userID = Some mention →
  (∀ i, (i ≤ Z.to_nat (Scheduler.RetryAttempts config))%nat →
        Scheduler.discordSend env (S (S (Scheduler.calls w)) + i)%nat
          (Scheduler.ReviewChannel config) content = false) →
  Scheduler.journal w'
  = Scheduler.journal w
    ++ replicate (S (Z.to_nat (Scheduler.RetryAttempts config)))
         (Scheduler.Sent (Scheduler.ReviewChannel config) content false)
  ∧ Scheduler.increments (Scheduler.journal w') = Scheduler.increments (Scheduler.journal w)
  ∧ Scheduler.repo w' = Scheduler.repo w
  ∧ (∀ now' p, Scheduler.clock w ≤ now' → p ∈ problems →
       p ∈ Repository.ListProblemsForReview now' userID (Scheduler.LookbackPeriod config)
             (Scheduler.repo w'))
  ∧ cycle = foldl (Scheduler.remindUser env config) w' after
  ∧ Scheduler.journal w' `prefix_of` Scheduler.journal cycle
  ∧ (∀ next rest, after = next :: rest →
       Scheduler.journal (Scheduler.remindUser env config w' next)
         `prefix_of` Scheduler.journal cycle).
Proof.
  intros listed w problems content w' cycle Hchannel Husers Hall Hlist Hdue Huser Hfail.
  assert (w' = Scheduler.retry env config (Z.to_nat (Scheduler.RetryAttempts config)) content
                 (Scheduler.mkWorld (Scheduler.repo w) (Scheduler.clock w)
                    (S (S (S (Scheduler.calls w))))
                    (Scheduler.journal w
                     ++ [Scheduler.Sent (Scheduler.ReviewChannel config) content false])))
    as Hw'.
  { apply remindUser_first_attempt_fails; [done..|].
    specialize (Hfail 0%nat ltac:(lia)). by rewrite Nat.add_0_r in Hfail. }
  assert (Scheduler.repo w' = Scheduler.repo w) as Hrepo by (by rewrite Hw', retry_repo).
  assert (cycle = foldl (Scheduler.remindUser env config) w' after) as Hcycle.
  { subst cycle. unfold Scheduler.sendDailyReviewReminder.
    rewrite decide_False by done. by rewrite Husers, Hall, foldl_app. }
  split; [|split; [|split; [done|split; [|split; [done|split]]]]].
  - rewrite Hw', retry_all_fail; simpl.
    + by rewrite <-app_assoc.
    + intros i Hi. specialize (Hfail (S i) ltac:(lia)).
      by replace (S (S (S (Scheduler.calls w + i))))
        with (S (S (Scheduler.calls w)) + S i)%nat by lia.
  - rewrite Hw', retry_increments. simpl.
    unfold Scheduler.increments. rewrite omap_app. simpl. by rewrite app_nil_r.
  - intros now' p Hle Hp. rewrite Hrepo. by eapply Repository_due_later.
  - rewrite Hcycle. apply foldl_journal_prefix. apply remindUser_journal_prefix.
  - intros next rest ->. rewrite Hcycle. cbn [foldl].
    apply foldl_journal_prefix. apply remindUser_journal_prefix.
Qed.

(** Two owners: every message for "u1" is refused, and the cycle goes on to
    "u2", whose message is delivered and whose item is incremented.  On
    the next day both items of "u1" are due and the item of "u2" is not. *)
Lemma all_attempts_fail_witness :
  Repository.ListAllUsers Sample.repo2 = ["u1"; "u2"]
  ∧ Scheduler.journal
      (Scheduler.sendDailyReviewReminder Sample.refusing_u1 Sample.config Sample.world2)
    = replicate 4
        (Scheduler.Sent "review-log"
           (Scheduler.reminder Sample.refusing_u1 (Sample.mention "u1")
              (Repository.ListProblemsForReview Sample.now "u1" Sample.day Sample.repo2))
           false)
      ++ [Scheduler.Sent "review-log"
            (Scheduler.reminder Sample.refusing_u1 (Sample.mention "u2")
               (Repository.ListProblemsForReview (Sample.now + 3 * (2 * 10 ^ 9)) "u2"
                  Sample.day Sample.repo2))
            true;
          Scheduler.IncrementReviewCount 3 true]
  ∧ ID <$> Repository.ListProblemsForReview (Sample.now + Sample.day) "u1" Sample.day
             (Scheduler.repo
                (Scheduler.sendDailyReviewReminder Sample.refusing_u1 Sample.config
                   Sample.world2))
    = [1; 2]
  ∧ ID <$> Repository.ListProblemsForReview (Sample.now + Sample.day) "u2" Sample.day
             (Scheduler.repo
                (Scheduler.sendDailyReviewReminder Sample.refusing_u1 Sample.config
                   Sample.world2))
    = [].
Proof.
  destruct (all_attempts_fail Sample.refusing_u1 Sample.config Sample.world2 [] ["u2"]
              "u1" (Sample.mention "u1")) as (_ & _ & _ & _ & Hcycle & _);
    [by vm_compute|reflexivity|by vm_compute|reflexivity|by vm_compute|reflexivity| |].
  { intros i Hi. simpl. apply bool_decide_eq_false_2. vm_compute in Hi. lia. }
  rewrite Hcycle. cbn [foldl]. split; [by vm_compute|].
  split; [|split]; by vm_compute.
Defined.

(** C1, as the code has it.  When the original attempt fails and one of
    the retries succeeds, the message is delivered, and yet
    [IncrementReviewCount] is called for none of the owner's due items and
    the repository is not written: the calls stand in the [else] branch of
    the first attempt only. *)
Theorem retry_success_skips_increment (env : Scheduler.Env)
    (config : Scheduler.SchedulerConfig) (w : Scheduler.World) (userID mention : string)
    (i : nat) :
  let problems :=
    Repository.ListProblemsForReview (Scheduler.clock w) userID
      (Scheduler.LookbackPeriod config) (Scheduler.repo w) in
  let content := Scheduler.reminder env mention problems in
  let w' := Scheduler.remindUser env config w userID in
  Scheduler.repoFails env (Scheduler.calls w) = false →
  problems ≠ [] →
  Scheduler.discordUser env (S (Scheduler.calls w)) userID = Some mention →
  Scheduler.discordSend env (S (S (Scheduler.calls w)))
    (Scheduler.ReviewChannel config) content = false →
  (i < Z.to_nat (Scheduler.RetryAttempts config))%nat →
  Scheduler.discordSend env (S (S (S (Scheduler.calls w))) + i)%nat
    (Scheduler.ReviewChannel config) content = true →
  Scheduler.Sent (Scheduler.ReviewChannel config) content true ∈ Scheduler.journal w'
  ∧ Scheduler.increments (Scheduler.journal w') = Scheduler.increments (Scheduler.journal w)
  ∧ Scheduler.repo w' = Scheduler.repo w.
Proof.
  intros problems content w' Hlist Hdue Huser Hfirst Hi Hretry.
  subst w'. rewrite (remindUser_first_attempt_fails env config w userID mention) by done.
  fold problems content.
  split; [|split].
  - by apply (retry_delivered env config _ content _ i).
  - rewrite retry_increments. simpl.
    unfold Scheduler.increments. rewrite omap_app. simpl. by rewrite app_nil_r.
  - by rewrite retry_repo.
Qed.

Lemma retry_success_skips_increment_witness :
  (Scheduler.Sent "review-log"
     (Scheduler.reminder Sample.flaky (Sample.mention "u1")
        (Repository.ListProblemsForReview Sample.now "u1" Sample.day Sample.repo))
     true
   ∈ Scheduler.journal (Scheduler.remindUser Sample.flaky Sample.config Sample.listed "u1"))
  ∧ Scheduler.increments
      (Scheduler.journal (Scheduler.remindUser Sample.flaky Sample.config Sample.listed "u1"))
    = []
  ∧ Scheduler.repo (Scheduler.remindUser Sample.flaky Sample.config Sample.listed "u1")
    = Sample.repo.
Proof.
  apply (retry_success_skips_increment Sample.flaky Sample.config Sample.listed "u1"
           (Sample.mention "u1") 0);
    [reflexivity|by vm_compute|reflexivity|reflexivity|vm_compute; lia|reflexivity].
Defined.

(** The whole cycle on the sample repository.  With a Discord that accepts
    the first message the due item is advanced; with one that accepts the
    first retry only, the message is delivered and nothing is advanced. *)
Example cycle_online :
  Scheduler.increments
    (Scheduler.journal
       (Scheduler.sendDailyReviewReminder Sample.online Sample.config Sample.world)) = [1]
  ∧ Repository.ListProblemsForReview Sample.now "u1" Sample.day
      (Scheduler.repo
         (Scheduler.sendDailyReviewReminder Sample.online Sample.config Sample.world)) = [].
Proof. by vm_compute. Qed.

Example cycle_flaky :
  map (λ ev, match ev with
             | Scheduler.Sent _ _ delivered => delivered
             | Scheduler.IncrementReviewCount _ _ => false
             end)
      (Scheduler.journal
         (Scheduler.sendDailyReviewReminder Sample.flaky Sample.config Sample.world))
  = [false; true]
  ∧ Scheduler.increments
      (Scheduler.journal
         (Scheduler.sendDailyReviewReminder Sample.flaky Sample.config Sample.world)) = []
  ∧ Scheduler.repo
      (Scheduler.sendDailyReviewReminder Sample.flaky Sample.config Sample.world)
    = Sample.repo.
Proof. by vm_compute. Qed.

(** ** Updating an item that is not there *)

(** C4 as stated fails: an item that does not pass validation is rejected
    with a [ValidationError], whether its id exists or not, so the error
    is not a [NotFoundError]. *)
Lemma update_missing_id_counterexample :
  ¬ (∀ (now : Time) (entry : ProblemEntry) (s : Repository.Store),
       (∀ p, p ∈ Repository.problems s → Repository.live p → Problem.ID p ≠ ID entry) →
       ∃ e, NotFoundError e ∧ Repository.UpdateProblem now entry s = (Some e, s)).
Proof.
  intros Hclaim.
  destruct (Hclaim Sample.now Sample.anonymous Repository.empty) as (e & Hnf & Hres).
  - intros p Hp. by apply elem_of_nil in Hp.
  - vm_compute in Hres. by simplify_eq.
Qed.

(** C4, amended.  [UpdateProblem] with an id that no stored item has: an
    item that passes validation fails with [NotFoundError] and an item that
    does not fails with its [ValidationError]; in both cases the store is
    left as it was. *)
Theorem update_missing_id (now : Time) (entry : ProblemEntry) (s : Repository.Store) :
  (∀ p, p ∈ Repository.problems s → Repository.live p → Problem.ID p ≠ ID entry) →
  match ValidateProblemEntry entry with
  | None =>
      Repository.UpdateProblem now entry s = (Some (ErrProblemNotFound (ID entry)), s)
      ∧ NotFoundError (ErrProblemNotFound (ID entry))
  | Some e =>
      Repository.UpdateProblem now entry s = (Some e, s) ∧ ValidationError e
  end.
Proof.
  intros Hmissing. unfold Repository.UpdateProblem.
  destruct (ValidateProblemEntry entry) as [e|] eqn:Hv.
  - split; [done|]. by eapply ValidateProblemEntry_Some.
  - split; [|done].
    unfold Repository.Transaction, mbind, Repository.Tx_bind, Repository.first_problem.
    change (Problem.ID (ToProblem entry)) with (ID entry).
    rewrite head_filter_None; [done|].
    intros p Hp [Hid Hlive]. by destruct (Hmissing p Hp Hlive).
Qed.

Lemma update_missing_id_witness :
  Repository.UpdateProblem Sample.now (DB.with_ID 7 (Sample.entry ["dp"])) Sample.repo
  = (Some (ErrProblemNotFound 7), Sample.repo).
Proof.
  refine (proj1 (update_missing_id Sample.now (DB.with_ID 7 (Sample.entry ["dp"]))
                   Sample.repo _)).
  intros p Hp _. apply list_elem_of_In in Hp. simpl in Hp.
  destruct Hp as [<-|[<-|[]]]; done.
Defined.

(** The hand-written SQL [UpdateProblem] has no such check: its UPDATE
    matches no row, and with no tag to link the call returns [nil]. *)
Lemma DB_UpdateProblem_missing_id (entry : ProblemEntry) (s : DB.Store) :
  ValidateProblemEntry entry = None →
  ID entry ∉ DB.problems_id <$> DB.problems s →
  (∀ pt, pt ∈ DB.problem_tags s → DB.problem_id pt ≠ ID entry) →
  Tags entry = [] →
  DB.UpdateProblem entry s = (None, s).
Proof.
  intros Hv Hid Hlinks Htags. unfold DB.UpdateProblem. rewrite Hv, Htags.
  unfold DB.transaction, DB.updateProblemTags, DB.update_problem, DB.wrap,
    mbind, mret, DB.Tx_bind, DB.Tx_ret. simpl.
  unfold DB.set_problem_tags, DB.set_problems. simpl.
  rewrite map_id_on.
  - rewrite filter_id_on; [by destruct s|]. exact Hlinks.
  - intros r Hr. case_decide as Heq; [|done].
    destruct Hid. rewrite <-Heq. by apply list_elem_of_fmap_2.
Qed.

(** ** Tags that repeat after trimming *)

Lemma select_tag_upsert tag s tagID s1 :
  DB.upsert_tag tag s = inr (tagID, s1) → DB.select_tag tag s1 = Some tagID.
Proof.
  unfold DB.upsert_tag. destruct (DB.select_tag tag s) as [found|] eqn:Hsel.
  - intros; by simplify_eq.
  - intros; simplify_eq. unfold DB.select_tag in *. simpl.
    rewrite filter_app. destruct (filter _ (DB.tags s)); [|done].
    simpl. by rewrite filter_cons_True by done.
Qed.

Lemma select_tag_stable tag s found other tagID s1 :
  DB.select_tag tag s = Some found →
  DB.upsert_tag other s = inr (tagID, s1) →
  DB.select_tag tag s1 = Some found ∧ DB.problem_tags s1 = DB.problem_tags s.
Proof.
  intros Hsel. unfold DB.upsert_tag. destruct (DB.select_tag other s).
  - intros; by simplify_eq.
  - intros; simplify_eq. split; [|done]. unfold DB.select_tag in *. simpl.
    rewrite filter_app. by destruct (filter _ (DB.tags s)).
Qed.

Lemma insert_problem_tag_done problemID tagID s u s2 :
  DB.insert_problem_tag problemID tagID s = inr (u, s2) →
  DB.tags s2 = DB.tags s
  ∧ DB.problem_tags s2 = DB.problem_tags s ++ [DB.mk_problem_tags_row problemID tagID].
Proof.
  unfold DB.insert_problem_tag. repeat case_decide; intros; by simplify_eq.
Qed.

Lemma trimmed_cases (t : string) : strings.TrimSpace t = "" ∨ strings.TrimSpace t ≠ "".
Proof. destruct (decide (strings.TrimSpace t = "")); auto. Qed.

(** The one error the loop over the tags can end with. *)
Lemma link_tags_error problemID tags s e :
  DB.link_tags problemID tags s = inl e →
  e = ErrWrap "failed to link problem to tag" (ErrConstraint "problem_tags").
Proof.
  revert s. induction tags as [|tag tags IH]; intros s; simpl; [done|].
  case_decide; [apply IH|].
  unfold mbind, DB.Tx_bind, DB.wrap.
  destruct (DB.upsert_tag _ s) as [|[tagID s1]] eqn:Hup.
  { unfold DB.upsert_tag in Hup. by destruct (DB.select_tag _ s). }
  destruct (DB.insert_problem_tag _ _ s1) as [e1|[[] s2]] eqn:Hlink; [|apply IH].
  unfold DB.insert_problem_tag in Hlink. repeat case_decide; intros; by simplify_eq.
Qed.

(** A tag the problem is linked to already cannot be linked again. *)
Lemma link_tags_present_fails problemID tags s tag found :
  DB.select_tag tag s = Some found →
  DB.mk_problem_tags_row problemID found ∈ DB.problem_tags s →
  tag ∈ filter (λ t, t ≠ "") (strings.TrimSpace <$> tags) →
  ∃ e, DB.link_tags problemID tags s = inl e.
Proof.
  revert s. induction tags as [|t tags IH]; intros s Hsel Hlinked Hin.
  { by apply elem_of_nil in Hin. }
  rewrite fmap_cons, filter_cons in Hin. simpl.
  destruct (trimmed_cases t) as [Hempty|Hempty].
  { rewrite decide_True by done. rewrite decide_False in Hin by (by intros ?). by apply IH. }
  rewrite decide_False by done. rewrite decide_True in Hin by done.
  unfold mbind, DB.Tx_bind, DB.wrap.
  destruct (decide (tag = strings.TrimSpace t)) as [<-|Hne].
  - unfold DB.upsert_tag. rewrite Hsel.
    unfold DB.insert_problem_tag. rewrite decide_True by done. by eexists.
  - apply elem_of_cons in Hin as [?|Hin]; [done|].
    destruct (DB.upsert_tag _ s) as [|[tagID s1]] eqn:Hup; [by eexists|].
    destruct (select_tag_stable _ _ _ _ _ _ Hsel Hup) as [Hsel1 Hlinks1].
    destruct (DB.insert_problem_tag _ _ s1) as [|[[] s2]] eqn:Hlink; [by eexists|].
    apply insert_problem_tag_done in Hlink as [Htags2 Hlinks2].
    apply IH; [|rewrite Hlinks2, Hlinks1; apply elem_of_app; by left|done].
    unfold DB.select_tag in *. by rewrite Htags2.
Qed.

(** Two tags of the entry with the same non-empty trimmed name make the
    loop fail, on any store. *)
Lemma link_tags_repeated_fails problemID tags s :
  ¬ NoDup (filter (λ t, t ≠ "") (strings.TrimSpace <$> tags)) →
  ∃ e, DB.link_tags problemID tags s = inl e.
Proof.
  revert s. induction tags as [|t tags IH]; intros s Hdup.
  { destruct Hdup. constructor. }
  rewrite fmap_cons, filter_cons in Hdup. simpl.
  destruct (trimmed_cases t) as [Hempty|Hempty].
  { rewrite decide_True by done. rewrite decide_False in Hdup by (by intros ?). by apply IH. }
  rewrite decide_False by done. rewrite decide_True in Hdup by done.
  unfold mbind, DB.Tx_bind, DB.wrap.
  destruct (DB.upsert_tag _ s) as [|[tagID s1]] eqn:Hup; [by eexists|].
  destruct (DB.insert_problem_tag _ _ s1) as [|[[] s2]] eqn:Hlink; [by eexists|].
  apply select_tag_upsert in Hup.
  apply insert_problem_tag_done in Hlink as [Htags2 Hlinks2].
  destruct (decide (strings.TrimSpace t
                    ∈ filter (λ t, t ≠ "") (strings.TrimSpace <$> tags))) as [Hin|Hnotin].
  - eapply link_tags_present_fails; [| |exact Hin].
    + unfold DB.select_tag in *. rewrite Htags2. exact Hup.
    + rewrite Hlinks2. apply elem_of_app. right. left.
  - apply IH. intros Hnodup. apply Hdup. by constructor.
Qed.

Lemma InsertProblem_repeated_tag now p s :
  ValidateProblemEntry p = None →
  ¬ NoDup (filter (λ t, t ≠ "") (strings.TrimSpace <$> Tags p)) →
  DB.InsertProblem now p s
  = (Some (ErrWrap "failed to link problem to tag" (ErrConstraint "problem_tags")), p, s).
Proof.
  intros Hv Hdup.
  destruct (InsertProblem_cases now p s Hv)
    as [[e He]|(s1 & s2 & s' & Hins & Hlink & _)].
  - rewrite He. unfold DB.InsertProblem, DB.transaction in He. rewrite Hv in He.
    unfold mbind, mret, DB.Tx_bind, DB.Tx_ret, DB.wrap in He.
    destruct (DB.insert_problem p s) as [|[problemID s1]] eqn:Hins; [done|].
    destruct (DB.link_tags problemID (Tags p) s1) as [e1|[[] s2]] eqn:Hlink.
    + apply link_tags_error in Hlink. by simplify_eq.
    + destruct (link_tags_repeated_fails problemID (Tags p) s1 Hdup) as [e2 He2].
      congruence.
  - destruct (link_tags_repeated_fails (DB.problems_seq s + 1) (Tags p) s1 Hdup) as [e2 He2].
    congruence.
Qed.

(** C5, as the code has it.  [InsertProblem] with the tags "dp", " dp ",
    "Dp" does not succeed: the second tag trims to the name of the first,
    the upsert returns the same tag id, and the second link breaks the
    primary key of [problem_tags]; the transaction is rolled back and no
    tag is stored.  [ToProblem] trims and drops the empty names, and
    keeps the repeated one. *)
Theorem create_with_repeated_tag (now : Time) (s : DB.Store) :
  DB.InsertProblem now (Sample.entry ["dp"; " dp "; "Dp"]) s
  = (Some (ErrWrap "failed to link problem to tag" (ErrConstraint "problem_tags")),
     Sample.entry ["dp"; " dp "; "Dp"], s)
  ∧ Tag.Name <$> Problem.Tags (ToProblem (Sample.entry ["dp"; " dp "; ""; "Dp"]))
    = ["dp"; "dp"; "Dp"].
Proof.
  split; [|reflexivity].
  apply InsertProblem_repeated_tag; [reflexivity|].
  vm_compute. intros Hnodup.
  apply NoDup_cons in Hnodup as [Hnotin _]. apply Hnotin. left.
Qed.

(** ** The schema's invariant, and when a create commits *)


Lemma select_tag_Some tag s tagID :
  DB.select_tag tag s = Some tagID →
  ∃ t, t ∈ DB.tags s ∧ DB.tags_name t = tag ∧ DB.tags_id t = tagID.
Proof.
  unfold DB.select_tag. destruct (filter _ (DB.tags s)) as [|t l] eqn:Hf; [done|].
  simpl. intros; simplify_eq.
  assert (t ∈ filter (λ t, DB.tags_name t = tag) (DB.tags s)) as Ht by (rewrite Hf; left).
  apply list_elem_of_filter in Ht as [Hname Ht]. by exists t.
Qed.

Lemma NoDup_fmap_eq {A B : Type} (f : A → B) (l : list A) (x y : A) :
  NoDup (f <$> l) → x ∈ l → y ∈ l → f x = f y → x = y.
Proof.
  induction l as [|a l IH]; intros Hnd Hx Hy Hf; [by apply elem_of_nil in Hx|].
  rewrite fmap_cons in Hnd. apply NoDup_cons in Hnd as [Ha Hnd].
  apply elem_of_cons in Hx as [->|Hx]; apply elem_of_cons in Hy as [->|Hy]; try done.
  - destruct Ha. rewrite Hf. by apply list_elem_of_fmap_2.
  - destruct Ha. rewrite <-Hf. by apply list_elem_of_fmap_2.
  - by apply IH.
Qed.

Lemma upsert_tag_well_formed tag s tagID s1 :
  DB.well_formed s →
  DB.upsert_tag tag s = inr (tagID, s1) →
  DB.well_formed s1 ∧ DB.problems s1 = DB.problems s
  ∧ DB.problem_tags s1 = DB.problem_tags s ∧ DB.problems_seq s1 = DB.problems_seq s.
Proof.
  intros [Hppk Hpseq Htpk Htseq Hlseq]. unfold DB.upsert_tag.
  destruct (DB.select_tag tag s); intros; simplify_eq; [done|].
  split; [|done]. split; simpl; try done.
  - rewrite fmap_app. apply NoDup_app. split; [done|]. split; [|apply NoDup_singleton].
    intros i Hi Hnew. apply list_elem_of_singleton in Hnew as ->.
    apply list_elem_of_fmap in Hi as (t & Hid & Ht). apply Htseq in Ht. simpl in Hid. lia.
  - intros t Ht. apply elem_of_app in Ht as [Ht|Ht].
    + apply Htseq in Ht. lia.
    + apply list_elem_of_singleton in Ht as ->. simpl. lia.
Qed.

Lemma insert_problem_tag_well_formed problemID tagID s u s2 :
  DB.well_formed s →
  DB.insert_problem_tag problemID tagID s = inr (u, s2) →
  DB.well_formed s2.
Proof.
  intros [Hppk Hpseq Htpk Htseq Hlseq]. unfold DB.insert_problem_tag.
  repeat case_decide; intros; simplify_eq.
  split; simpl; try done.
  intros pt Hpt. apply elem_of_app in Hpt as [Hpt|Hpt]; [by apply Hlseq|].
  apply list_elem_of_singleton in Hpt as ->. simpl.
  destruct H0 as [Hp _]. apply list_elem_of_fmap in Hp as (r & -> & Hr). by apply Hpseq.
Qed.

Lemma link_tags_well_formed problemID tags s u s' :
  DB.well_formed s →
  DB.link_tags problemID tags s = inr (u, s') →
  DB.well_formed s'.
Proof.
  revert s. induction tags as [|t tags IH]; intros s Hwf; simpl.
  - unfold mret, DB.Tx_ret. intros; by simplify_eq.
  - case_decide; [by apply IH|].
    unfold mbind, DB.Tx_bind, DB.wrap.
    destruct (DB.upsert_tag _ s) as [|[tagID s1]] eqn:Hup; [done|].
    destruct (DB.insert_problem_tag _ _ s1) as [|[[] s2]] eqn:Hlink; [done|].
    apply IH. eapply insert_problem_tag_well_formed; [|done].
    by eapply upsert_tag_well_formed.
Qed.

(** On a well-formed store the loop over the tags goes through when the
    trimmed non-empty names are pairwise distinct and the problem is
    linked to none of them yet. *)
Lemma link_tags_succeeds problemID tags s :
  DB.well_formed s →
  NoDup (filter (λ t, t ≠ "") (strings.TrimSpace <$> tags)) →
  problemID ∈ DB.problems_id <$> DB.problems s →
  (∀ tagID, DB.mk_problem_tags_row problemID tagID ∈ DB.problem_tags s →
     ∃ tag, (tag ∉ filter (λ t, t ≠ "") (strings.TrimSpace <$> tags))
            ∧ DB.select_tag tag s = Some tagID) →
  ∃ s', DB.link_tags problemID tags s = inr (tt, s').
Proof.
  revert s. induction tags as [|t tags IH]; intros s Hwf Hnd Hp Hlinks.
  { by eexists. }
  rewrite fmap_cons, filter_cons in Hnd, Hlinks. simpl.
  destruct (trimmed_cases t) as [Hempty|Hempty].
  { rewrite decide_True by done. rewrite decide_False in Hnd, Hlinks by (by intros ?).
    by apply IH. }
  rewrite decide_False by done. rewrite decide_True in Hnd, Hlinks by done.
  apply NoDup_cons in Hnd as [Hfresh Hnd].
  unfold mbind, DB.Tx_bind, DB.wrap.
  destruct (DB.upsert_tag _ s) as [|[tagID s1]] eqn:Hup.
  { unfold DB.upsert_tag in Hup. by destruct (DB.select_tag _ s). }
  pose proof (select_tag_upsert _ _ _ _ Hup) as Hsel1.
  destruct (upsert_tag_well_formed _ _ _ _ Hwf Hup) as (Hwf1 & Hp1 & Hl1 & _).
  assert (DB.mk_problem_tags_row problemID tagID ∉ DB.problem_tags s1) as Hnew.
  { rewrite Hl1. intros Hin. destruct (Hlinks _ Hin) as (other & Hother & Hsel).
    destruct (select_tag_stable _ _ _ _ _ _ Hsel Hup) as [Hsel' _].
    apply select_tag_Some in Hsel' as (r1 & Hr1 & Hn1 & Hi1).
    apply select_tag_Some in Hsel1 as (r2 & Hr2 & Hn2 & Hi2).
    assert (r1 = r2) as ->
      by (eapply (NoDup_fmap_eq DB.tags_id); [apply Hwf1|done|done|congruence]).
    apply Hother. rewrite <-Hn1, Hn2. left. }
  destruct (DB.insert_problem_tag _ _ s1) as [e|[[] s2]] eqn:Hlink.
  { unfold DB.insert_problem_tag in Hlink. rewrite decide_False in Hlink by done.
    rewrite decide_True in Hlink; [done|]. split; [by rewrite Hp1|].
    apply select_tag_Some in Hsel1 as (r & Hr & _ & <-). by apply list_elem_of_fmap_2. }
  pose proof (insert_problem_tag_well_formed _ _ _ _ _ Hwf1 Hlink) as Hwf2.
  pose proof (insert_problem_tag_frame _ _ _ _ _ Hlink) as (Hp2 & _ & _).
  apply insert_problem_tag_done in Hlink as [Htags2 Hlinks2].
  apply IH; [done|done|by rewrite Hp2, Hp1|].
  intros tagID' Hin. rewrite Hlinks2, Hl1 in Hin.
  apply elem_of_app in Hin as [Hin|Hin].
  - destruct (Hlinks _ Hin) as (other & Hother & Hsel).
    exists other. split; [by intros ?; apply Hother; right|].
    destruct (select_tag_stable _ _ _ _ _ _ Hsel Hup) as [Hsel' _].
    unfold DB.select_tag in *. by rewrite Htags2.
  - apply list_elem_of_singleton in Hin. simplify_eq.
    exists (strings.TrimSpace t). split; [done|].
    unfold DB.select_tag in *. by rewrite Htags2.
Qed.

(** A valid item whose trimmed non-empty tags are pairwise distinct is
    created on every well-formed store, and the store stays well-formed. *)
Lemma InsertProblem_commits now p s :
  ValidateProblemEntry p = None →
  DB.well_formed s →
  NoDup (filter (λ t, t ≠ "") (strings.TrimSpace <$> Tags p)) →
  ∃ s', DB.InsertProblem now p s = (None, DB.with_ID (DB.problems_seq s + 1) p, s')
        ∧ DB.well_formed s'.
Proof.
  intros Hv Hwf Hnd.
  set (s1 := DB.mkStore
               (DB.problems s
                ++ [DB.mk_problems_row (DB.problems_seq s + 1) (UserID p) (ProblemName p)
                      (Link p) (Difficulty p) (Category p) (Status p) (SolvedAt p) None 0
                      (Notes p)])
               (DB.problems_seq s + 1) (DB.tags s) (DB.tags_seq s) (DB.problem_tags s)
               (DB.user_stats s)).
  assert (DB.well_formed s1) as Hwf1.
  { destruct Hwf as [Hppk Hpseq Htpk Htseq Hlseq]. split; simpl; try done.
    - rewrite fmap_app. apply NoDup_app. split; [done|]. split; [|apply NoDup_singleton].
      intros i Hi Hnew. apply list_elem_of_singleton in Hnew as ->.
      apply list_elem_of_fmap in Hi as (r & Hid & Hr). apply Hpseq in Hr. simpl in Hid. lia.
    - intros r Hr. apply elem_of_app in Hr as [Hr|Hr].
      + apply Hpseq in Hr. lia.
      + apply list_elem_of_singleton in Hr as ->. simpl. lia.
    - intros pt Hpt. apply Hlseq in Hpt. lia. }
  destruct (link_tags_succeeds (DB.problems_seq s + 1) (Tags p) s1 Hwf1 Hnd) as [s2 Hlink].
  { simpl. rewrite fmap_app. apply elem_of_app. right. left. }
  { intros tagID Hin. simpl in Hin. apply (DB.links_below_seq _ Hwf) in Hin. simpl in Hin. lia. }
  destruct (updateUserStats_lookup now p s2) as (s' & Hup & Hp' & _).
  exists s'. split.
  - unfold DB.InsertProblem, DB.transaction. rewrite Hv.
    unfold mbind, mret, DB.Tx_bind, DB.Tx_ret, DB.wrap, DB.insert_problem.
    fold s1. by rewrite Hlink, Hup.
  - pose proof (link_tags_well_formed _ _ _ _ _ Hwf1 Hlink) as [Hppk Hpseq Htpk Htseq Hlseq].
    unfold DB.updateUserStats in Hup. simplify_eq. by split.
Qed.

(** ** What a create does to the owner's stats *)

(** C2, on the store that has the [user_stats] table.  For a valid item
    exactly one status counter and exactly one difficulty counter are
    selected; when [InsertProblem] commits, the committed store holds the
    new row together with the owner's stats row, in which the selected
    counters are one higher than before (a missing row counts as zeros),
    the other four are as before and [lastActiveAt] is the time of the
    call; nobody else's stats change.  When it fails the transaction is
    rolled back: neither the row nor the stats are written.  On a
    well-formed store the create commits whenever the trimmed non-empty
    tags of the item are pairwise distinct.  In particular a committed
    create with status Stuck and difficulty Hard raises [totalStuck] and
    [hardCount] by exactly 1. *)
Theorem create_updates_stats (now : Time) (p : ProblemEntry) (s : DB.Store) :
  ValidateProblemEntry p = None →
  let before := default (DB.mkUserStats 0 0 0 0 0 0 None) (DB.GetUserStats (UserID p) s) in
  let solved := if decide (Status p = StatusSolved) then 1 else 0 in
  let hinted := if decide (Status p = StatusNeededHint) then 1 else 0 in
  let stuck := if decide (Status p = StatusStuck) then 1 else 0 in
  let easy := if decide (Difficulty p = DifficultyEasy) then 1 else 0 in
  let medium := if decide (Difficulty p = DifficultyMedium) then 1 else 0 in
  let hard := if decide (Difficulty p = DifficultyHard) then 1 else 0 in
  solved + hinted + stuck = 1
  ∧ easy + medium + hard = 1
  ∧ match DB.InsertProblem now p s with
    | (None, p', s') =>
        (∃ row, DB.problems s' = DB.problems s ++ [row]
                ∧ DB.problems_id row = ID p' ∧ DB.user_id row = UserID p
                ∧ DB.status row = Status p ∧ DB.difficulty row = Difficulty p)
        ∧ (∃ after, DB.GetUserStats (UserID p) s' = Some after
                    ∧ DB.TotalSolved after = DB.TotalSolved before + solved
                    ∧ DB.TotalNeededHint after = DB.TotalNeededHint before + hinted
                    ∧ DB.TotalStuck after = DB.TotalStuck before + stuck
                    ∧ DB.EasyCount after = DB.EasyCount before + easy
                    ∧ DB.MediumCount after = DB.MediumCount before + medium
                    ∧ DB.HardCount after = DB.HardCount before + hard
                    ∧ DB.LastActiveAt after = Some now)
        ∧ (∀ other, other ≠ UserID p → DB.GetUserStats other s' = DB.GetUserStats other s)
    | (Some _, p', s') => p' = p ∧ s' = s
    end
  ∧ (DB.well_formed s →
     NoDup (filter (λ t, t ≠ "") (strings.TrimSpace <$> Tags p)) →
     ∃ p' s', DB.InsertProblem now p s = (None, p', s'))
  ∧ (Status p = StatusStuck → Difficulty p = DifficultyHard →
     ∀ p' s', DB.InsertProblem now p s = (None, p', s') →
     ∃ after, DB.GetUserStats (UserID p) s' = Some after
              ∧ DB.TotalStuck after = DB.TotalStuck before + 1
              ∧ DB.HardCount after = DB.HardCount before + 1
              ∧ DB.TotalSolved after = DB.TotalSolved before
              ∧ DB.TotalNeededHint after = DB.TotalNeededHint before
              ∧ DB.EasyCount after = DB.EasyCount before
              ∧ DB.MediumCount after = DB.MediumCount before
              ∧ DB.LastActiveAt after = Some now).
Proof.
  intros Hv before solved hinted stuck easy medium hard.
  assert (solved + hinted + stuck = 1) as Hst.
  { apply ValidateProblemEntry_None in Hv as (_ & _ & _ & _ & Hs).
    subst solved hinted stuck. destruct Hs as [-> | [-> | ->]]; reflexivity. }
  assert (easy + medium + hard = 1) as Hdi.
  { apply ValidateProblemEntry_None in Hv as (_ & _ & _ & Hd & _).
    subst easy medium hard. destruct Hd as [-> | [-> | ->]]; reflexivity. }
  assert (∀ p' s', DB.InsertProblem now p s = (None, p', s') →
    ∃ after, DB.GetUserStats (UserID p) s' = Some after
             ∧ DB.TotalSolved after = DB.TotalSolved before + solved
             ∧ DB.TotalNeededHint after = DB.TotalNeededHint before + hinted
             ∧ DB.TotalStuck after = DB.TotalStuck before + stuck
             ∧ DB.EasyCount after = DB.EasyCount before + easy
             ∧ DB.MediumCount after = DB.MediumCount before + medium
             ∧ DB.HardCount after = DB.HardCount before + hard
             ∧ DB.LastActiveAt after = Some now) as Hafter.
  { intros p' s' Hok.
    pose proof (InsertProblem_success now p s p' s' Hv Hok) as (_ & _ & Hstats & _).
    eexists. split; [exact Hstats|].
    subst before solved hinted stuck easy medium hard.
    destruct (DB.GetUserStats (UserID p) s) as [u|]; simpl;
      unfold DB.bump_difficulty, DB.bump_status;
      repeat case_decide; simpl; repeat split; try lia; try done;
      try (exfalso; congruence). }
  split; [done|]. split; [done|]. split.
  - destruct (DB.InsertProblem now p s) as [[[e|] p'] s'] eqn:Hres.
    + destruct (InsertProblem_cases now p s Hv) as [[e' He]|(? & ? & ? & _ & _ & _ & Hok)];
        [|congruence].
      rewrite He in Hres. by simplify_eq.
    + pose proof (InsertProblem_success now p s p' s' Hv Hres) as (-> & Hrows & _ & Hother).
      split; [|split; [by eapply Hafter|done]].
      eexists. split; [exact Hrows|]. done.
  - split.
    { intros Hwf Hnd. destruct (InsertProblem_commits now p s Hv Hwf Hnd) as (s' & Hok & _).
      by eexists _, _. }
    intros Hstuck Hhard p' s' Hok.
    destruct (Hafter p' s' Hok) as (after & Hl & H1 & H2 & H3 & H4 & H5 & H6 & H7).
    exists after. split; [done|].
    subst solved hinted stuck easy medium hard.
    rewrite Hstuck, Hhard in *. simpl in *.
    repeat split; try done; lia.
Qed.

Lemma create_updates_stats_witness :
  ∃ after,
    DB.GetUserStats "u1"
      (DB.InsertProblem Sample.now (Sample.entry ["dp"; "Dp"]) Sample.db).2 = Some after
    ∧ DB.GetUserStats "u1" Sample.db
      = Some (DB.mkUserStats 1 0 1 0 1 1 (Some (Sample.now - 30 * Sample.day)))
    ∧ DB.TotalStuck after = 2 ∧ DB.HardCount after = 2
    ∧ DB.TotalSolved after = 1 ∧ DB.MediumCount after = 1
    ∧ DB.LastActiveAt after = Some Sample.now.
Proof.
  destruct (create_updates_stats Sample.now (Sample.entry ["dp"; "Dp"]) Sample.db)
    as (_ & _ & _ & _ & Hstuck_hard); [by vm_compute|].
  destruct (Hstuck_hard eq_refl eq_refl
              (DB.InsertProblem Sample.now (Sample.entry ["dp"; "Dp"]) Sample.db).1.2
              (DB.InsertProblem Sample.now (Sample.entry ["dp"; "Dp"]) Sample.db).2)
    as (after & Hl & Hs & Hh & Ho & _ & _ & Hm & Ht); [by vm_compute|].
  exists after. split; [exact Hl|]. split; [reflexivity|].
  split; [exact Hs|]. split; [exact Hh|]. split; [exact Ho|]. split; [exact Hm|]. exact Ht.
Defined.



(** Tags that differ after trimming are stored once each, case preserved,
    and linked to the new problem; the blank one is dropped. *)
Example create_with_distinct_tags :
  DB.tags_name <$> DB.tags (DB.InsertProblem Sample.now
                              (Sample.entry ["dp"; "  "; "Dp"]) DB.empty).2
  = ["dp"; "Dp"]
  ∧ DB.GetProblemTags 1 (DB.InsertProblem Sample.now
                           (Sample.entry ["dp"; "  "; "Dp"]) DB.empty).2
    = ["dp"; "Dp"].
Proof. by vm_compute. Qed.

(** ** The cache: what a caller can see *)
Section CacheFacts.
Context {V : Type}.
Implicit Types (c : cache.Cache V) (key : string) (v : V).

Lemma cache_expired_later now now' (item : cache.Item V) :
  now ≤ now' → cache.expired now item → cache.expired now' item.
Proof. unfold cache.expired. lia. Qed.

(** What [Get] returns is read off the map alone. *)
Lemma cache_Get_result now key c :
  (cache.Get now key c).1
  = item ← cache.items c !! key;
    if decide (cache.expired now item) then None else Some (cache.value item).
Proof.
  unfold cache.Get. destruct (cache.items c !! key) as [item|]; simpl; [|done].
  by destruct (decide (cache.expired now item)).
Qed.

Lemma cache_Get_items now key c :
  cache.items (cache.Get now key c).2 = cache.items c
  ∨ cache.items (cache.Get now key c).2 = delete key (cache.items c)
    ∧ ∃ item, cache.items c !! key = Some item ∧ cache.expired now item.
Proof.
  unfold cache.Get. destruct (cache.items c !! key) as [item|] eqn:Hkey; simpl; [|by left].
  destruct (decide (cache.expired now item)); simpl; [|by left].
  right. eauto.
Qed.

(** X2.  Housekeeping is not observable while the clock does not go back:
    a tick of [cleanupExpired] and the removal [Get] does on an expired
    entry change the result of no later [Get]; a tick removes the
    entries that have expired when it visits them, and no other. *)
Theorem cache_cleanup_unobservable c key key' (tick : string → Time) t t' :
  (∀ k, tick k ≤ t') → t ≤ t' →
  (cache.Get t' key' (cache.cleanupExpired tick c)).1 = (cache.Get t' key' c).1
  ∧ (cache.Get t' key' (cache.Get t key c).2).1 = (cache.Get t' key' c).1
  ∧ (∀ k item, cache.items (cache.cleanupExpired tick c) !! k = Some item
               ↔ cache.items c !! k = Some item ∧ ¬ cache.expired (tick k) item).
Proof.
  intros Htick Ht. split; [|split].
  - rewrite !cache_Get_result. simpl.
    destruct (cache.items c !! key') as [item|] eqn:Hkey; simpl.
    + destruct (decide (cache.expired (tick key') item)) as [Hexp|Hexp].
      * assert (filter (λ kv, ¬ cache.expired (tick kv.1) kv.2) (cache.items c) !! key' = None)
          as ->.
        { apply map_lookup_filter_None. right. intros item' Hitem'. simpl.
          rewrite Hkey in Hitem'. injection Hitem' as <-. tauto. }
        simpl. rewrite decide_True; [done|]. eapply cache_expired_later; [apply Htick|done].
      * assert (filter (λ kv, ¬ cache.expired (tick kv.1) kv.2) (cache.items c) !! key'
                = Some item) as ->; [|done].
        apply map_lookup_filter_Some. by split.
    + assert (filter (λ kv, ¬ cache.expired (tick kv.1) kv.2) (cache.items c) !! key' = None)
        as ->; [|done].
      apply map_lookup_filter_None. by left.
  - rewrite !cache_Get_result.
    destruct (cache_Get_items t key c) as [->|[-> (item & Hkey & Hexp)]]; [done|].
    destruct (decide (key' = key)) as [->|Hne].
    + rewrite lookup_delete_eq, Hkey. simpl.
      rewrite decide_True; [done|]. by eapply cache_expired_later.
    + by rewrite lookup_delete_ne.
  - intros k item. simpl. by rewrite map_lookup_filter_Some.
Qed.

(** X1.  [Get] after [SetWithExpiration] at a clock that is not before
    1970: the value is returned up to and including the instant
    [now + ttl] and never expires when [ttl] is not positive; after
    [now + ttl] the call misses and removes the entry. *)
Theorem cache_Get_after_Set c key v ttl now t :
  0 ≤ now →
  cache.Get t key (cache.SetWithExpiration now key v ttl c)
  = if decide (0 < ttl ∧ now + ttl < t) then (None, cache.Delete key c)
    else (Some v, cache.SetWithExpiration now key v ttl c).
Proof.
  intros Hnow. unfold cache.Get, cache.SetWithExpiration, cache.set_items; simpl.
  rewrite lookup_insert_eq.
  unfold cache.expired; simpl.
  destruct (decide (0 < ttl)) as [Httl|Httl].
  - destruct (decide (0 < ttl ∧ now + ttl < t)) as [[_ Hlate]|Hearly].
    + rewrite decide_True by lia. unfold cache.Delete, cache.set_items; simpl.
      by rewrite delete_insert_eq.
    + rewrite decide_False by lia. done.
  - rewrite decide_False by lia. rewrite decide_False by lia. done.
Qed.
End CacheFacts.

Lemma cache_Get_after_Set_witness :
  (cache.Get 150 "k" (cache.SetWithExpiration 100 "k" "v" 50 (cache.New 300 60))).1 = Some "v"
  ∧ cache.Get 151 "k" (cache.SetWithExpiration 100 "k" "v" 50 (cache.New 300 60))
    = (None, cache.Delete "k" (cache.New 300 60))
  ∧ (cache.Get (10 ^ 18) "k" (cache.SetWithExpiration 100 "k" "v" 0 (cache.New 300 60))).1
    = Some "v".
Proof.
  rewrite !cache_Get_after_Set by lia. split; [|split].
  - by rewrite decide_False by lia.
  - by rewrite decide_True by lia.
  - by rewrite decide_False by lia.
Defined.

Lemma cache_cleanup_unobservable_witness :
  (cache.Get 300 "k" (cache.cleanupExpired (λ _, 200) Sample.cached)).1
  = (cache.Get 300 "k" Sample.cached).1
  ∧ (cache.Get 300 "k" (cache.Get 250 "k" Sample.cached).2).1 = (cache.Get 300 "k" Sample.cached).1
  ∧ cache.items (cache.cleanupExpired (λ _, 200) Sample.cached) !! "k" = None.
Proof.
  destruct (cache_cleanup_unobservable Sample.cached "k" "k" (λ _, 200) 250 300)
    as (Htick & Hget & Hswept); [intros _; lia|lia|].
  split; [exact Htick|]. split; [exact Hget|].
  destruct (cache.items (cache.cleanupExpired (λ _, 200) Sample.cached) !! "k") as [item|] eqn:Hk;
    [|done].
  apply Hswept in Hk as [Hitem Hlive]. vm_compute in Hitem. simplify_eq.
  destruct Hlive. unfold cache.expired. simpl. lia.
Defined.

(** ** The migrations that never run *)

Lemma for_versions_empty first last db :
  last < first → migrations.for_versions first last db = inr (tt, db).
Proof.
  intros Hlt. unfold migrations.for_versions.
  destruct (Z.to_nat (last + 1 - first)) as [|steps]; simpl; [done|].
  by rewrite decide_False by lia.
Qed.

(** X3.  The parameter of [runMigrations] hides the constant
    [currentVersion], so its loop runs from [version + 1] to [version]: no
    migration is applied, whatever version the database is at.  [Migrate]
    makes sure [schema_migrations] exists and returns no error; no other
    table appears and no version is recorded. *)
Theorem Migrate_applies_nothing (db : migrations.Database) :
  (∀ version, migrations.runMigrations version db = (None, db))
  ∧ migrations.Migrate db = (None, migrations.create_table "schema_migrations" db)
  ∧ (∀ table, table ≠ "schema_migrations" →
       table ∈ migrations.tables (migrations.Migrate db).2 ↔ table ∈ migrations.tables db)
  ∧ migrations.schema_migrations (migrations.Migrate db).2 = migrations.schema_migrations db.
Proof.
  assert (Hrun : ∀ version db', migrations.runMigrations version db' = (None, db')).
  { intros version db'. unfold migrations.runMigrations.
    by rewrite for_versions_empty by lia. }
  assert (HM : migrations.Migrate db = (None, migrations.create_table "schema_migrations" db)).
  { unfold migrations.Migrate. case_decide; [apply Hrun|done]. }
  split; [intros version; apply Hrun|]. split; [exact HM|]. rewrite HM. simpl. split; [|done].
  intros table Hne. rewrite elem_of_union, elem_of_singleton. tauto.
Qed.

(** ** [truncateString] *)

Lemma length_append (s1 s2 : string) :
  String.length (s1 +:+ s2) = (String.length s1 + String.length s2)%nat.
Proof. induction s1 as [|a s1 IH]; simpl; [done|]. by rewrite IH. Qed.

Lemma length_substring_0 (n : nat) (s : string) :
  (n ≤ String.length s)%nat → String.length (substring 0 n s) = n.
Proof.
  revert s. induction n as [|n IH]; intros s Hle.
  - by destruct s.
  - destruct s as [|a s]; simpl in *; [lia|]. rewrite IH; [done|lia].
Qed.

Lemma substring_0_append (n : nat) (s1 s2 : string) :
  (n ≤ String.length s1)%nat → substring 0 n (s1 +:+ s2) = substring 0 n s1.
Proof.
  revert s1. induction n as [|n IH]; intros s1 Hle.
  - destruct s1; simpl; [by destruct s2|done].
  - destruct s1 as [|a s1]; simpl in *; [lia|]. rewrite IH; [done|lia].
Qed.

Lemma substring_0_idemp (n : nat) (s : string) :
  substring 0 n (substring 0 n s) = substring 0 n s.
Proof.
  revert s. induction n as [|n IH]; intros s.
  - by destruct s.
  - destruct s as [|a s]; simpl; [done|]. by rewrite IH.
Qed.

(** X4.  With [maxLen] at least 3 the result has [min (len s) maxLen]
    bytes: [s] itself when it fits, else its first [maxLen - 3] bytes and
    three dots.  With [maxLen] below 3 and a longer string the slice bound
    is negative and the call panics. *)
Theorem truncateString_fits (s : string) (maxLen : Z) :
  (3 ≤ maxLen →
   ∃ r, truncateString s maxLen = Some r
        ∧ Z.of_nat (String.length r) = Z.min (Z.of_nat (String.length s)) maxLen
        ∧ (Z.of_nat (String.length s) ≤ maxLen → r = s)
        ∧ (maxLen < Z.of_nat (String.length s) →
           r = substring 0 (Z.to_nat (maxLen - 3)) s +:+ "..."
           ∧ substring 0 (Z.to_nat (maxLen - 3)) r = substring 0 (Z.to_nat (maxLen - 3)) s))
  ∧ (maxLen < 3 → maxLen < Z.of_nat (String.length s) → truncateString s maxLen = None).
Proof.
  unfold truncateString. split.
  - intros Hmax. destruct (decide (Z.of_nat (String.length s) ≤ maxLen)) as [Hle|Hgt].
    + exists s. split; [done|]. split; [lia|]. split; [done|lia].
    + rewrite decide_True by lia. eexists. split; [done|].
      assert (Hcut : String.length (substring 0 (Z.to_nat (maxLen - 3)) s)
                     = Z.to_nat (maxLen - 3)).
      { apply length_substring_0. lia. }
      split; [|split; [lia|]].
      * rewrite length_append, Hcut. simpl. lia.
      * intros _. split; [done|].
        rewrite substring_0_append by lia. apply substring_0_idemp.
  - intros Hmax Hlen. rewrite decide_False by lia. by rewrite decide_False by lia.
Qed.

(** The status column of the table, and a bound below 3. *)
Lemma truncateString_fits_witness :
  truncateString "Needed Hint" 8 = Some "Neede..." ∧ truncateString "Solved" 8 = Some "Solved"
  ∧ truncateString "abc" 2 = None.
Proof.
  split; [|split].
  - destruct (truncateString_fits "Needed Hint" 8) as [Hfit _].
    destruct (Hfit ltac:(lia)) as (r & -> & _ & _ & Hcut).
    destruct Hcut as [-> _]; [simpl; lia|done].
  - destruct (truncateString_fits "Solved" 8) as [Hfit _].
    destruct (Hfit ltac:(lia)) as (r & -> & _ & Hsame & _). by rewrite Hsame by (simpl; lia).
  - destruct (truncateString_fits "abc" 2) as [_ Hpanic]. apply Hpanic; simpl; lia.
Defined.

(** ** Reviews add up *)

Lemma head_filter_map {A : Type} (P : A → Prop) `{!∀ x, Decision (P x)} (f : A → A) (l : list A) :
  (∀ x, P (f x) ↔ P x) → head (filter P (map f l)) = f <$> head (filter P l).
Proof.
  intros HP. induction l as [|x l IH]; [done|]. cbn [map].
  rewrite !filter_cons. destruct (decide (P x)) as [Hx|Hx].
  - rewrite decide_True by by apply HP. done.
  - rewrite decide_False by by rewrite HP. done.
Qed.

Lemma DB_GetProblem_IncrementReviewCount now problemID other s :
  DB.GetProblem other (DB.IncrementReviewCount now problemID s).2
  = match DB.GetProblem other s with
    | inr e => inr (if decide (other = problemID) then reviewed (Some now) 1 e else e)
    | inl err => inl err
    end.
Proof.
  unfold DB.GetProblem, DB.IncrementReviewCount. cbn [snd DB.set_problems DB.problems].
  rewrite head_filter_map.
  2:{ intros r. by destruct (decide (DB.problems_id r = problemID)). }
  destruct (head (filter (λ r, DB.problems_id r = other) (DB.problems s))) as [r|] eqn:Hr;
    simpl; [|done].
  apply head_Some_elem_of, list_elem_of_filter in Hr as [Hid _].
  f_equal. destruct (decide (other = problemID)) as [->|Hne].
  - rewrite decide_True by done. done.
  - rewrite decide_False by congruence. done.
Qed.

Lemma reviewed_reviewed t t' n n' e :
  reviewed (Some t') n' (reviewed t n e) = reviewed (Some t') (n + n') e.
Proof. unfold reviewed; simpl. f_equal. lia. Qed.

Lemma reviewed_0 e : reviewed None 0 e = e.
Proof. destruct e; unfold reviewed; simpl. f_equal. lia. Qed.

Lemma DB_reviews_add_up (times : list Time) (problemID : Z) (s : DB.Store) (e : ProblemEntry) :
  DB.GetProblem problemID s = inr e →
  let s' := foldl (λ s now, (DB.IncrementReviewCount now problemID s).2) s times in
  DB.GetProblem problemID s' = inr (reviewed (last times) (Z.of_nat (length times)) e)
  ∧ (∀ other, other ≠ problemID → DB.GetProblem other s' = DB.GetProblem other s)
  ∧ DB.user_stats s' = DB.user_stats s.
Proof.
  intros He s'. subst s'. revert e He.
  induction times as [|now times IH] using rev_ind; intros e He.
  - simpl. rewrite reviewed_0. auto.
  - rewrite foldl_app. cbn [foldl]. destruct (IH e He) as (IH1 & IH2 & IH3).
    split; [|split].
    + rewrite DB_GetProblem_IncrementReviewCount, IH1, decide_True by done.
      rewrite reviewed_reviewed, last_snoc, length_app. simpl. do 2 f_equal. lia.
    + intros other Hne. rewrite DB_GetProblem_IncrementReviewCount, IH2 by done.
      destruct (DB.GetProblem other s); [done|]. by rewrite decide_False.
    + done.
Qed.

Lemma Repository_GetProblem_IncrementReviewCount now problemID other s :
  Repository.GetProblem other (Repository.IncrementReviewCount now problemID s).2
  = match Repository.GetProblem other s with
    | inr e => inr (if decide (other = problemID) then reviewed (Some now) 1 e else e)
    | inl err => inl err
    end.
Proof.
  unfold Repository.GetProblem, Repository.IncrementReviewCount.
  cbn [snd Repository.set_problems Repository.problems].
  rewrite head_filter_map.
  2:{ intros p. by destruct (decide (Problem.ID p = problemID ∧ Repository.live p)). }
  destruct (head (filter (λ p, Problem.ID p = other ∧ Repository.live p) (Repository.problems s)))
    as [p|] eqn:Hp; simpl; [|done].
  apply head_Some_elem_of, list_elem_of_filter in Hp as [[Hid Hlive] _].
  f_equal. destruct (decide (other = problemID)) as [->|Hne].
  - rewrite decide_True by done. done.
  - rewrite decide_False by (intros [? _]; congruence). done.
Qed.

Lemma Repository_reviews_add_up (times : list Time) (problemID : Z) (s : Repository.Store)
    (e : ProblemEntry) :
  Repository.GetProblem problemID s = inr e →
  let s' := foldl (λ s now, (Repository.IncrementReviewCount now problemID s).2) s times in
  Repository.GetProblem problemID s' = inr (reviewed (last times) (Z.of_nat (length times)) e)
  ∧ (∀ other, other ≠ problemID → Repository.GetProblem other s' = Repository.GetProblem other s).
Proof.
  intros He s'. subst s'. revert e He.
  induction times as [|now times IH] using rev_ind; intros e He.
  - simpl. rewrite reviewed_0. auto.
  - rewrite foldl_app. cbn [foldl]. destruct (IH e He) as (IH1 & IH2).
    split.
    + rewrite Repository_GetProblem_IncrementReviewCount, IH1, decide_True by done.
      rewrite reviewed_reviewed, last_snoc, length_app. simpl. do 2 f_equal. lia.
    + intros other Hne. rewrite Repository_GetProblem_IncrementReviewCount, IH2 by done.
      destruct (Repository.GetProblem other s); [done|]. by rewrite decide_False.
Qed.

(** X5.  [n] calls of [IncrementReviewCount] on an item that is there add
    [n] to its review count and leave the instant of the last call in
    [LastReviewedAt]; nothing else of the item changes, no other item
    changes, and in the SQL store the stats are not written.  On both
    stores. *)
Theorem reviews_add_up (times : list Time) (problemID : Z) (e : ProblemEntry) :
  (∀ s : DB.Store,
     DB.GetProblem problemID s = inr e →
     let s' := foldl (λ s now, (DB.IncrementReviewCount now problemID s).2) s times in
     DB.GetProblem problemID s' = inr (reviewed (last times) (Z.of_nat (length times)) e)
     ∧ (∀ other, other ≠ problemID → DB.GetProblem other s' = DB.GetProblem other s)
     ∧ DB.user_stats s' = DB.user_stats s)
  ∧
  (∀ s : Repository.Store,
     Repository.GetProblem problemID s = inr e →
     let s' := foldl (λ s now, (Repository.IncrementReviewCount now problemID s).2) s times in
     Repository.GetProblem problemID s'
     = inr (reviewed (last times) (Z.of_nat (length times)) e)
     ∧ (∀ other, other ≠ problemID →
          Repository.GetProblem other s' = Repository.GetProblem other s)).
Proof.
  split; intros s He.
  - by apply DB_reviews_add_up.
  - by apply Repository_reviews_add_up.
Qed.

Lemma reviews_add_up_witness :
  DB.GetProblem 1
    (foldl (λ s now, (DB.IncrementReviewCount now 1 s).2) Sample.db
       [Sample.now; Sample.now + Sample.day])
  = inr (reviewed (Some (Sample.now + Sample.day)) 2 (DB.scan Sample.db Sample.row1))
  ∧ Repository.GetProblem 1
      (foldl (λ s now, (Repository.IncrementReviewCount now 1 s).2) Sample.repo
         [Sample.now; Sample.now + Sample.day])
    = inr (reviewed (Some (Sample.now + Sample.day)) 2
             (FromProblem (Repository.preload_tags Sample.repo Sample.problem1))).
Proof.
  split.
  - destruct (reviews_add_up [Sample.now; Sample.now + Sample.day] 1
                (DB.scan Sample.db Sample.row1)) as [HDB _].
    destruct (HDB Sample.db) as [Hcount _]; [reflexivity|exact Hcount].
  - destruct (reviews_add_up [Sample.now; Sample.now + Sample.day] 1
                (FromProblem (Repository.preload_tags Sample.repo Sample.problem1)))
      as [_ HGORM].
    destruct (HGORM Sample.repo) as [Hcount _]; [reflexivity|exact Hcount].
Defined.

(** ** A review takes the item off the due list *)

Lemma DB_due_elem_of now userID L s e :
  e ∈ DB.ListProblemsForReview now userID L s
  ↔ ∃ r, r ∈ DB.problems s ∧ DB.for_review userID (now - L) r ∧ e = DB.scan s r.
Proof.
  unfold DB.ListProblemsForReview. rewrite list_elem_of_fmap.
  replace (now + - L) with (now - L) by lia. split.
  - intros (r & -> & Hr). apply elem_of_orderBy, list_elem_of_filter in Hr as [Hdue Hr].
    eauto.
  - intros (r & Hr & Hdue & ->). exists r. split; [done|].
    apply elem_of_orderBy, list_elem_of_filter. done.
Qed.

Lemma DB_due_after_increment now t L problemID userID e s :
  t - L < now →
  e ∈ DB.ListProblemsForReview t userID L (DB.IncrementReviewCount now problemID s).2
  ↔ e ∈ DB.ListProblemsForReview t userID L s ∧ ID e ≠ problemID.
Proof.
  intros Hlate. rewrite !DB_due_elem_of. unfold DB.IncrementReviewCount.
  cbn [snd DB.set_problems DB.problems]. split.
  - intros (r' & Hr' & Hdue & ->). apply list_elem_of_In, in_map_iff in Hr' as (r & <- & Hr).
    apply list_elem_of_In in Hr.
    destruct (decide (DB.problems_id r = problemID)) as [Hid|Hid].
    + destruct Hdue as (_ & _ & Hrev). simpl in Hrev. lia.
    + split; [|done]. exists r. done.
  - intros [(r & Hr & Hdue & ->) Hid]. simpl in Hid. exists r. split; [|done].
    apply list_elem_of_In, in_map_iff. exists r. rewrite decide_False by done.
    split; [done|]. by apply list_elem_of_In.
Qed.

Lemma Repository_due_after_increment now t L problemID userID e s :
  t - L < now →
  e ∈ Repository.ListProblemsForReview t userID L
        (Repository.IncrementReviewCount now problemID s).2
  ↔ e ∈ Repository.ListProblemsForReview t userID L s ∧ ID e ≠ problemID.
Proof.
  intros Hlate. rewrite !Repository_due_elem_of. unfold Repository.IncrementReviewCount.
  cbn [snd Repository.set_problems Repository.problems]. split.
  - intros (p' & Hp' & Hdue & ->). apply list_elem_of_In, in_map_iff in Hp' as (p & <- & Hp).
    apply list_elem_of_In in Hp.
    destruct (decide (Problem.ID p = problemID ∧ Repository.live p)) as [Hid|Hid].
    + destruct Hdue as (_ & _ & _ & Hrev). simpl in Hrev. lia.
    + split; [by exists p|]. simpl. intros Heq. apply Hid. split; [done|]. apply Hdue.
  - intros [(p & Hp & Hdue & ->) Hid]. simpl in Hid. exists p. split; [|done].
    apply list_elem_of_In, in_map_iff. exists p.
    rewrite decide_False by (by intros [? _]).
    split; [done|]. by apply list_elem_of_In.
Qed.

(** X6.  After [IncrementReviewCount] at [now] the item is on no due list
    read before [now + L]; the call changes the due status of no item
    with another id.  On both stores. *)
Theorem reviewed_not_due (now t : Time) (L : Duration) (problemID : Z) (userID : string)
    (e : ProblemEntry) :
  t - L < now →
  (∀ s : DB.Store,
     e ∈ DB.ListProblemsForReview t userID L (DB.IncrementReviewCount now problemID s).2
     ↔ e ∈ DB.ListProblemsForReview t userID L s ∧ ID e ≠ problemID)
  ∧
  (∀ s : Repository.Store,
     e ∈ Repository.ListProblemsForReview t userID L
           (Repository.IncrementReviewCount now problemID s).2
     ↔ e ∈ Repository.ListProblemsForReview t userID L s ∧ ID e ≠ problemID).
Proof.
  intros Hlate. split; intros s.
  - by apply DB_due_after_increment.
  - by apply Repository_due_after_increment.
Qed.

Lemma reviewed_not_due_witness :
  (DB.scan Sample.db Sample.row1
     ∈ DB.ListProblemsForReview (Sample.now + Sample.hour) "u1" Sample.day Sample.db)
  ∧ (DB.scan Sample.db Sample.row1
       ∉ DB.ListProblemsForReview (Sample.now + Sample.hour) "u1" Sample.day
           (DB.IncrementReviewCount Sample.now 1 Sample.db).2).
Proof.
  split; [by_compute|].
  destruct (reviewed_not_due Sample.now (Sample.now + Sample.hour) Sample.day 1 "u1"
              (DB.scan Sample.db Sample.row1)) as [HDB _]; [by vm_compute|].
  intros Hin. apply HDB in Hin as [_ Hid]. by apply Hid.
Defined.

(** ** Reading back what was written *)













(** ** What [UpdateProblem] of the SQL store does with an id *)






(** ** Deleting, then looking up *)




(** ** The counters of [user_stats] and the rows of [problems] *)

Lemma bumped_counters now st d u :
  let u' := DB.set_last_active now (DB.bump_difficulty d (DB.bump_status st u)) in
  DB.TotalSolved u' = DB.TotalSolved u + indicator (st = StatusSolved)
  ∧ DB.TotalNeededHint u' = DB.TotalNeededHint u + indicator (st = StatusNeededHint)
  ∧ DB.TotalStuck u' = DB.TotalStuck u + indicator (st = StatusStuck)
  ∧ DB.EasyCount u' = DB.EasyCount u + indicator (d = DifficultyEasy)
  ∧ DB.MediumCount u' = DB.MediumCount u + indicator (d = DifficultyMedium)
  ∧ DB.HardCount u' = DB.HardCount u + indicator (d = DifficultyHard).
Proof.
  unfold DB.set_last_active, DB.bump_difficulty, DB.bump_status, indicator.
  repeat case_decide; subst; simpl; try discriminate; repeat split; lia.
Qed.

Lemma count_rows_app userID column value s s' row :
  DB.problems s' = DB.problems s ++ [row] →
  DB.count_rows userID column value s'
  = DB.count_rows userID column value s
    + indicator (DB.user_id row = userID ∧ column row = value).
Proof.
  intros Hrows. unfold DB.count_rows, indicator. rewrite Hrows, filter_app, length_app.
  rewrite filter_cons. case_decide; simpl; lia.
Qed.

Lemma count_rows_same_columns userID column value s s' :
  (λ r, (DB.user_id r, column r)) <$> DB.problems s'
  = (λ r, (DB.user_id r, column r)) <$> DB.problems s →
  DB.count_rows userID column value s' = DB.count_rows userID column value s.
Proof.
  unfold DB.count_rows. generalize (DB.problems s') (DB.problems s). clear.
  intros l'. induction l' as [|r' l' IH]; intros [|r l] Heq; try done.
  rewrite !fmap_cons in Heq. injection Heq as Hu Hc Hrest.
  rewrite !filter_cons. specialize (IH _ Hrest). rewrite Hu, Hc.
  case_decide; simpl; lia.
Qed.

Lemma default_counters now (o : option DB.UserStats) :
  let u := default (DB.mkUserStats 0 0 0 0 0 0 None) o in
  let u' := default (DB.new_user_stats now) o in
  DB.TotalSolved u' = DB.TotalSolved u ∧ DB.TotalNeededHint u' = DB.TotalNeededHint u
  ∧ DB.TotalStuck u' = DB.TotalStuck u ∧ DB.EasyCount u' = DB.EasyCount u
  ∧ DB.MediumCount u' = DB.MediumCount u ∧ DB.HardCount u' = DB.HardCount u.
Proof. destruct o; simpl; auto 10. Qed.

Lemma InsertProblem_counters_match now p s :
  DB.counters_match s → DB.counters_match (DB.InsertProblem now p s).2.
Proof.
  intros Hs. destruct (ValidateProblemEntry p) as [err|] eqn:Hv.
  { unfold DB.InsertProblem. by rewrite Hv. }
  destruct (InsertProblem_cases now p s Hv) as [[e ->]|(s1 & s2 & s' & _ & _ & _ & Hok)]; [done|].
  rewrite Hok. simpl.
  destruct (InsertProblem_success _ _ _ _ _ Hv Hok) as (_ & Hrows & Hown & Hother).
  unfold DB.GetUserStats in Hown, Hother.
  intros userID. specialize (Hs userID). cbv zeta in *.
  rewrite !(count_rows_app _ _ _ s s' _ Hrows). cbn [DB.user_id DB.status DB.difficulty].
  destruct (decide (userID = UserID p)) as [->|Hne].
  - rewrite Hown.
    repeat match goal with
           | |- context [default ?z (Some ?x)] => change (default z (Some x)) with x
           end.
    pose proof (bumped_counters now (Status p) (Difficulty p)
                  (default (DB.new_user_stats now) (DB.user_stats s !! UserID p))) as Hb.
    pose proof (default_counters now (DB.user_stats s !! UserID p)) as Hd.
    cbv zeta in Hb, Hd. unfold indicator in *.
    destruct Hb as (-> & -> & -> & -> & -> & ->).
    destruct Hd as (-> & -> & -> & -> & -> & ->).
    destruct Hs as (-> & -> & -> & -> & -> & ->).
    repeat split; f_equal; repeat case_decide; try done; tauto.
  - rewrite (Hother _ Hne). unfold indicator.
    destruct Hs as (-> & -> & -> & -> & -> & ->).
    repeat split; rewrite decide_False by (intros [? _]; congruence); lia.
Qed.

Lemma set_last_active_counters now (o : option DB.UserStats) :
  let u := default (DB.mkUserStats 0 0 0 0 0 0 None) o in
  let u' := default (DB.mkUserStats 0 0 0 0 0 0 None) (DB.set_last_active now <$> o) in
  DB.TotalSolved u' = DB.TotalSolved u ∧ DB.TotalNeededHint u' = DB.TotalNeededHint u
  ∧ DB.TotalStuck u' = DB.TotalStuck u ∧ DB.EasyCount u' = DB.EasyCount u
  ∧ DB.MediumCount u' = DB.MediumCount u ∧ DB.HardCount u' = DB.HardCount u.
Proof. destruct o; simpl; auto 10. Qed.

Lemma counters_match_empty : DB.counters_match DB.empty.
Proof. intros userID. cbv zeta. unfold DB.count_rows. simpl. by rewrite lookup_empty. Qed.

(** X11.  [InsertProblem], [IncrementReviewCount] and
    [UpdateUserLastActive] keep the six counters of every owner equal to
    the number of the owner's rows with that status or difficulty (an
    owner without a stats row counts as six zeros): a create counts the
    row it adds, and a failed create adds neither. *)
Theorem counters_match_kept (now : Time) (p : ProblemEntry) (problemID : Z) (userID : string)
    (s : DB.Store) :
  DB.counters_match s →
  DB.counters_match (DB.InsertProblem now p s).2
  ∧ DB.counters_match (DB.IncrementReviewCount now problemID s).2
  ∧ DB.counters_match (DB.UpdateUserLastActive now userID s).2.
Proof.
  intros Hs. split; [by apply InsertProblem_counters_match|]. split.
  - intros owner. specialize (Hs owner). cbv zeta in *.
    assert (Hrows : ∀ column value,
              (∀ r now', column (DB.mk_problems_row (DB.problems_id r) (DB.user_id r)
                                   (DB.problem_name r) (DB.link r) (DB.difficulty r)
                                   (DB.category r) (DB.status r) (DB.solved_at r) now'
                                   (DB.review_count r + 1) (DB.notes r)) = column r) →
              DB.count_rows owner column value (DB.IncrementReviewCount now problemID s).2
              = DB.count_rows owner column value s).
    { intros column value Hcol. apply count_rows_same_columns.
      unfold DB.IncrementReviewCount. cbn [snd DB.set_problems DB.problems].
      change (map ?f ?l) with (f <$> l). rewrite <-list_fmap_compose. apply list_fmap_ext.
      intros j r _. simpl. case_decide; [|done]. simpl. by rewrite Hcol. }
    rewrite !Hrows by done. exact Hs.
  - intros owner. specialize (Hs owner). cbv zeta in *.
    unfold DB.UpdateUserLastActive. cbn [snd DB.set_user_stats DB.user_stats].
    assert (Hrows : ∀ column value,
              DB.count_rows owner column value
                (DB.mkStore (DB.problems s) (DB.problems_seq s) (DB.tags s) (DB.tags_seq s)
                   (DB.problem_tags s) (alter (DB.set_last_active now) userID (DB.user_stats s)))
              = DB.count_rows owner column value s) by done.
    rewrite !Hrows. clear Hrows.
    destruct (decide (owner = userID)) as [->|Hne].
    + rewrite lookup_alter_eq.
      pose proof (set_last_active_counters now (DB.user_stats s !! userID)) as Hd.
      cbv zeta in Hd. destruct Hd as (-> & -> & -> & -> & -> & ->). done.
    + by rewrite lookup_alter_ne.
Qed.

Lemma length_filter_filter_lt {A : Type} (P Q : A → Prop) `{!∀ x, Decision (P x)}
    `{!∀ x, Decision (Q x)} (l : list A) (x : A) :
  x ∈ l → P x → ¬ Q x → (length (filter P (filter Q l)) < length (filter P l))%nat.
Proof.
  assert (Hle : ∀ l, (length (filter P (filter Q l)) ≤ length (filter P l))%nat).
  { clear. intros l. induction l as [|y l IH]; [done|].
    rewrite !filter_cons. destruct (decide (Q y)), (decide (P y)); simpl;
      rewrite ?filter_cons; try case_decide; simpl; try lia; tauto. }
  induction l as [|y l IH]; intros Hx HP HQ; [by apply elem_of_nil in Hx|].
  rewrite !filter_cons. apply elem_of_cons in Hx as [<-|Hx].
  - rewrite decide_False, decide_True by done. simpl. specialize (Hle l). lia.
  - specialize (IH Hx HP HQ). destruct (decide (Q y)), (decide (P y)); simpl;
      rewrite ?filter_cons; try case_decide; simpl; try lia; tauto.
Qed.

Lemma counters_match_kept_witness :
  DB.counters_match (DB.InsertProblem Sample.now (Sample.entry ["dp"]) DB.empty).2
  ∧ DB.GetUserStats "u1" (DB.InsertProblem Sample.now (Sample.entry ["dp"]) DB.empty).2
    = Some (DB.mkUserStats 0 0 1 0 0 1 (Some Sample.now)).
Proof.
  split; [|by vm_compute].
  apply (counters_match_kept Sample.now (Sample.entry ["dp"]) 0 "" DB.empty).
  apply counters_match_empty.
Defined.

(** X12.  [DeleteProblem] takes the row and leaves the counters: after the
    delete of an item with one of the three statuses the owner's counter
    for that status says more than [problems] holds. *)
Theorem delete_leaves_counters_stale (s : DB.Store) (i : DB.problems_row) :
  DB.counters_match s →
  i ∈ DB.problems s →
  DB.status i ∈ [StatusSolved; StatusNeededHint; StatusStuck] →
  let s' := (DB.DeleteProblem (DB.problems_id i) s).2 in
  DB.user_stats s' = DB.user_stats s
  ∧ DB.count_rows (DB.user_id i) DB.status (DB.status i) s'
    < DB.count_rows (DB.user_id i) DB.status (DB.status i) s
  ∧ ¬ DB.counters_match s'.
Proof.
  intros Hs Hi Hst s'.
  assert (Hlt : DB.count_rows (DB.user_id i) DB.status (DB.status i) s'
                < DB.count_rows (DB.user_id i) DB.status (DB.status i) s).
  { unfold DB.count_rows. subst s'. unfold DB.DeleteProblem.
    cbn [snd DB.set_problems DB.set_problem_tags DB.problems].
    apply inj_lt, (length_filter_filter_lt _ _ _ i); [done|done|]. by intros Hne. }
  split; [done|]. split; [done|].
  intros Hs'. specialize (Hs (DB.user_id i)). specialize (Hs' (DB.user_id i)).
  cbv zeta in Hs, Hs'.
  change (DB.user_stats s') with (DB.user_stats s) in Hs'.
  destruct Hs as (S1 & S2 & S3 & _). destruct Hs' as (S1' & S2' & S3' & _).
  apply elem_of_cons in Hst as [Hst|Hst]; [rewrite Hst in Hlt; lia|].
  apply elem_of_cons in Hst as [Hst|Hst]; [rewrite Hst in Hlt; lia|].
  apply list_elem_of_singleton in Hst. rewrite Hst in Hlt. lia.
Qed.

Lemma delete_leaves_counters_stale_witness :
  ¬ DB.counters_match
      (DB.DeleteProblem 1 (DB.InsertProblem Sample.now (Sample.entry []) DB.empty).2).2
  ∧ DB.GetUserStats "u1"
      (DB.DeleteProblem 1 (DB.InsertProblem Sample.now (Sample.entry []) DB.empty).2).2
    = Some (DB.mkUserStats 0 0 1 0 0 1 (Some Sample.now))
  ∧ DB.problems (DB.DeleteProblem 1 (DB.InsertProblem Sample.now (Sample.entry []) DB.empty).2).2
    = [].
Proof.
  split; [|by vm_compute].
  destruct (delete_leaves_counters_stale
              (DB.InsertProblem Sample.now (Sample.entry []) DB.empty).2
              (DB.mk_problems_row 1 "u1" "Two Sum" "https://leetcode.com/problems/two-sum"
                 DifficultyHard "arrays" StatusStuck (Sample.now - 30 * Sample.day) None 0 ""))
    as (_ & _ & Hstale); [|by_compute|by_compute|exact Hstale].
  apply InsertProblem_counters_match, counters_match_empty.
Defined.

(** ** [ListProblems]: the filters, and how its arguments are bound *)

Lemma where_given (cvs : list ((DB.problems_row → string) * string)) (r : DB.problems_row) :
  Forall2 (λ column value, column r = value)
          (filter (λ cv, cv.2 ≠ "") cvs).*1 (filter (λ cv, cv.2 ≠ "") cvs).*2
  ↔ Forall (λ cv, cv.2 = "" ∨ cv.1 r = cv.2) cvs.
Proof.
  induction cvs as [|[column value] cvs IH]; simpl.
  - split; constructor.
  - rewrite filter_cons, Forall_cons. simpl. destruct (decide (value ≠ "")) as [Hne|He].
    + simpl. rewrite Forall2_cons, IH. tauto.
    + rewrite IH. apply dec_stable in He. tauto.
Qed.

(** X13.  [ListProblems] without a tag filter and without an offset: the
    list holds the stored items that agree with every filter that is not
    empty, an empty filter asking for nothing, newest [SolvedAt] first;
    a positive limit cuts the list after that many items and any other
    limit does not cut it. *)
Theorem ListProblems_without_tags
    (offset_without_limit : Z → list DB.problems_row → error + list DB.problems_row)
    (userID status difficulty category : string) (limit offset : Z) (s : DB.Store) :
  offset ≤ 0 →
  let wanted (e : ProblemEntry) :=
    (userID = "" ∨ UserID e = userID) ∧ (status = "" ∨ Status e = status)
    ∧ (difficulty = "" ∨ Difficulty e = difficulty)
    ∧ (category = "" ∨ Category e = category) in
  ∃ all,
    DB.ListProblems offset_without_limit userID status difficulty category [] 0 0 s = inr all
    ∧ (∀ e, e ∈ all ↔ ∃ r, r ∈ DB.problems s ∧ e = DB.scan s r ∧ wanted e)
    ∧ StronglySorted (λ a b, SolvedAt b ≤ SolvedAt a) all
    ∧ DB.ListProblems offset_without_limit userID status difficulty category [] limit offset s
      = inr (if decide (0 < limit) then take (Z.to_nat limit) all else all).
Proof.
  intros Hoff wanted. unfold DB.ListProblems.
  set (given := filter _ (zip DB.filter_columns [userID; status; difficulty; category])).
  cbn [length take drop]. rewrite app_nil_r.
  rewrite (decide_False (P := (0 < 0)%nat)) by lia.
  rewrite !(decide_False (P := 0 < 0)) by lia.
  rewrite !(decide_False (P := 0 < offset)) by lia.
  set (rows := filter _ (DB.problems s)).
  exists (DB.scan s <$> Sql.orderBy (λ p, - DB.solved_at p) rows).
  split; [done|]. split; [|split].
  - intros e. rewrite list_elem_of_fmap. split.
    + intros (r & -> & Hr). apply elem_of_orderBy, list_elem_of_filter in Hr as [Hwhere Hr].
      exists r. split; [done|]. split; [done|].
      apply where_given in Hwhere. unfold DB.filter_columns in Hwhere. simpl in Hwhere.
      rewrite !Forall_cons in Hwhere. unfold wanted. simpl. tauto.
    + intros (r & Hr & -> & Hw). exists r. split; [done|].
      apply elem_of_orderBy, list_elem_of_filter. split; [|done].
      apply where_given. unfold DB.filter_columns. simpl.
      rewrite !Forall_cons. unfold wanted in Hw. simpl in Hw. split_and!; try tauto. constructor.
  - apply (StronglySorted_fmap _ (λ a b, - DB.solved_at a ≤ - DB.solved_at b)).
    + intros a b Hle. simpl. lia.
    + apply (orderBy_StronglySorted (λ p, - DB.solved_at p)).
  - destruct (decide (0 < limit)); [by rewrite fmap_take|done].
Qed.

Lemma ListProblems_without_tags_witness :
  DB.ListProblems Sample.skipping "u1" "Solved" "" "" [] 10 0 Sample.db
  = inr [DB.scan Sample.db Sample.row2]
  ∧ ID <$> match DB.ListProblems Sample.skipping "u1" "" "" "" [] 1 0 Sample.db with
           | inr l => l
           | inl _ => []
           end = [1].
Proof.
  split.
  - destruct (ListProblems_without_tags Sample.skipping "u1" "Solved" "" "" 10 0 Sample.db)
      as (all & Hall & _ & _ & Hpage); [lia|].
    rewrite Hpage. vm_compute in Hall. by simplify_eq.
  - destruct (ListProblems_without_tags Sample.skipping "u1" "" "" "" 1 0 Sample.db)
      as (all & Hall & _ & _ & Hpage); [lia|].
    rewrite Hpage. vm_compute in Hall. by simplify_eq.
Defined.

Lemma elem_of_joined p t s :
  (p, t) ∈ DB.joined s
  ↔ p ∈ DB.problems s ∧ t ∈ DB.tags s
    ∧ DB.mk_problem_tags_row (DB.problems_id p) (DB.tags_id t) ∈ DB.problem_tags s.
Proof.
  unfold DB.joined. rewrite list_elem_of_bind. split.
  - intros (p' & Hin & Hp'). apply list_elem_of_bind in Hin as (pt & Hin & Hpt).
    apply list_elem_of_bind in Hin as (t' & Hin & Ht').
    apply list_elem_of_singleton in Hin. simplify_eq.
    apply list_elem_of_filter in Hpt as [Hid Hpt]. apply list_elem_of_filter in Ht' as [Htid Ht'].
    destruct pt as [pid tid]. simpl in *. by subst.
  - intros (Hp & Ht & Hpt). exists p. split; [|done].
    apply list_elem_of_bind. exists (DB.mk_problem_tags_row (DB.problems_id p) (DB.tags_id t)).
    split; [|by apply list_elem_of_filter].
    apply list_elem_of_bind. exists t. split; [by left|]. by apply list_elem_of_filter.
Qed.

Lemma elem_of_GetProblemTags name problemID s :
  name ∈ DB.GetProblemTags problemID s
  ↔ ∃ t, t ∈ DB.tags s ∧ DB.tags_name t = name
         ∧ DB.mk_problem_tags_row problemID (DB.tags_id t) ∈ DB.problem_tags s.
Proof.
  unfold DB.GetProblemTags. rewrite list_elem_of_bind. split.
  - intros (pt & Hin & Hpt). apply list_elem_of_fmap in Hin as (t & -> & Ht).
    apply list_elem_of_filter in Hpt as [Hid Hpt]. apply list_elem_of_filter in Ht as [Htid Ht].
    exists t. destruct pt as [pid tid]. simpl in *. by subst.
  - intros (t & Ht & <- & Hpt). exists (DB.mk_problem_tags_row problemID (DB.tags_id t)).
    split; [|by apply list_elem_of_filter].
    apply list_elem_of_fmap. exists t. split; [done|]. by apply list_elem_of_filter.
Qed.

(** X14.  [ListProblems] with an owner and one tag: [args] holds the owner
    before the tag while the statement has the placeholder of the tag list
    before the one of [user_id], so the owner is compared with the tag
    names and the tag with the owner column.  The list holds the items
    whose owner is [tag] and that carry a tag named [userID], and no
    other. *)
Theorem ListProblems_owner_and_tag
    (offset_without_limit : Z → list DB.problems_row → error + list DB.problems_row)
    (userID tag : string) (limit offset : Z) (s : DB.Store) :
  userID ≠ "" →
  offset ≤ 0 →
  ∃ all,
    DB.ListProblems offset_without_limit userID "" "" "" [tag] 0 0 s = inr all
    ∧ (∀ e, e ∈ all ↔
            ∃ r t, r ∈ DB.problems s ∧ t ∈ DB.tags s
                   ∧ DB.mk_problem_tags_row (DB.problems_id r) (DB.tags_id t) ∈ DB.problem_tags s
                   ∧ DB.tags_name t = userID ∧ DB.user_id r = tag ∧ e = DB.scan s r)
    ∧ (∀ e, e ∈ all → UserID e = tag ∧ userID ∈ Tags e)
    ∧ DB.ListProblems offset_without_limit userID "" "" "" [tag] limit offset s
      = inr (if decide (0 < limit) then take (Z.to_nat limit) all else all).
Proof.
  intros Hu Hoff. unfold DB.ListProblems, DB.filter_columns.
  cbn [zip zip_with]. rewrite filter_cons_True by done.
  rewrite !filter_cons_False by (by intros ?). rewrite filter_nil.
  cbn [fmap list_fmap fst snd app length take drop].
  rewrite (decide_True (P := (0 < 1)%nat)) by lia.
  rewrite !(decide_False (P := 0 < 0)) by lia.
  set (rows := (filter _ (DB.joined s)).*1).
  exists (DB.scan s <$> Sql.orderBy (λ p, - DB.solved_at p) rows).
  split; [done|].
  assert (Hall : ∀ e, e ∈ DB.scan s <$> Sql.orderBy (λ p, - DB.solved_at p) rows ↔
            ∃ r t, r ∈ DB.problems s ∧ t ∈ DB.tags s
                   ∧ DB.mk_problem_tags_row (DB.problems_id r) (DB.tags_id t) ∈ DB.problem_tags s
                   ∧ DB.tags_name t = userID ∧ DB.user_id r = tag ∧ e = DB.scan s r).
  { intros e. rewrite list_elem_of_fmap. split.
    - intros (r & -> & Hr). apply elem_of_orderBy in Hr. subst rows.
      apply list_elem_of_fmap in Hr as ([r' t] & -> & Hin).
      apply list_elem_of_filter in Hin as [[Hname Hwhere] Hin]. simpl in *.
      apply elem_of_joined in Hin as (Hr & Ht & Hpt).
      apply list_elem_of_singleton in Hname. apply Forall2_cons in Hwhere as [Hown _].
      exists r', t. done.
    - intros (r & t & Hr & Ht & Hpt & Hname & Hown & ->). exists r. split; [done|].
      apply elem_of_orderBy. subst rows. apply list_elem_of_fmap. exists (r, t). split; [done|].
      apply list_elem_of_filter. split; [|by apply elem_of_joined].
      simpl. split; [by apply list_elem_of_singleton|]. by repeat constructor. }
  split; [exact Hall|]. split.
  - intros e He. apply Hall in He as (r & t & Hr & Ht & Hpt & Hname & Hown & ->).
    split; [done|]. simpl. apply elem_of_GetProblemTags. by exists t.
  - destruct (decide (0 < limit)); [|by rewrite decide_False by lia].
    by rewrite decide_False, fmap_take by lia.
Qed.

(** "u1" asks for the items tagged "dp" and owns one. *)
Lemma ListProblems_owner_and_tag_witness :
  DB.ListProblems Sample.skipping "u1" "" "" "" ["dp"] 0 0 Sample.db = inr []
  ∧ DB.GetProblem 1 Sample.db
    = inr (mkProblemEntry 1 "u1" "Two Sum" "" DifficultyHard "arrays" StatusStuck
             (Sample.now - 30 * Sample.day) None 0 "" ["dp"]).
Proof.
  split; [|by vm_compute].
  destruct (ListProblems_owner_and_tag Sample.skipping "u1" "dp" 0 0 Sample.db)
    as (all & Hall & _ & Hswapped & _); [done|lia|].
  rewrite Hall. destruct all as [|e all]; [done|].
  destruct (Hswapped e) as [_ Htag]; [left|].
  vm_compute in Hall. by simplify_eq.
Defined.

(** ** The daily cycle: how much it sends and what it writes *)

Section CycleFacts.

Variable env : Scheduler.Env.
Variable config : Scheduler.SchedulerConfig.

Let attempts := Z.to_nat (Scheduler.RetryAttempts config).

Lemma retry_deliveries n content w :
  ∃ failed delivered,
    deliveries (Scheduler.journal (Scheduler.retry env config n content w))
    = deliveries (Scheduler.journal w) ++ replicate failed false
      ++ (if delivered : bool then [true] else [])
    ∧ (failed + (if delivered then 1 else 0) ≤ n)%nat.
Proof.
  revert w. induction n as [|n IH]; intros w; simpl.
  { exists 0%nat, false. simpl. by rewrite app_nil_r. }
  destruct (Scheduler.discordSend env _ _ _) eqn:Hsend.
  - exists 0%nat, true. simpl. unfold deliveries. rewrite omap_app. simpl. split; [done|lia].
  - destruct (IH (Scheduler.mkWorld (Scheduler.repo w)
                    (Scheduler.clock w + Z.max 0 (Scheduler.RetryDelay config))
                    (S (Scheduler.calls w))
                    (Scheduler.journal w
                     ++ [Scheduler.Sent (Scheduler.ReviewChannel config) content false])))
      as (failed & delivered & Hj & Hn).
    exists (S failed), delivered. split; [|lia].
    rewrite Hj. simpl. unfold deliveries. rewrite omap_app. simpl. by rewrite <-app_assoc.
Qed.

Lemma foldl_incrementReviewCount_deliveries (problems : list ProblemEntry) w :
  deliveries
    (Scheduler.journal (foldl (λ w p, Scheduler.incrementReviewCount env (ID p) w) w problems))
  = deliveries (Scheduler.journal w).
Proof.
  revert w. induction problems as [|p problems IH]; intros w; simpl; [done|].
  rewrite IH. unfold Scheduler.incrementReviewCount.
  destruct (Scheduler.repoFails env _); simpl; unfold deliveries; rewrite omap_app; simpl;
    by rewrite app_nil_r.
Qed.

Lemma remindUser_deliveries w userID :
  ∃ failed delivered,
    deliveries (Scheduler.journal (Scheduler.remindUser env config w userID))
    = deliveries (Scheduler.journal w) ++ replicate failed false
      ++ (if delivered : bool then [true] else [])
    ∧ (failed + (if delivered then 1 else 0) ≤ 1 + attempts)%nat
    ∧ (Scheduler.increments (Scheduler.journal (Scheduler.remindUser env config w userID))
       ≠ Scheduler.increments (Scheduler.journal w) →
       failed = 0%nat ∧ delivered = true).
Proof.
  assert (Hidle : ∀ w', Scheduler.journal w' = Scheduler.journal w →
            ∃ failed delivered,
              deliveries (Scheduler.journal w')
              = deliveries (Scheduler.journal w) ++ replicate failed false
                ++ (if delivered : bool then [true] else [])
              ∧ (failed + (if delivered then 1 else 0) ≤ 1 + attempts)%nat
              ∧ (Scheduler.increments (Scheduler.journal w')
                 ≠ Scheduler.increments (Scheduler.journal w) →
                 failed = 0%nat ∧ delivered = true)).
  { intros w' ->. exists 0%nat, false. simpl. rewrite app_nil_r. split; [done|]. split; [lia|done]. }
  unfold Scheduler.remindUser.
  destruct (Scheduler.repoFails env (Scheduler.calls w)); [by apply Hidle|].
  case_bool_decide; [|by apply Hidle].
  destruct (Scheduler.discordUser env _ userID) as [mention|]; [|by apply Hidle].
  unfold Scheduler.ChannelMessageSend. cbn [Scheduler.calls Scheduler.repo Scheduler.clock
    Scheduler.journal].
  destruct (Scheduler.discordSend env _ _ _) eqn:Hsend; cbn [negb].
  - exists 0%nat, true. rewrite foldl_incrementReviewCount_deliveries. simpl.
    unfold deliveries. rewrite omap_app. simpl. split; [done|]. split; [lia|done].
  - match goal with |- context [Scheduler.retry env config ?n ?c ?w0] =>
      destruct (retry_deliveries n c w0) as (failed & delivered & Hj & Hn);
      pose proof (retry_increments env config n c w0) as Hinc end.
    exists (S failed), delivered. rewrite Hj. simpl. split; [|split].
    + unfold deliveries. rewrite omap_app. simpl. by rewrite <-app_assoc.
    + fold attempts in Hn. lia.
    + intros Hne. destruct Hne. rewrite Hinc. simpl.
      unfold Scheduler.increments. rewrite omap_app. simpl. by rewrite app_nil_r.
Qed.

Lemma foldl_remindUser_deliveries users w :
  (length (deliveries (Scheduler.journal (foldl (Scheduler.remindUser env config) w users)))
   ≤ length (deliveries (Scheduler.journal w)) + (1 + attempts) * length users)%nat.
Proof.
  revert w. induction users as [|userID users IH]; intros w; simpl; [lia|].
  specialize (IH (Scheduler.remindUser env config w userID)).
  destruct (remindUser_deliveries w userID) as (failed & delivered & Hj & Hn & _).
  rewrite Hj, !length_app, length_replicate in IH.
  assert (length (if delivered then [true] else []) = if delivered then 1 else 0)%nat as Hd
    by by destruct delivered.
  rewrite Hd in IH. fold attempts in IH. lia.
Qed.

End CycleFacts.

(** X15.  Whatever Discord and the database driver do, in an owner's turn
    the scheduler sends until the first success and at most
    [1 + RetryAttempts] times (once when [RetryAttempts] is not positive);
    [IncrementReviewCount] is called only when the very first send is
    delivered.  A whole cycle sends at most [1 + RetryAttempts] messages
    for each owner [ListAllUsers] names. *)
Theorem sends_bounded (env : Scheduler.Env) (config : Scheduler.SchedulerConfig)
    (w : Scheduler.World) :
  let attempts := Z.to_nat (Scheduler.RetryAttempts config) in
  (∀ userID,
     let w' := Scheduler.remindUser env config w userID in
     ∃ failed delivered,
       deliveries (Scheduler.journal w')
       = deliveries (Scheduler.journal w) ++ replicate failed false
         ++ (if delivered : bool then [true] else [])
       ∧ (failed + (if delivered then 1 else 0) ≤ 1 + attempts)%nat
       ∧ (Scheduler.increments (Scheduler.journal w')
          ≠ Scheduler.increments (Scheduler.journal w) →
          failed = 0%nat ∧ delivered = true))
  ∧ (length (deliveries (Scheduler.journal (Scheduler.sendDailyReviewReminder env config w)))
     ≤ length (deliveries (Scheduler.journal w))
       + (1 + attempts) * length (Repository.ListAllUsers (Scheduler.repo w)))%nat.
Proof.
  intros attempts. split; [intros userID; apply remindUser_deliveries|].
  unfold Scheduler.sendDailyReviewReminder. case_decide; [lia|].
  destruct (Scheduler.repoFails env _); [simpl; lia|].
  apply (foldl_remindUser_deliveries env config
           (Repository.ListAllUsers (Scheduler.repo w))
           (Scheduler.mkWorld (Scheduler.repo w) (Scheduler.clock w) (S (Scheduler.calls w))
              (Scheduler.journal w))).
Qed.

Lemma writes_review_only_refl r : writes_review_only r r.
Proof.
  split; [|done]. apply Forall_Forall2_diag, Forall_forall. intros p _.
  unfold same_but_review. split_and!; try done; lia.
Qed.

Lemma writes_review_only_trans r1 r2 r3 :
  writes_review_only r1 r2 → writes_review_only r2 r3 → writes_review_only r1 r3.
Proof.
  intros (Hrows1 & ? & ? & ? & ?) (Hrows2 & ? & ? & ? & ?).
  split; [|split_and!; congruence].
  eapply Forall2_trans; [|exact Hrows1|exact Hrows2].
  unfold same_but_review. intros x y z Hxy Hyz.
  destruct Hxy as (?&?&?&?&?&?&?&?&?&?&?&?&?), Hyz as (?&?&?&?&?&?&?&?&?&?&?&?&?).
  split_and!; try congruence; lia.
Qed.

Lemma IncrementReviewCount_writes_review_only now problemID r :
  writes_review_only r (Repository.IncrementReviewCount now problemID r).2.
Proof.
  split; [|done]. unfold Repository.IncrementReviewCount.
  cbn [snd Repository.set_problems Repository.problems].
  change (map ?f ?l) with (f <$> l). apply Forall2_fmap_r, Forall_Forall2_diag, Forall_forall.
  intros p _. unfold same_but_review. simpl. case_decide; simpl; split_and!; try done; lia.
Qed.

Section CycleFrame.

Variable env : Scheduler.Env.
Variable config : Scheduler.SchedulerConfig.

Lemma cycle_step_refl w : cycle_step w w.
Proof. split; [apply writes_review_only_refl|]. split; lia. Qed.

Lemma cycle_step_trans w1 w2 w3 : cycle_step w1 w2 → cycle_step w2 w3 → cycle_step w1 w3.
Proof.
  intros (Hrepo1 & ? & ?) (Hrepo2 & ? & ?).
  split; [by eapply writes_review_only_trans|]. split; lia.
Qed.

Lemma retry_cycle_step n content w : cycle_step w (Scheduler.retry env config n content w).
Proof.
  revert w. induction n as [|n IH]; intros w; simpl; [apply cycle_step_refl|].
  assert (cycle_step w
            (Scheduler.mkWorld (Scheduler.repo w)
               (Scheduler.clock w + Z.max 0 (Scheduler.RetryDelay config))
               (S (Scheduler.calls w))
               (Scheduler.journal w
                ++ [Scheduler.Sent (Scheduler.ReviewChannel config) content
                      (Scheduler.discordSend env (Scheduler.calls w)
                         (Scheduler.ReviewChannel config) content)]))) as Hstep.
  { split; [apply writes_review_only_refl|]. simpl. split; lia. }
  destruct (Scheduler.discordSend env _ _ _) eqn:Hsend; [done|].
  eapply cycle_step_trans; [exact Hstep|]. apply IH.
Qed.

Lemma incrementReviewCount_cycle_step problemID w :
  cycle_step w (Scheduler.incrementReviewCount env problemID w).
Proof.
  unfold Scheduler.incrementReviewCount. destruct (Scheduler.repoFails env _).
  - split; [apply writes_review_only_refl|]. simpl. split; lia.
  - split; [apply IncrementReviewCount_writes_review_only|]. simpl. split; lia.
Qed.

Lemma foldl_cycle_step {A : Type} (f : Scheduler.World → A → Scheduler.World) (l : list A) w :
  (∀ w x, cycle_step w (f w x)) → cycle_step w (foldl f w l).
Proof.
  intros Hf. revert w. induction l as [|x l IH]; intros w; simpl; [apply cycle_step_refl|].
  eapply cycle_step_trans; [apply Hf|apply IH].
Qed.

Lemma remindUser_cycle_step w userID :
  cycle_step w (Scheduler.remindUser env config w userID).
Proof.
  assert (Hidle : ∀ n j, (Scheduler.calls w ≤ n)%nat →
            cycle_step w (Scheduler.mkWorld (Scheduler.repo w) (Scheduler.clock w) n j)).
  { intros n j Hn. split; [apply writes_review_only_refl|]. simpl. split; lia. }
  unfold Scheduler.remindUser.
  destruct (Scheduler.repoFails env (Scheduler.calls w)); [apply Hidle; lia|].
  case_bool_decide; [|apply Hidle; lia].
  destruct (Scheduler.discordUser env _ userID) as [mention|]; [|apply Hidle; lia].
  unfold Scheduler.ChannelMessageSend.
  cbn [Scheduler.calls Scheduler.repo Scheduler.clock Scheduler.journal].
  destruct (Scheduler.discordSend env _ _ _); cbn [negb].
  - eapply cycle_step_trans; [|apply foldl_cycle_step].
    + apply Hidle. lia.
    + intros w0 p. apply incrementReviewCount_cycle_step.
  - eapply cycle_step_trans; [|apply retry_cycle_step]. apply Hidle. lia.
Qed.

End CycleFrame.

(** X16.  Whatever Discord and the database driver do, a cycle adds no
    row and removes none, and of a row it changes nothing but the review
    fields and [UpdatedAt]; the review count never goes down.  Tags,
    links and the list of owners are as before, and the clock does not go
    back. *)
Theorem cycle_writes_review_fields_only (env : Scheduler.Env)
    (config : Scheduler.SchedulerConfig) (w : Scheduler.World) :
  let w' := Scheduler.sendDailyReviewReminder env config w in
  Forall2 same_but_review (Repository.problems (Scheduler.repo w))
          (Repository.problems (Scheduler.repo w'))
  ∧ Repository.tags (Scheduler.repo w') = Repository.tags (Scheduler.repo w)
  ∧ Repository.problem_tags (Scheduler.repo w') = Repository.problem_tags (Scheduler.repo w)
  ∧ Repository.ListAllUsers (Scheduler.repo w') = Repository.ListAllUsers (Scheduler.repo w)
  ∧ Scheduler.clock w ≤ Scheduler.clock w'.
Proof.
  intros w'. assert (cycle_step w w') as ((Hrows & _ & Htags & _ & Hlinks) & Hclock & _).
  { subst w'. unfold Scheduler.sendDailyReviewReminder. case_decide; [apply cycle_step_refl|].
    assert (cycle_step w (Scheduler.mkWorld (Scheduler.repo w) (Scheduler.clock w)
                            (S (Scheduler.calls w)) (Scheduler.journal w))) as Hlisted.
    { split; [apply writes_review_only_refl|]. simpl. split; lia. }
    destruct (Scheduler.repoFails env _); [done|].
    eapply cycle_step_trans; [exact Hlisted|]. apply foldl_cycle_step.
    apply remindUser_cycle_step. }
  split; [done|]. split; [done|]. split; [done|]. split; [|done].
  unfold Repository.ListAllUsers. f_equal.
  induction Hrows as [|p p' l l' Hp _ IH]; [done|].
  rewrite !filter_cons.
  destruct Hp as (_ & Hu & _ & _ & _ & _ & _ & _ & _ & _ & _ & Hd & _).
  destruct (decide (Repository.live p')) as [Hl'|Hl'], (decide (Repository.live p)) as [Hl|Hl];
    unfold Repository.live in Hl, Hl'; try congruence.
  rewrite !fmap_cons. by rewrite IH, Hu.
Qed.

Section CycleDue.

Variable env : Scheduler.Env.
Variable config : Scheduler.SchedulerConfig.

(** The loop over the due items when no call to the repository fails. *)
Lemma foldl_incrementReviewCount_repo (problems : list ProblemEntry) w :
  (∀ k, (Scheduler.calls w ≤ k)%nat → Scheduler.repoFails env k = false) →
  let w' := foldl (λ w p, Scheduler.incrementReviewCount env (ID p) w) w problems in
  Scheduler.repo w'
  = foldl (λ r p, (Repository.IncrementReviewCount (Scheduler.clock w) (ID p) r).2)
          (Scheduler.repo w) problems
  ∧ Scheduler.clock w' = Scheduler.clock w.
Proof.
  revert w. induction problems as [|p problems IH]; intros w Hok; [done|].
  cbn [foldl]. cbv zeta.
  assert (Hstep : Scheduler.incrementReviewCount env (ID p) w
                  = Scheduler.mkWorld
                      (Repository.IncrementReviewCount (Scheduler.clock w) (ID p)
                         (Scheduler.repo w)).2
                      (Scheduler.clock w) (S (Scheduler.calls w))
                      (Scheduler.journal w ++ [Scheduler.IncrementReviewCount (ID p) true])).
  { unfold Scheduler.incrementReviewCount. by rewrite Hok by lia. }
  rewrite Hstep. specialize (IH (Scheduler.mkWorld
                      (Repository.IncrementReviewCount (Scheduler.clock w) (ID p)
                         (Scheduler.repo w)).2
                      (Scheduler.clock w) (S (Scheduler.calls w))
                      (Scheduler.journal w ++ [Scheduler.IncrementReviewCount (ID p) true]))).
  apply IH. intros k Hk. apply Hok. simpl in Hk. lia.
Qed.

Lemma Repository_due_after_increments now t L userID e (problems : list ProblemEntry) r :
  t - L < now →
  e ∈ Repository.ListProblemsForReview t userID L
        (foldl (λ r p, (Repository.IncrementReviewCount now (ID p) r).2) r problems)
  ↔ e ∈ Repository.ListProblemsForReview t userID L r ∧ (ID e ∉ ID <$> problems).
Proof.
  intros Hlate. revert r. induction problems as [|p problems IH]; intros r.
  - simpl. split; [|tauto]. intros He. split; [done|]. apply not_elem_of_nil.
  - cbn [foldl]. rewrite IH, Repository_due_after_increment by done.
    rewrite fmap_cons, not_elem_of_cons. tauto.
Qed.

End CycleDue.

(** X17.  When the first send of an owner's turn is delivered and the
    repository does not fail, the items of the reminder, and only they,
    leave the due lists: until the lookback period has passed again none of
    them is due, for any owner, and every other item is due exactly when
    it was.  With a positive lookback period the owner has nothing due
    right after the turn. *)
Theorem delivered_reminder_clears_due (env : Scheduler.Env)
    (config : Scheduler.SchedulerConfig) (w : Scheduler.World) (userID mention : string) :
  let L := Scheduler.LookbackPeriod config in
  let problems := Repository.ListProblemsForReview (Scheduler.clock w) userID L (Scheduler.repo w) in
  let content := Scheduler.reminder env mention problems in
  let w' := Scheduler.remindUser env config w userID in
  problems ≠ [] →
  Scheduler.discordUser env (S (Scheduler.calls w)) userID = Some mention →
  Scheduler.discordSend env (S (S (Scheduler.calls w)))
    (Scheduler.ReviewChannel config) content = true →
  (∀ k, (Scheduler.calls w ≤ k)%nat → Scheduler.repoFails env k = false) →
  (∀ t owner e, t - L < Scheduler.clock w →
     (e ∈ Repository.ListProblemsForReview t owner L (Scheduler.repo w')
      ↔ e ∈ Repository.ListProblemsForReview t owner L (Scheduler.repo w)
        ∧ (ID e ∉ ID <$> problems)))
  ∧ (0 < L →
     Repository.ListProblemsForReview (Scheduler.clock w') userID L (Scheduler.repo w') = []).
Proof.
  intros L problems content w' Hdue Huser Hsend Hrepo.
  assert (Hw' : Scheduler.repo w'
                = foldl (λ r p, (Repository.IncrementReviewCount (Scheduler.clock w) (ID p) r).2)
                        (Scheduler.repo w) problems
                ∧ Scheduler.clock w' = Scheduler.clock w).
  { subst w'. unfold Scheduler.remindUser. rewrite Hrepo by lia. fold L problems.
    rewrite bool_decide_eq_true_2 by (destruct problems; [done|simpl; lia]).
    rewrite Huser. fold content. unfold Scheduler.ChannelMessageSend.
    cbn [Scheduler.calls Scheduler.repo Scheduler.clock Scheduler.journal].
    rewrite Hsend. cbn [negb].
    apply (foldl_incrementReviewCount_repo env problems
             (Scheduler.mkWorld (Scheduler.repo w) (Scheduler.clock w)
                (S (S (S (Scheduler.calls w))))
                (Scheduler.journal w
                 ++ [Scheduler.Sent (Scheduler.ReviewChannel config) content true]))).
    intros k Hk. apply Hrepo. simpl in Hk. lia. }
  destruct Hw' as [Hrepo' Hclock'].
  assert (Hiff : ∀ t owner e, t - L < Scheduler.clock w →
     (e ∈ Repository.ListProblemsForReview t owner L (Scheduler.repo w')
      ↔ e ∈ Repository.ListProblemsForReview t owner L (Scheduler.repo w)
        ∧ (ID e ∉ ID <$> problems))).
  { intros t owner e Ht. rewrite Hrepo'. by apply Repository_due_after_increments. }
  split; [exact Hiff|]. intros HL. rewrite Hclock'.
  destruct (Repository.ListProblemsForReview _ userID L (Scheduler.repo w')) as [|e l] eqn:Hl;
    [done|].
  assert (e ∈ Repository.ListProblemsForReview (Scheduler.clock w) userID L (Scheduler.repo w'))
    as He by (rewrite Hl; left).
  apply Hiff in He as [He Hid]; [|lia]. destruct Hid. by apply list_elem_of_fmap_2.
Qed.

Lemma delivered_reminder_clears_due_witness :
  ID <$> Repository.ListProblemsForReview Sample.now "u1" Sample.day Sample.repo = [1]
  ∧ Repository.ListProblemsForReview Sample.now "u1" Sample.day
      (Scheduler.repo (Scheduler.remindUser Sample.online Sample.config Sample.listed "u1"))
    = [].
Proof.
  split; [by vm_compute|].
  destruct (delivered_reminder_clears_due Sample.online Sample.config Sample.listed "u1"
              (Sample.mention "u1")) as [_ Hclear];
    [by vm_compute|reflexivity|reflexivity|done|].
  apply Hclear. by vm_compute.
Defined.

(** X18.  When nothing is due for anybody, the cycle sends nothing and
    writes nothing, whatever Discord and the database driver do. *)
Theorem nothing_due_nothing_sent (env : Scheduler.Env) (config : Scheduler.SchedulerConfig)
    (w : Scheduler.World) :
  (∀ userID,
     Repository.ListProblemsForReview (Scheduler.clock w) userID
       (Scheduler.LookbackPeriod config) (Scheduler.repo w) = []) →
  let w' := Scheduler.sendDailyReviewReminder env config w in
  Scheduler.journal w' = Scheduler.journal w
  ∧ Scheduler.repo w' = Scheduler.repo w
  ∧ Scheduler.clock w' = Scheduler.clock w.
Proof.
  intros Hnone w'. subst w'. unfold Scheduler.sendDailyReviewReminder.
  case_decide; [done|]. destruct (Scheduler.repoFails env _); [done|].
  generalize (Repository.ListAllUsers (Scheduler.repo w)). intros users.
  assert (Hgen : ∀ w0, Scheduler.journal w0 = Scheduler.journal w →
            Scheduler.repo w0 = Scheduler.repo w → Scheduler.clock w0 = Scheduler.clock w →
            let w' := foldl (Scheduler.remindUser env config) w0 users in
            Scheduler.journal w' = Scheduler.journal w
            ∧ Scheduler.repo w' = Scheduler.repo w
            ∧ Scheduler.clock w' = Scheduler.clock w).
  { induction users as [|userID users IH]; intros w0 Hj Hr Hc; [done|].
    cbn [foldl]. apply IH; unfold Scheduler.remindUser; rewrite Hr, Hc, Hnone; simpl;
      by destruct (Scheduler.repoFails env _). }
  by apply Hgen.
Qed.

(** A cycle on the day the items were solved. *)
Lemma nothing_due_nothing_sent_witness :
  Scheduler.journal (Scheduler.sendDailyReviewReminder Sample.online Sample.config Sample.early)
  = []
  ∧ Scheduler.repo (Scheduler.sendDailyReviewReminder Sample.online Sample.config Sample.early)
    = Sample.repo.
Proof.
  destruct (nothing_due_nothing_sent Sample.online Sample.config Sample.early)
    as (Hjournal & Hrepo & _); [|by split].
  intros userID.
  destruct (Repository.ListProblemsForReview _ userID _ _) as [|e l] eqn:Hdue; [done|].
  assert (e ∈ Repository.ListProblemsForReview (Scheduler.clock Sample.early) userID
                (Scheduler.LookbackPeriod Sample.config) (Scheduler.repo Sample.early))
    as He by (rewrite Hdue; left).
  apply Repository_due_elem_of in He as (p & Hp & (_ & _ & Hsolved & _) & _).
  apply elem_of_cons in Hp as [->|Hp]; [by vm_compute in Hsolved|].
  apply list_elem_of_singleton in Hp as ->. by vm_compute in Hsolved.
Defined.

(** ** From the entry to the model and back *)

Lemma foldl_snoc_fmap {A B : Type} (f : A → B) (acc : list B) (l : list A) :
  foldl (λ acc x, acc ++ [f x]) acc l = acc ++ (f <$> l).
Proof.
  revert acc. induction l as [|x l IH]; intros acc; simpl; [by rewrite app_nil_r|].
  by rewrite IH, <-app_assoc.
Qed.

Lemma ToProblem_Tags p :
  Problem.Tags (ToProblem p)
  = (λ name, Tag.mk 0 name 0 0 None)
      <$> filter (λ t, t ≠ "") (strings.TrimSpace <$> Tags p).
Proof.
  unfold ToProblem. cbn [Problem.Tags].
  assert (Hgen : ∀ acc l,
            foldl (λ tags tagName,
                     let tagName := strings.TrimSpace tagName in
                     if decide (tagName ≠ "") then tags ++ [Tag.mk 0 tagName 0 0 None] else tags)
                  acc l
            = acc ++ ((λ name, Tag.mk 0 name 0 0 None)
                        <$> filter (λ t, t ≠ "") (strings.TrimSpace <$> l))).
  { intros acc l. revert acc. induction l as [|t l IH]; intros acc; simpl.
    - by rewrite app_nil_r.
    - rewrite IH, filter_cons. case_decide; [|done]. by rewrite fmap_cons, <-app_assoc. }
  apply (Hgen [] (Tags p)).
Qed.

Lemma ToProblem_normal p :
  ToProblem p
  = Problem.mk (ID p) (UserID p) (ProblemName p) (Link p) (Difficulty p) (Category p)
      (Status p) (SolvedAt p) (LastReviewedAt p) (ReviewCount p) (Notes p)
      ((λ name, Tag.mk 0 name 0 0 None)
         <$> filter (λ t, t ≠ "") (strings.TrimSpace <$> Tags p))
      0 0 None.
Proof. rewrite <-ToProblem_Tags. done. Qed.

Lemma FromProblem_ToProblem p :
  FromProblem (ToProblem p)
  = mkProblemEntry (ID p) (UserID p) (ProblemName p) (Link p) (Difficulty p) (Category p)
      (Status p) (SolvedAt p) (LastReviewedAt p) (ReviewCount p) (Notes p)
      (filter (λ t, t ≠ "") (strings.TrimSpace <$> Tags p)).
Proof.
  unfold FromProblem. rewrite foldl_snoc_fmap, ToProblem_Tags. simpl. f_equal.
  rewrite <-list_fmap_compose.
  generalize (filter (λ t, t ≠ "") (strings.TrimSpace <$> Tags p)). intros l.
  induction l as [|x l IH]; [done|]. rewrite fmap_cons. by rewrite IH.
Qed.

(** X19.  Converting an entry to the model and back gives the entry with
    its tags trimmed and the empty ones dropped, in the same order; an
    entry whose tags are trimmed and not empty comes back unchanged, and
    validation does not tell the two apart. *)
Theorem ToProblem_FromProblem (p : ProblemEntry) :
  FromProblem (ToProblem p)
  = mkProblemEntry (ID p) (UserID p) (ProblemName p) (Link p) (Difficulty p) (Category p)
      (Status p) (SolvedAt p) (LastReviewedAt p) (ReviewCount p) (Notes p)
      (filter (λ t, t ≠ "") (strings.TrimSpace <$> Tags p))
  ∧ ((∀ t, t ∈ Tags p → strings.TrimSpace t = t ∧ t ≠ "") → FromProblem (ToProblem p) = p)
  ∧ ValidateProblemEntry (FromProblem (ToProblem p)) = ValidateProblemEntry p.
Proof.
  pose proof (FromProblem_ToProblem p) as Hback.
  split; [exact Hback|]. split; [|by rewrite Hback].
  intros Htags. rewrite Hback. clear Hback.
  destruct p as [? ? ? ? ? ? ? ? ? ? ? tags]. simpl in *. f_equal.
  induction tags as [|t tags IH]; [done|].
  rewrite fmap_cons, filter_cons. destruct (Htags t ltac:(left)) as [-> Hne].
  rewrite decide_True by done. f_equal. apply IH. intros t' Ht'. apply Htags. by right.
Qed.

Lemma ToProblem_FromProblem_witness :
  FromProblem (ToProblem (Sample.entry ["dp"; " dp "; ""; "Dp"]))
  = Sample.entry ["dp"; "dp"; "Dp"]
  ∧ FromProblem (ToProblem (Sample.entry ["dp"; "Dp"])) = Sample.entry ["dp"; "Dp"].
Proof.
  split.
  - destruct (ToProblem_FromProblem (Sample.entry ["dp"; " dp "; ""; "Dp"])) as [Hback _].
    etrans; [exact Hback|]. by vm_compute.
  - destruct (ToProblem_FromProblem (Sample.entry ["dp"; "Dp"])) as (_ & Hsame & _).
    apply Hsame. intros t Ht.
    apply elem_of_cons in Ht as [->|Ht]; [by vm_compute|].
    apply list_elem_of_singleton in Ht as ->. by vm_compute.
Defined.

(** ** [TrimSpace] reaches a fixed point *)

Lemma spaceWidth_le l : (strings.spaceWidth l ≤ length l)%nat.
Proof.
  unfold strings.spaceWidth. destruct l as [|b1 [|b2 [|b3 l]]]; simpl;
    repeat case_match; lia.
Qed.

Lemma spaceWidthRev_le l : (strings.spaceWidthRev l ≤ length l)%nat.
Proof.
  unfold strings.spaceWidthRev. destruct l as [|b1 [|b2 [|b3 l]]]; simpl;
    repeat case_match; simpl; lia.
Qed.

Section DropSpaces.
Variable width : list N → nat.
Hypothesis width_le : ∀ l, (width l ≤ length l)%nat.

Lemma dropSpaces_done steps l :
  (length l ≤ steps)%nat → width (strings.dropSpaces width steps l) = 0%nat.
Proof.
  revert l. induction steps as [|steps IH]; intros l Hlen; simpl.
  - pose proof (width_le l). lia.
  - destruct (width l) as [|w] eqn:Hw; [done|]. apply IH.
    rewrite length_drop. pose proof (width_le l). lia.
Qed.

Lemma dropSpaces_fixed steps l :
  width l = 0%nat → strings.dropSpaces width steps l = l.
Proof. intros Hw. destruct steps; simpl; [done|]. by rewrite Hw. Qed.

Lemma dropSpaces_drop steps l : ∃ k, strings.dropSpaces width steps l = drop k l.
Proof.
  revert l. induction steps as [|steps IH]; intros l; simpl.
  - by exists 0%nat.
  - destruct (width l) as [|w]; [by exists 0%nat|].
    destruct (IH (drop (S w) l)) as [k ->]. rewrite drop_drop. by eexists.
Qed.

End DropSpaces.

Lemma spaceWidth_take n l :
  strings.spaceWidth l = 0%nat → strings.spaceWidth (take n l) = 0%nat.
Proof.
  unfold strings.spaceWidth.
  destruct l as [|b1 [|b2 [|b3 l]]], n as [|[|[|n]]]; simpl; try done;
    repeat case_match; try done.
Qed.

Lemma TrimLeft_fixed l : strings.spaceWidth l = 0%nat → strings.TrimLeft l = l.
Proof. apply dropSpaces_fixed. Qed.

Lemma TrimRight_fixed l :
  strings.spaceWidthRev (rev l) = 0%nat → strings.TrimRight l = l.
Proof.
  intros Hw. unfold strings.TrimRight. rewrite dropSpaces_fixed by done. apply rev_involutive.
Qed.

Lemma trimmed_idemp l : trimmed (trimmed l) = trimmed l.
Proof.
  unfold trimmed. set (l1 := strings.TrimLeft l).
  assert (strings.spaceWidth l1 = 0%nat) as H1
    by (apply dropSpaces_done; [apply spaceWidth_le|done]).
  destruct (dropSpaces_drop strings.spaceWidthRev (length l1) (rev l1)) as [k Hk].
  assert (strings.spaceWidthRev (strings.dropSpaces strings.spaceWidthRev (length l1) (rev l1))
          = 0%nat) as H2
    by (apply dropSpaces_done; [apply spaceWidthRev_le|by rewrite length_rev]).
  set (l2 := strings.TrimRight l1).
  assert (l2 = take (length l1 - k) l1) as Hl2.
  { subst l2. unfold strings.TrimRight. rewrite Hk, skipn_rev. apply rev_involutive. }
  assert (strings.spaceWidthRev (rev l2) = 0%nat) as H3.
  { subst l2. unfold strings.TrimRight. by rewrite rev_involutive. }
  rewrite (TrimLeft_fixed l2) by (rewrite Hl2; by apply spaceWidth_take).
  by apply TrimRight_fixed.
Qed.

Lemma bytes_ofBytes l :
  Forall (λ b, (b < 256)%N) l → strings.bytes (strings.ofBytes l) = l.
Proof.
  intros Hl. unfold strings.bytes, strings.ofBytes.
  rewrite list_ascii_of_string_of_list_ascii, map_map.
  induction Hl as [|b l Hb _ IH]; [done|]. simpl. by rewrite N_ascii_embedding, IH.
Qed.

Lemma Forall_dropSpaces (P : N → Prop) width steps l :
  Forall P l → Forall P (strings.dropSpaces width steps l).
Proof.
  revert l. induction steps as [|steps IH]; intros l Hl; simpl; [done|].
  destruct (width l); [done|]. by apply IH, Forall_drop.
Qed.

Lemma Forall_trimmed (P : N → Prop) l : Forall P l → Forall P (trimmed l).
Proof.
  intros Hl. unfold trimmed, strings.TrimRight, strings.TrimLeft.
  apply Forall_forall. intros b Hb. apply list_elem_of_In, in_rev, list_elem_of_In in Hb.
  revert b Hb. apply Forall_forall, Forall_dropSpaces, Forall_forall.
  intros b Hb. apply list_elem_of_In, in_rev, list_elem_of_In in Hb.
  revert b Hb. apply Forall_forall. by apply Forall_dropSpaces.
Qed.

Lemma TrimSpace_idemp s : strings.TrimSpace (strings.TrimSpace s) = strings.TrimSpace s.
Proof.
  unfold strings.TrimSpace. fold (trimmed (strings.bytes s)).
  rewrite bytes_ofBytes.
  - fold (trimmed (trimmed (strings.bytes s))). by rewrite trimmed_idemp.
  - apply Forall_trimmed. unfold strings.bytes. apply Forall_forall.
    intros b Hb. apply list_elem_of_In, in_map_iff in Hb as (a & <- & _).
    apply N_ascii_bounded.
Qed.

(** X20.  The tag names the stores keep are in normal form: trimming them
    again and dropping the empty ones changes nothing, none of them is
    empty, and a model made from an entry that came out of a model is that
    model. *)
Theorem normalised_tags_fixed (tags : list string) :
  let names := filter (λ t, t ≠ "") (strings.TrimSpace <$> tags) in
  filter (λ t, t ≠ "") (strings.TrimSpace <$> names) = names
  ∧ (∀ t, t ∈ names → strings.TrimSpace t = t ∧ t ≠ "")
  ∧ (∀ p, Tags p = tags → ToProblem (FromProblem (ToProblem p)) = ToProblem p).
Proof.
  intros names.
  assert (Hfixed : ∀ t, t ∈ names → strings.TrimSpace t = t ∧ t ≠ "").
  { intros t Ht. apply list_elem_of_filter in Ht as [Hne Ht].
    apply list_elem_of_fmap in Ht as (t0 & -> & _). split; [apply TrimSpace_idemp|done]. }
  assert (Hnames : filter (λ t, t ≠ "") (strings.TrimSpace <$> names) = names).
  { clearbody names. induction names as [|t names IH]; [done|].
    rewrite fmap_cons, filter_cons. destruct (Hfixed t ltac:(left)) as [-> Hne].
    rewrite decide_True by done. f_equal. apply IH. intros t' Ht'. apply Hfixed. by right. }
  split; [exact Hnames|]. split; [exact Hfixed|].
  intros p Hp. rewrite FromProblem_ToProblem, !ToProblem_normal.
  cbn [ID UserID ProblemName Link Difficulty Category Status SolvedAt LastReviewedAt
       ReviewCount Notes Tags].
  rewrite Hp. fold names. by rewrite Hnames.
Qed.

Lemma normalised_tags_fixed_witness :
  filter (λ t, t ≠ "") (strings.TrimSpace <$> [" dp "; "  "; "two pointers "])
  = ["dp"; "two pointers"]
  ∧ ToProblem (FromProblem (ToProblem (Sample.entry [" dp "; "  "; "two pointers "])))
    = ToProblem (Sample.entry [" dp "; "  "; "two pointers "]).
Proof.
  split; [by vm_compute|].
  destruct (normalised_tags_fixed [" dp "; "  "; "two pointers "]) as (_ & _ & Hmodel).
  by apply Hmodel.
Defined.

(** ** Instances of the invariant and of the sibling path *)


Lemma remindUser_first_attempt_succeeds_witness :
  Scheduler.increments
    (Scheduler.journal (Scheduler.remindUser Sample.online Sample.config Sample.listed "u1"))
  = [1].
Proof.
  etrans; [apply (remindUser_first_attempt_succeeds Sample.online Sample.config Sample.listed
                    "u1" (Sample.mention "u1")); [reflexivity|by vm_compute|reflexivity..]|].
  by vm_compute.
Defined.
